(** * Layout Type Graph engine of revng-c's Data Layout Analysis

    A shallow embedding of [LayoutTypeSystem], [LayoutTypeSystemNode],
    [TypeLinkTag] and [VectEqClasses]
    (include/revng-c/DataLayoutAnalysis/DLATypeSystem.h and
    lib/DataLayoutAnalysis/DLATypeSystem.cpp), and the properties of its
    mutation primitives. *)

From stdpp Require Import gmap list relations.
From Stdlib Require Import ZArith NArith Lia Sorted.

Set Default Proof Using "Type".
Set Warnings "-clear-no-such-hyp".

(** ** Outcomes of an operation

    A call either returns, or trips [revng_assert] / [revng_check] /
    [revng_unreachable] (the process aborts), or leaves the behaviour
    defined by the C++ source (a dangling node pointer, an iterator that is
    not in the set, an out-of-range index, signed overflow), or a loop of
    the model exhausts its step budget. *)

Inductive outcome (A : Type) : Type :=
  | Done (a : A)
  | Fatal
  | Undef
  | OutOfFuel.
Arguments Done {A} a.
Arguments Fatal {A}.
Arguments Undef {A}.
Arguments OutOfFuel {A}.

Definition obind {A B : Type} (m : outcome A) (k : A → outcome B) : outcome B :=
  match m with
  | Done a => k a
  | Fatal => Fatal
  | Undef => Undef
  | OutOfFuel => OutOfFuel
  end.

Notation "x ←! m ; k" := (obind m (fun x => k))
  (at level 20, m at level 100, k at level 200, only parsing, right associativity).
Notation "' p ←! m ; k" := (obind m (fun p => k))
  (at level 20, p pattern, m at level 100, k at level 200, only parsing, right associativity).

(** [revng_assert(b)] *)
Definition revng_assert (b : bool) : outcome unit :=
  if b then Done tt else Fatal.

(** A precondition without which the C++ behaviour is not defined. *)
Definition defined (b : bool) : outcome unit :=
  if b then Done tt else Undef.

(** ** Edge tags *)

(** [struct OffsetExpression]: [int64_t Offset], the strides and the
    optional trip counts. *)
Record OffsetExpression : Type := mkOE {
  Offset : Z;
  Strides : list Z;
  TripCounts : list (option Z)
}.

(** [enum TypeLinkTag::LinkKind] *)
Inductive LinkKind : Type :=
  | LK_Inheritance
  | LK_Equality
  | LK_Instance
  | LK_Pointer
  | LK_All.

(** [class TypeLinkTag]: every tag carries an offset expression and a kind;
    the defaulted [operator<=>] compares both. *)
Record TypeLinkTag : Type := mkTag {
  OE : OffsetExpression;
  Kind : LinkKind
}.

#[global] Instance OffsetExpression_eq_dec : EqDecision OffsetExpression.
Proof. solve_decision. Defined.
#[global] Instance LinkKind_eq_dec : EqDecision LinkKind.
Proof. solve_decision. Defined.
#[global] Instance TypeLinkTag_eq_dec : EqDecision TypeLinkTag.
Proof. solve_decision. Defined.

#[global] Instance OffsetExpression_countable : Countable OffsetExpression.
Proof.
  refine (inj_countable' (fun o => (Offset o, Strides o, TripCounts o))
                         (fun t => mkOE t.1.1 t.1.2 t.2) _).
  by intros [].
Defined.

#[global] Instance LinkKind_countable : Countable LinkKind.
Proof.
  refine (inj_countable'
    (fun k => match k with
              | LK_Inheritance => 0 | LK_Equality => 1 | LK_Instance => 2
              | LK_Pointer => 3 | LK_All => 4 end)
    (fun n => match n with
              | 0 => LK_Inheritance | 1 => LK_Equality | 2 => LK_Instance
              | 3 => LK_Pointer | _ => LK_All end) _).
  by intros [].
Defined.

#[global] Instance TypeLinkTag_countable : Countable TypeLinkTag.
Proof.
  refine (inj_countable' (fun t => (OE t, Kind t)) (fun p => mkTag p.1 p.2) _).
  by intros [].
Defined.

(** [explicit OffsetExpression()] and [explicit OffsetExpression(int64_t)] *)
Definition OffsetExpression_of (Off : Z) : OffsetExpression := mkOE Off [] [].
Definition OffsetExpression_default : OffsetExpression := OffsetExpression_of 0.

Definition equalityTag : TypeLinkTag := mkTag OffsetExpression_default LK_Equality.
Definition inheritanceTag : TypeLinkTag := mkTag OffsetExpression_default LK_Inheritance.
Definition instanceTag (Off : OffsetExpression) : TypeLinkTag := mkTag Off LK_Instance.
Definition pointerTag : TypeLinkTag := mkTag OffsetExpression_default LK_Pointer.

Definition getKind (T : TypeLinkTag) : LinkKind := Kind T.

(** [getOffsetExpr] asserts that the tag is an instance tag. *)
Definition getOffsetExpr (T : TypeLinkTag) : outcome OffsetExpression :=
  _ ←! revng_assert (bool_decide (getKind T = LK_Instance)); Done (OE T).


(** ** Layout nodes

    A [LayoutTypeSystemNode *] is modelled by the [ID] the node was created
    with ([NID] hands every node a fresh one), [None] being [nullptr].  A
    [Link] is a [std::pair] of a node pointer and a tag pointer; the tags
    live deduplicated in [LinkTags], so two tag pointers are equal exactly
    when the tags are, and a link carries the tag itself.  [NeighborsSet]
    is a [std::set<Link>]. *)

Definition NodePtr : Type := option nat.
Definition Link : Type := nat * TypeLinkTag.

Inductive InterferingChildrenInfo : Type :=
  | Unknown
  | AllChildrenAreInterfering
  | AllChildrenAreNonInterfering.

#[global] Instance InterferingChildrenInfo_eq_dec : EqDecision InterferingChildrenInfo.
Proof. solve_decision. Defined.

Record LayoutTypeSystemNode : Type := mkNode {
  Successors : gset Link;
  Predecessors : gset Link;
  Size : N;
  InterferingInfo : InterferingChildrenInfo
}.

(** [LayoutTypeSystemNode(uint64_t I)] *)
Definition newNode : LayoutTypeSystemNode := mkNode ∅ ∅ 0%N Unknown.

Definition setSuccessors (f : gset Link → gset Link) (n : LayoutTypeSystemNode) :=
  mkNode (f (Successors n)) (Predecessors n) (Size n) (InterferingInfo n).
Definition setPredecessors (f : gset Link → gset Link) (n : LayoutTypeSystemNode) :=
  mkNode (Successors n) (f (Predecessors n)) (Size n) (InterferingInfo n).
Definition setSize (s : N) (n : LayoutTypeSystemNode) :=
  mkNode (Successors n) (Predecessors n) s (InterferingInfo n).
Definition setInterferingInfo (i : InterferingChildrenInfo) (n : LayoutTypeSystemNode) :=
  mkNode (Successors n) (Predecessors n) (Size n) i.

(** The nodes that are allocated, by pointer.  The graph destroys a node
    when it erases it from [Layouts], so the allocated nodes are the live
    ones. *)
Abbreviation Heap := (gmap nat LayoutTypeSystemNode).

(** [P->...]: a null or dangling pointer has no node behind it. *)
Definition load (H : Heap) (p : nat) : outcome LayoutTypeSystemNode :=
  match H !! p with
  | Some n => Done n
  | None => Undef
  end.

Definition modify (p : nat) (f : LayoutTypeSystemNode → LayoutTypeSystemNode)
    (H : Heap) : outcome Heap :=
  n ←! load H p; Done (<[p := f n]> H).

Definition deref (P : NodePtr) : outcome nat :=
  match P with
  | Some p => Done p
  | None => Undef
  end.

(** A range-based [for] over a container, threading the state. *)
Fixpoint forEach {A S : Type} (l : list A) (body : A → S → outcome S) (s : S)
    : outcome S :=
  match l with
  | [] => Done s
  | x :: l' => s' ←! body x s; forEach l' body s'
  end.

(** The entries of a [NeighborsSet] between
    [lower_bound({X, nullptr})] and [upper_bound({std::next(X), nullptr})]
    are the entries whose node is [X]. *)
Definition entriesOf (X : nat) (S : gset Link) : gset Link :=
  filter (fun l => l.1 = X) S.

(** [erase(It, End)] over that range. *)
Definition eraseEntriesOf (X : nat) (S : gset Link) : gset Link :=
  filter (fun l => l.1 ≠ X) S.

(** The [while (It != End)] loop of [fixPredSucc]: every entry of [From] is
    extracted and inserted again with [Into] as its node. *)
Definition redirect (From Into : nat) (S : gset Link) : gset Link :=
  eraseEntriesOf From S ∪ set_map (fun l : Link => (Into, l.2)) (entriesOf From S).

(** [RemoveSelfEdges] *)
Definition RemoveSelfEdges (From Into : nat) (S : gset Link) : gset Link :=
  eraseEntriesOf Into (eraseEntriesOf From S).

Definition fixPredSucc (From Into : nat) (H : Heap) : outcome Heap :=
  _ ←! revng_assert (bool_decide (From ≠ Into));
  F ←! load H From;
  H1 ←! forEach (elements (Successors F))
         (fun '(Neighbor, _) => modify Neighbor (setPredecessors (redirect From Into))) H;
  F1 ←! load H1 From;
  H2 ←! forEach (elements (Predecessors F1))
         (fun '(Neighbor, _) => modify Neighbor (setSuccessors (redirect From Into))) H1;
  F2 ←! load H2 From;
  H3 ←! modify Into (setPredecessors (fun P => P ∪ Predecessors F2)) H2;
  H4 ←! modify Into (setSuccessors (fun S => S ∪ Successors F2)) H3;
  H5 ←! modify Into (setPredecessors (RemoveSelfEdges From Into)) H4;
  modify Into (setSuccessors (RemoveSelfEdges From Into)) H5.

(** ** Equivalence classes

    [VectEqClasses] derives from [llvm::IntEqClasses], whose members are the
    vector [EC] and the counter [NumClasses]. *)

Record VectEqClasses : Type := mkVEC {
  EC : list nat;
  NumClasses : nat;
  RemovedID : option nat;
  NElems : nat
}.

Definition setEC (E : list nat) (C : VectEqClasses) : VectEqClasses :=
  mkVEC E (NumClasses C) (RemovedID C) (NElems C).

(** [EC[i]] *)
Definition rd (E : list nat) (i : nat) : outcome nat :=
  match E !! i with
  | Some v => Done v
  | None => Undef
  end.

(** Modelled from the spec: [llvm::IntEqClasses] belongs to LLVM and is not
    among the sources of this repository.  The spec asks of it to extend
    the classes by one singleton, to join two classes, and to compress all
    classes to small dense integers; the definitions from [grow] to
    [compress] follow LLVM's implementation of that interface, where
    [EC[i]] points from [i] towards the smallest member of its class. *)
Definition grow (n : nat) (C : VectEqClasses) : outcome VectEqClasses :=
  _ ←! revng_assert (NumClasses C =? 0);
  Done (setEC (EC C ++ seq (length (EC C)) (n - length (EC C))) C).

Fixpoint join_loop (fuel : nat) (E : list nat) (a b eca ecb : nat)
    : outcome (list nat * nat) :=
  match fuel with
  | 0 => OutOfFuel
  | S fuel' =>
      if eca =? ecb then Done (E, eca)
      else if eca <? ecb then
        let E' := <[b := eca]> E in
        ecb' ←! rd E' ecb;
        join_loop fuel' E' a ecb eca ecb'
      else
        let E' := <[a := ecb]> E in
        eca' ←! rd E' eca;
        join_loop fuel' E' eca b eca' ecb
  end.

Definition join (a b : nat) (C : VectEqClasses) : outcome (VectEqClasses * nat) :=
  _ ←! revng_assert (NumClasses C =? 0);
  eca ←! rd (EC C) a;
  ecb ←! rd (EC C) b;
  '(E', r) ←! join_loop (4 * length (EC C)) (EC C) a b eca ecb;
  Done (setEC E' C, r).

Fixpoint findLeader_loop (fuel : nat) (E : list nat) (a : nat) : outcome nat :=
  match fuel with
  | 0 => OutOfFuel
  | S fuel' =>
      v ←! rd E a;
      if a =? v then Done a else findLeader_loop fuel' E v
  end.

Definition findLeader (a : nat) (C : VectEqClasses) : outcome nat :=
  _ ←! revng_assert (NumClasses C =? 0);
  findLeader_loop (S (length (EC C))) (EC C) a.

Fixpoint compress_loop (idx : list nat) (E : list nat) (NC : nat)
    : outcome (list nat * nat) :=
  match idx with
  | [] => Done (E, NC)
  | i :: idx' =>
      v ←! rd E i;
      if v =? i then compress_loop idx' (<[i := NC]> E) (S NC)
      else w ←! rd E v; compress_loop idx' (<[i := w]> E) NC
  end.

Definition compress (C : VectEqClasses) : outcome VectEqClasses :=
  if NumClasses C =? 0 then
    '(E', NC) ←! compress_loop (seq 0 (length (EC C))) (EC C) 0;
    Done (mkVEC E' NC (RemovedID C) (NElems C))
  else Done C.

Definition getNumClasses (C : VectEqClasses) : nat := NumClasses C.

(** [lookupEqClass] is [IntEqClasses::operator[]], which asserts that the
    classes are compressed. *)
Definition lookupEqClass (ID : nat) (C : VectEqClasses) : outcome nat :=
  _ ←! revng_assert (negb (NumClasses C =? 0));
  rd (EC C) ID.

(** The members of [VectEqClasses] itself. *)
Definition growBy1 (C : VectEqClasses) : outcome (VectEqClasses * nat) :=
  let C1 := mkVEC (EC C) (NumClasses C) (RemovedID C) (S (NElems C)) in
  C2 ←! grow (NElems C1) C1;
  Done (C2, NElems C2).

Definition remove (A : nat) (C : VectEqClasses) : outcome VectEqClasses :=
  match RemovedID C with
  | Some R => '(C', _) ←! join A R C; Done C'
  | None => Done (mkVEC (EC C) (NumClasses C) (Some A) (NElems C))
  end.

Definition isRemoved (ID : nat) (C : VectEqClasses) : outcome bool :=
  match RemovedID C with
  | None => Done false
  | Some R =>
      if getNumClasses C =? 0 then
        x ←! findLeader ID C;
        y ←! findLeader R C;
        Done (x =? y)
      else
        ElementEqClass ←! lookupEqClass ID C;
        RemovedEqClass ←! lookupEqClass R C;
        Done (ElementEqClass =? RemovedEqClass)
  end.

(** ** The graph *)

Record LayoutTypeSystem : Type := mkTS {
  NID : nat;
  Layouts : Heap;
  LinkTags : gset TypeLinkTag;
  EqClasses : VectEqClasses
}.

(** [LayoutTypeSystem()] *)
Definition emptyTS : LayoutTypeSystem := mkTS 0 ∅ ∅ (mkVEC [] 0 None 0).

Definition setLayouts (H : Heap) (TS : LayoutTypeSystem) : LayoutTypeSystem :=
  mkTS (NID TS) H (LinkTags TS) (EqClasses TS).
Definition setEqClasses (C : VectEqClasses) (TS : LayoutTypeSystem) : LayoutTypeSystem :=
  mkTS (NID TS) (Layouts TS) (LinkTags TS) C.

(** Identifiers are unbounded naturals here.  [VectEqClasses] indexes its
    elements with [unsigned], so a graph that has handed out [2^32 - 1]
    identifiers is where this model of [createArtificialLayoutType] ends. *)
Definition createArtificialLayoutType (TS : LayoutTypeSystem)
    : outcome (LayoutTypeSystem * nat) :=
  _ ←! defined (bool_decide (N.of_nat (NID TS) < 4294967295)%N);
  let New := NID TS in
  '(C, _) ←! growBy1 (EqClasses TS);
  _ ←! revng_assert (bool_decide (Layouts TS !! New = None));
  Done (mkTS (S (NID TS)) (<[New := newNode]> (Layouts TS)) (LinkTags TS) C, New).

Definition addLink (Src Tgt : NodePtr) (Tag : TypeLinkTag) (TS : LayoutTypeSystem)
    : outcome (LayoutTypeSystem * (option TypeLinkTag * bool)) :=
  match Src, Tgt with
  | Some src, Some tgt =>
      if bool_decide (src = tgt) then Done (TS, (None, false))
      else
        _ ←! revng_assert (bool_decide (is_Some (Layouts TS !! src)));
        _ ←! revng_assert (bool_decide (is_Some (Layouts TS !! tgt)));
        let Tags := {[Tag]} ∪ LinkTags TS in
        S ←! load (Layouts TS) src;
        let New := bool_decide ((tgt, Tag) ∉ Successors S) in
        H1 ←! modify src (setSuccessors (fun X => {[(tgt, Tag)]} ∪ X)) (Layouts TS);
        T ←! load H1 tgt;
        let New := New || bool_decide ((src, Tag) ∉ Predecessors T) in
        H2 ←! modify tgt (setPredecessors (fun X => {[(src, Tag)]} ∪ X)) H1;
        Done (mkTS (NID TS) H2 Tags (EqClasses TS), (Some Tag, New))
  | _, _ => Done (TS, (None, false))
  end.

Definition addEqualityLink (Src Tgt : NodePtr) (TS : LayoutTypeSystem)
    : outcome (LayoutTypeSystem * (option TypeLinkTag * bool)) :=
  '(TS1, ForwardLinkTag) ←! addLink Src Tgt equalityTag TS;
  '(TS2, BackwardLinkTag) ←! addLink Tgt Src equalityTag TS1;
  _ ←! revng_assert (bool_decide (ForwardLinkTag = BackwardLinkTag));
  Done (TS2, ForwardLinkTag).

Definition addInheritanceLink (Src Tgt : NodePtr) (TS : LayoutTypeSystem) :=
  addLink Src Tgt inheritanceTag TS.

Definition addInstanceLink (Src Tgt : NodePtr) (Off : OffsetExpression)
    (TS : LayoutTypeSystem) :=
  addLink Src Tgt (instanceTag Off) TS.

Definition addPointerLink (Src Tgt : NodePtr) (TS : LayoutTypeSystem) :=
  addLink Src Tgt pointerTag TS.

(** ** Merging and removing nodes *)

(** One iteration of the loop of [mergeNodes], [Into] being [ToMerge[0]]. *)
Definition mergeStep (into : nat) (From : NodePtr) (TS : LayoutTypeSystem)
    : outcome LayoutTypeSystem :=
  _ ←! revng_assert (bool_decide (From ≠ Some into));
  from ←! deref From;
  _ ←! load (Layouts TS) from;
  '(C, _) ←! join into from (EqClasses TS);
  H1 ←! fixPredSucc from into (Layouts TS);
  H2 ←! modify into (setInterferingInfo Unknown) H1;
  I ←! load H2 into;
  F ←! load H2 from;
  _ ←! revng_assert ((Size I =? 0)%N || (Size F <=? Size I)%N);
  H3 ←! modify into (setSize (N.max (Size I) (Size F))) H2;
  _ ←! revng_assert (bool_decide (is_Some (H3 !! from)));
  Done (mkTS (NID TS) (delete from H3) (LinkTags TS) C).

Definition mergeNodes (ToMerge : list NodePtr) (TS : LayoutTypeSystem)
    : outcome LayoutTypeSystem :=
  _ ←! revng_assert (1 <? length ToMerge);
  match ToMerge with
  | Into :: Rest =>
      into ←! deref Into;
      _ ←! load (Layouts TS) into;
      forEach Rest (mergeStep into) TS
  | [] => Fatal
  end.

Definition removeNode (ToRemove : NodePtr) (TS : LayoutTypeSystem)
    : outcome LayoutTypeSystem :=
  r ←! deref ToRemove;
  R ←! load (Layouts TS) r;
  C ←! remove r (EqClasses TS);
  H1 ←! forEach (elements (Successors R))
         (fun '(Neighbor, _) => modify Neighbor (setPredecessors (eraseEntriesOf r)))
         (Layouts TS);
  R1 ←! load H1 r;
  H2 ←! forEach (elements (Predecessors R1))
         (fun '(Neighbor, _) => modify Neighbor (setSuccessors (eraseEntriesOf r))) H1;
  _ ←! revng_assert (bool_decide (is_Some (H2 !! r)));
  Done (mkTS (NID TS) (delete r H2) (LinkTags TS) C).

(** ** Moving an edge

    [EdgeIt] is an iterator into [OldSrc->Successors]; it is modelled by the
    link it points to, and the call is not defined when that link is not in
    the set.  The node handles that [extract] returns are read through
    [EdgeIt] afterwards, which yields the extracted link.

    In [moveEdgeWithoutSumming] the handle is given to
    [NewSrc->Successors.insert].  When [NewSrc] holds an equal entry already
    the insertion fails and the handle comes back in the result of [insert],
    a temporary that frees the entry at the end of the statement: the read
    of [EdgeIt->first] that follows is then not defined. *)

Definition moveEdgeWithoutSumming (OldSrc NewSrc : nat) (EdgeIt : Link) (H : Heap)
    : outcome Heap :=
  Old ←! load H OldSrc;
  _ ←! defined (bool_decide (EdgeIt ∈ Successors Old));
  H1 ←! modify OldSrc (setSuccessors (fun S => S ∖ {[EdgeIt]})) H;
  New ←! load H1 NewSrc;
  _ ←! defined (negb (bool_decide (EdgeIt ∈ Successors New)));
  H2 ←! modify NewSrc (setSuccessors (fun S => {[EdgeIt]} ∪ S)) H1;
  let Tgt := EdgeIt.1 in
  T ←! load H2 Tgt;
  _ ←! revng_assert (bool_decide ((OldSrc, EdgeIt.2) ∈ Predecessors T));
  modify Tgt
    (setPredecessors (fun P => {[(NewSrc, EdgeIt.2)]} ∪ P ∖ {[(OldSrc, EdgeIt.2)]})) H2.

Definition INT64_MIN : Z := - 2 ^ 63.
Definition INT64_MAX : Z := 2 ^ 63 - 1.

Definition moveEdge (OldSrc NewSrc : NodePtr) (EdgeIt : Link) (OffsetToSum : Z)
    (TS : LayoutTypeSystem) : outcome LayoutTypeSystem :=
  match OldSrc, NewSrc with
  | Some oldSrc, Some newSrc =>
      if (OffsetToSum =? 0)%Z then
        H ←! moveEdgeWithoutSumming oldSrc newSrc EdgeIt (Layouts TS);
        Done (setLayouts H TS)
      else
        let Tgt := EdgeIt.1 in
        Old ←! load (Layouts TS) oldSrc;
        _ ←! defined (bool_decide (EdgeIt ∈ Successors Old));
        H1 ←! modify oldSrc (setSuccessors (fun S => S ∖ {[EdgeIt]})) (Layouts TS);
        let TS1 := setLayouts H1 TS in
        let EdgeTag := EdgeIt.2 in
        '(TS2, _) ←!
          match getKind EdgeTag with
          | LK_Inheritance =>
              if (0 <? OffsetToSum)%Z then
                addInstanceLink NewSrc (Some Tgt) (OffsetExpression_of OffsetToSum) TS1
              else
                addInheritanceLink NewSrc (Some Tgt) TS1
          | LK_Instance =>
              NewOE ←! getOffsetExpr EdgeTag;
              let Sum := (Offset NewOE + OffsetToSum)%Z in
              _ ←! defined ((INT64_MIN <=? Sum)%Z && (Sum <=? INT64_MAX)%Z);
              let NewOE := mkOE Sum (Strides NewOE) (TripCounts NewOE) in
              _ ←! revng_assert (0 <=? Offset NewOE)%Z;
              addInstanceLink NewSrc (Some Tgt) NewOE TS1
          | _ => Fatal
          end;
        H3 ←! modify Tgt (setPredecessors (fun P => P ∖ {[(oldSrc, EdgeTag)]}))
               (Layouts TS2);
        Done (setLayouts H3 TS2)
  | _, _ => Done TS
  end.

(** ** Filtered views and the leaf check *)

Definition hasNonPointerLinkKind (K : LinkKind) (L : Link) : bool :=
  match K with
  | LK_All => negb (bool_decide (getKind L.2 = LK_Pointer))
  | _ => bool_decide (getKind L.2 = K)
  end.

(** [isLeaf<K>]: the successors seen through
    [EdgeFilteredGraph<_, hasNonPointerLinkKind<K>>], the view that keeps the
    edges on which the predicate holds, are none. *)
Definition isLeaf (K : LinkKind) (N : LayoutTypeSystemNode) : bool :=
  forallb (fun L => negb (hasNonPointerLinkKind K L)) (elements (Successors N)).

(** [VerifyDLALog] is the logger [dla-verify-strict]; the argument says
    whether it is enabled. *)
Fixpoint verifyLeafs_loop (VerifyDLALog : bool)
    (nodes : list (nat * LayoutTypeSystemNode)) : outcome bool :=
  match nodes with
  | [] => Done true
  | (_, Node) :: rest =>
      if isLeaf LK_All Node && (Size Node =? 0)%N then
        _ ←! (if VerifyDLALog then revng_assert false else Done tt);
        Done false
      else verifyLeafs_loop VerifyDLALog rest
  end.

Definition verifyLeafs (VerifyDLALog : bool) (TS : LayoutTypeSystem) : outcome bool :=
  verifyLeafs_loop VerifyDLALog (map_to_list (Layouts TS)).

(** ** Sequences of calls

    What a client of the graph can do to it: the mutation API, the writes to
    the public members [Size] and [InterferingInfo] of a node, and
    [getEqClasses().compress()]. *)

Inductive Op : Type :=
  | OpCreate
  | OpSetSize (P : NodePtr) (s : N)
  | OpSetInterferingInfo (P : NodePtr) (i : InterferingChildrenInfo)
  | OpAddEqualityLink (Src Tgt : NodePtr)
  | OpAddInheritanceLink (Src Tgt : NodePtr)
  | OpAddInstanceLink (Src Tgt : NodePtr) (Off : OffsetExpression)
  | OpAddPointerLink (Src Tgt : NodePtr)
  | OpMergeNodes (ToMerge : list NodePtr)
  | OpRemoveNode (ToRemove : NodePtr)
  | OpMoveEdge (OldSrc NewSrc : NodePtr) (EdgeIt : Link) (OffsetToSum : Z)
  | OpCompress.

Definition fstO {A B : Type} (m : outcome (A * B)) : outcome A :=
  '(a, _) ←! m; Done a.

Definition setField (P : NodePtr) (f : LayoutTypeSystemNode → LayoutTypeSystemNode)
    (TS : LayoutTypeSystem) : outcome LayoutTypeSystem :=
  p ←! deref P;
  H ←! modify p f (Layouts TS);
  Done (setLayouts H TS).

Definition run (o : Op) (TS : LayoutTypeSystem) : outcome LayoutTypeSystem :=
  match o with
  | OpCreate => fstO (createArtificialLayoutType TS)
  | OpSetSize P s => setField P (setSize s) TS
  | OpSetInterferingInfo P i => setField P (setInterferingInfo i) TS
  | OpAddEqualityLink Src Tgt => fstO (addEqualityLink Src Tgt TS)
  | OpAddInheritanceLink Src Tgt => fstO (addInheritanceLink Src Tgt TS)
  | OpAddInstanceLink Src Tgt Off => fstO (addInstanceLink Src Tgt Off TS)
  | OpAddPointerLink Src Tgt => fstO (addPointerLink Src Tgt TS)
  | OpMergeNodes ToMerge => mergeNodes ToMerge TS
  | OpRemoveNode P => removeNode P TS
  | OpMoveEdge OldSrc NewSrc EdgeIt OffsetToSum =>
      moveEdge OldSrc NewSrc EdgeIt OffsetToSum TS
  | OpCompress => C ←! compress (EqClasses TS); Done (setEqClasses C TS)
  end.

Definition runAll (ops : list Op) (TS : LayoutTypeSystem) : outcome LayoutTypeSystem :=
  forEach ops run TS.

(** The states that a sequence of calls reaches from the empty graph, each
    call of which satisfies [ok]. *)
Inductive reachableBy (ok : Op → LayoutTypeSystem → Prop) : LayoutTypeSystem → Prop :=
  | reach_empty : reachableBy ok emptyTS
  | reach_step o TS TS' :
      reachableBy ok TS → ok o TS → run o TS = Done TS' → reachableBy ok TS'.

Definition reachable : LayoutTypeSystem → Prop := reachableBy (fun _ _ => True).

(** Observations on a graph. *)
Definition succs (p : nat) (TS : LayoutTypeSystem) : gset Link :=
  from_option Successors ∅ (Layouts TS !! p).
Definition preds (p : nat) (TS : LayoutTypeSystem) : gset Link :=
  from_option Predecessors ∅ (Layouts TS !! p).
Definition sizeOf (p : nat) (TS : LayoutTypeSystem) : option N :=
  Size <$> Layouts TS !! p.
Definition live (p : nat) (TS : LayoutTypeSystem) : Prop :=
  is_Some (Layouts TS !! p).

(** The result of a call that returns. *)
Definition returned {A B : Type} (m : outcome (A * B)) : option B :=
  match m with
  | Done (_, b) => Some b
  | _ => None
  end.

(** The state a sequence of calls leaves, the empty graph if it does not
    run to its end. *)
Definition stateAfter (ops : list Op) : LayoutTypeSystem :=
  match runAll ops emptyTS with
  | Done TS => TS
  | _ => emptyTS
  end.

(** Adjacency is mirrored: every successor entry has its predecessor entry
    at the neighbour, which is live, and the other way round. *)
Definition mirrored (TS : LayoutTypeSystem) : Prop :=
  ∀ a b T, live a TS →
    ((b, T) ∈ succs a TS → live b TS ∧ (a, T) ∈ preds b TS) ∧
    ((b, T) ∈ preds a TS → live b TS ∧ (a, T) ∈ succs b TS).

(** No live node is its own neighbour. *)
Definition noSelfEdges (TS : LayoutTypeSystem) : Prop :=
  ∀ a T, live a TS → ((a, T) ∉ succs a TS) ∧ ((a, T) ∉ preds a TS).

(** * Properties *)

(** ** Reasoning about outcomes *)

Lemma obind_Done {A B : Type} (m : outcome A) (k : A → outcome B) (b : B) :
  obind m k = Done b ↔ ∃ a, m = Done a ∧ k a = Done b.
Proof.
  destruct m; simpl; split; try done; try (by intros (? & ? & ?)).
  - intros Hk. by eexists.
  - by intros (? & [= ->] & ?).
Qed.

Lemma revng_assert_Done (b : bool) (u : unit) : revng_assert b = Done u ↔ b = true.
Proof. destruct b, u; simpl; split; done. Qed.

Lemma defined_Done (b : bool) (u : unit) : defined b = Done u ↔ b = true.
Proof. destruct b, u; simpl; split; done. Qed.

Lemma load_Done (H : Heap) (p : nat) (n : LayoutTypeSystemNode) :
  load H p = Done n ↔ H !! p = Some n.
Proof. unfold load. destruct (H !! p); split; congruence. Qed.

Lemma modify_Done (p : nat) (f : LayoutTypeSystemNode → LayoutTypeSystemNode)
    (H H' : Heap) :
  modify p f H = Done H' ↔ ∃ n, H !! p = Some n ∧ H' = <[p := f n]> H.
Proof.
  unfold modify. rewrite obind_Done. setoid_rewrite load_Done.
  split; intros (n & Hn & Heq); exists n; split; congruence.
Qed.

Lemma load_Some (H : Heap) (p : nat) (n : LayoutTypeSystemNode) :
  H !! p = Some n → load H p = Done n.
Proof. apply load_Done. Qed.

Lemma modify_Some (p : nat) (f : LayoutTypeSystemNode → LayoutTypeSystemNode)
    (H : Heap) (n : LayoutTypeSystemNode) :
  H !! p = Some n → modify p f H = Done (<[p := f n]> H).
Proof. intros Hn. apply modify_Done. by exists n. Qed.

Lemma deref_Done (P : NodePtr) (p : nat) : deref P = Done p ↔ P = Some p.
Proof. destruct P; simpl; split; congruence. Qed.

(** Splits a hypothesis [m >>= k = Done b] into the steps that returned. *)
Ltac osplit H :=
  repeat match type of H with
  | obind _ _ = Done _ =>
      let a := fresh "v" in
      let Ha := fresh "E" in
      apply obind_Done in H as (a & Ha & H)
  end.

(** Closed goals about concrete graphs, by evaluation. *)
Ltac by_evaluation :=
  intros; repeat split;
  first [ vm_compute; reflexivity
        | let H := fresh in intros H; vm_compute in H; discriminate H
        | compute_done ].

(** ** Neighbour sets *)

(** The nodes that occur in a set of links. *)
Definition nbrs (S : gset Link) : gset nat := set_map fst S.

Lemma elem_of_eraseEntriesOf (X : nat) (S : gset Link) (b : nat) (T : TypeLinkTag) :
  (b, T) ∈ eraseEntriesOf X S ↔ b ≠ X ∧ (b, T) ∈ S.
Proof. unfold eraseEntriesOf. by rewrite elem_of_filter. Qed.

Lemma elem_of_redirect (f i : nat) (S : gset Link) (b : nat) (T : TypeLinkTag) :
  (b, T) ∈ redirect f i S ↔ (b ≠ f ∧ (b, T) ∈ S) ∨ (b = i ∧ (f, T) ∈ S).
Proof.
  unfold redirect, eraseEntriesOf, entriesOf.
  rewrite elem_of_union, elem_of_filter, elem_of_map. simpl. split.
  - intros [?|([b' T'] & Heq & Hin)]; [by left|]. right.
    apply elem_of_filter in Hin as [H1 H2]. simpl in *. by inversion Heq; subst.
  - intros [?|[-> Hin]]; [by left|]. right. exists (f, T).
    split; [done|]. by apply elem_of_filter.
Qed.

Lemma elem_of_RemoveSelfEdges (f i : nat) (S : gset Link) (b : nat) (T : TypeLinkTag) :
  (b, T) ∈ RemoveSelfEdges f i S ↔ b ≠ i ∧ b ≠ f ∧ (b, T) ∈ S.
Proof. unfold RemoveSelfEdges. rewrite !elem_of_eraseEntriesOf. tauto. Qed.

Lemma elem_of_nbrs (S : gset Link) (b : nat) : b ∈ nbrs S ↔ ∃ T, (b, T) ∈ S.
Proof.
  unfold nbrs. rewrite elem_of_map. split.
  - intros ([b' T] & -> & Hin). by exists T.
  - intros [T Hin]. by exists (b, T).
Qed.

Lemma elem_of_elements_fst (S : gset Link) (b : nat) :
  b ∈ (elements S).*1 ↔ b ∈ nbrs S.
Proof.
  rewrite elem_of_nbrs, list_elem_of_fmap. split.
  - intros ([b' T] & -> & Hin). exists T. by apply elem_of_elements.
  - intros [T Hin]. exists (b, T). split; [done|]. by apply elem_of_elements.
Qed.

#[global] Instance set_unfold_eraseEntriesOf X S b T P :
  SetUnfoldElemOf (b, T) S P →
  SetUnfoldElemOf (b, T) (eraseEntriesOf X S) (b ≠ X ∧ P).
Proof. intros [HP]. constructor. by rewrite elem_of_eraseEntriesOf, HP. Qed.

#[global] Instance set_unfold_redirect f i S b T P Q :
  SetUnfoldElemOf (b, T) S P → SetUnfoldElemOf (f, T) S Q →
  SetUnfoldElemOf (b, T) (redirect f i S) ((b ≠ f ∧ P) ∨ (b = i ∧ Q)).
Proof. intros [HP] [HQ]. constructor. by rewrite elem_of_redirect, HP, HQ. Qed.

#[global] Instance set_unfold_RemoveSelfEdges f i S b T P :
  SetUnfoldElemOf (b, T) S P →
  SetUnfoldElemOf (b, T) (RemoveSelfEdges f i S) (b ≠ i ∧ b ≠ f ∧ P).
Proof. intros [HP]. constructor. by rewrite elem_of_RemoveSelfEdges, HP. Qed.

#[global] Instance set_unfold_nbrs S b P :
  (∀ T, SetUnfoldElemOf (b, T) S (P T)) → SetUnfoldElemOf b (nbrs S) (∃ T, P T).
Proof.
  intros HP. constructor. rewrite elem_of_nbrs.
  by setoid_rewrite (@set_unfold_elem_of _ _ _ _ _ _ (HP _)).
Qed.

(** ** Loops that modify the neighbours of a node *)

Lemma forEach_modify_lookup (l : list Link)
    (f : LayoutTypeSystemNode → LayoutTypeSystemNode) (H H' : Heap) :
  (∀ n, f (f n) = f n) →
  forEach l (fun '(Neighbor, _) => modify Neighbor f) H = Done H' →
  (∀ x, x ∈ l.*1 → is_Some (H !! x)) ∧
  (∀ x, H' !! x = if decide (x ∈ l.*1) then f <$> H !! x else H !! x).
Proof.
  intros Hidem. revert H. induction l as [|[N T] l IH]; intros H Hrun; simpl in Hrun.
  - injection Hrun as <-. split.
    + intros x Hx. by apply elem_of_nil in Hx.
    + intros x. case_decide as Hx; [by apply elem_of_nil in Hx | done].
  - apply obind_Done in Hrun as (H1 & Hmod & Hrun).
    apply modify_Done in Hmod as (n & Hn & ->).
    destruct (IH _ Hrun) as [IHlive IHlook]. split.
    + intros x Hx. rewrite fmap_cons in Hx. cbn [fst] in Hx.
      apply elem_of_cons in Hx as [-> | Hx]; [by eexists|].
      specialize (IHlive x Hx). rewrite lookup_insert in IHlive.
      case_decide; [subst; by eexists | done].
    + intros x. rewrite IHlook, fmap_cons, lookup_insert. cbn [fst].
      destruct (decide (N = x)) as [-> | Hne].
      * rewrite Hn. cbn [fmap option_fmap option_map].
        destruct (decide (x ∈ x :: l.*1)) as [_ | Hc]; [|exfalso; apply Hc; by left].
        case_decide; simpl; by rewrite ?Hidem.
      * destruct (decide (x ∈ l.*1)) as [Hx | Hx];
          destruct (decide (x ∈ N :: l.*1)) as [Hy | Hy]; try done.
        -- exfalso. apply Hy. by right.
        -- exfalso. apply elem_of_cons in Hy as [-> | Hy]; done.
Qed.

Lemma forEach_modify_total (l : list Link)
    (f : LayoutTypeSystemNode → LayoutTypeSystemNode) (H : Heap) :
  (∀ x, x ∈ l.*1 → is_Some (H !! x)) →
  ∃ H', forEach l (fun '(Neighbor, _) => modify Neighbor f) H = Done H'.
Proof.
  revert H. induction l as [|[N T] l IH]; intros H Hlive; simpl.
  - by eexists.
  - destruct (Hlive N) as [n Hn]; [apply elem_of_cons; by left|].
    unfold modify at 1. unfold load. rewrite Hn. simpl. apply IH.
    intros x Hx. rewrite lookup_insert. case_decide; [by eexists|].
    apply Hlive. apply elem_of_cons. by right.
Qed.

(** The loops of [fixPredSucc] and [removeNode] run over the elements of a
    neighbour set. *)
Lemma forEach_neighbours_lookup (S : gset Link)
    (f : LayoutTypeSystemNode → LayoutTypeSystemNode) (H H' : Heap) :
  (∀ n, f (f n) = f n) →
  forEach (elements S) (fun '(Neighbor, _) => modify Neighbor f) H = Done H' →
  (∀ x, x ∈ nbrs S → is_Some (H !! x)) ∧
  (∀ x, H' !! x = if decide (x ∈ nbrs S) then f <$> H !! x else H !! x).
Proof.
  intros Hidem Hrun.
  destruct (forEach_modify_lookup _ _ _ _ Hidem Hrun) as [Hlive Hlook]. split.
  - intros x Hx. apply Hlive. by apply elem_of_elements_fst.
  - intros x. rewrite Hlook.
    destruct (decide (x ∈ nbrs S)) as [Hx | Hx].
    + rewrite decide_True; [done|]. by apply elem_of_elements_fst.
    + rewrite decide_False; [done|]. by rewrite elem_of_elements_fst.
Qed.


(** ** What [fixPredSucc] does to the heap *)

Lemma redirect_idem (f i : nat) (S : gset Link) :
  f ≠ i → redirect f i (redirect f i S) = redirect f i S.
Proof. intros Hne. apply set_eq. intros [b T]. set_unfold. naive_solver. Qed.

Lemma eraseEntriesOf_idem (X : nat) (S : gset Link) :
  eraseEntriesOf X (eraseEntriesOf X S) = eraseEntriesOf X S.
Proof. apply set_eq. intros [b T]. set_unfold. naive_solver. Qed.

Lemma RemoveSelfEdges_redirect (f i : nat) (S : gset Link) :
  RemoveSelfEdges f i (redirect f i S) = RemoveSelfEdges f i S.
Proof. apply set_eq. intros [b T]. set_unfold. naive_solver. Qed.

Lemma RemoveSelfEdges_union (f i : nat) (S S' : gset Link) :
  RemoveSelfEdges f i (S ∪ S') = RemoveSelfEdges f i S ∪ RemoveSelfEdges f i S'.
Proof. apply set_eq. intros [b T]. set_unfold. naive_solver. Qed.

(** A neighbour set after a loop that redirects it when [c] holds. *)
Definition redirectIf (c : Prop) `{Decision c} (f i : nat) (S : gset Link) : gset Link :=
  if decide c then redirect f i S else S.

Lemma RemoveSelfEdges_redirectIf (c : Prop) `{Decision c} (f i : nat) (S : gset Link) :
  RemoveSelfEdges f i (redirectIf c f i S) = RemoveSelfEdges f i S.
Proof. unfold redirectIf. case_decide; [apply RemoveSelfEdges_redirect | done]. Qed.

Lemma nbrs_redirectIf (c : Prop) `{Decision c} (f i x : nat) (S : gset Link) :
  x ≠ f → x ≠ i → x ∈ nbrs (redirectIf c f i S) ↔ x ∈ nbrs S.
Proof.
  intros Hf Hi. unfold redirectIf. case_decide; [|done].
  set_unfold. naive_solver.
Qed.

Lemma fixPredSucc_lookup (f i : nat) (H H' : Heap) :
  fixPredSucc f i H = Done H' →
  f ≠ i ∧ ∃ F I F', H !! f = Some F ∧ H !! i = Some I ∧
  (∀ x, x ∈ nbrs (Successors F) → is_Some (H !! x)) ∧
  (∀ x, x ∈ nbrs (Predecessors F) → x ≠ f → is_Some (H !! x)) ∧
  H' !! f = Some F' ∧ Size F' = Size F ∧
  H' !! i = Some (mkNode (RemoveSelfEdges f i (Successors I ∪ Successors F))
                         (RemoveSelfEdges f i (Predecessors I ∪ Predecessors F))
                         (Size I) (InterferingInfo I)) ∧
  ∀ x, x ≠ i → x ≠ f →
    H' !! x =
      (fun N => mkNode (redirectIf (x ∈ nbrs (Predecessors F)) f i (Successors N))
                       (redirectIf (x ∈ nbrs (Successors F)) f i (Predecessors N))
                       (Size N) (InterferingInfo N)) <$> H !! x.
Proof.
  unfold fixPredSucc. intros Hrun. osplit Hrun.
  apply revng_assert_Done, bool_decide_eq_true in E.
  apply load_Done in E0. rename v0 into F.
  assert (Hid1 : ∀ n, setPredecessors (redirect f i) (setPredecessors (redirect f i) n)
                      = setPredecessors (redirect f i) n).
  { intros n. unfold setPredecessors. simpl. by rewrite redirect_idem. }
  assert (Hid2 : ∀ n, setSuccessors (redirect f i) (setSuccessors (redirect f i) n)
                      = setSuccessors (redirect f i) n).
  { intros n. unfold setSuccessors. simpl. by rewrite redirect_idem. }
  destruct (forEach_neighbours_lookup _ _ _ _ Hid1 E1) as [Hlive1 Hlook1].
  apply load_Done in E2. rename v2 into F1.
  destruct (forEach_neighbours_lookup _ _ _ _ Hid2 E3) as [Hlive2 Hlook2].
  apply load_Done in E4. rename v4 into F2.
  apply modify_Done in E5 as (I2 & HI2 & ->).
  apply modify_Done in E6 as (I3 & HI3 & ->).
  apply modify_Done in E7 as (I4 & HI4 & ->).
  apply modify_Done in Hrun as (I5 & HI5 & ->).
  rewrite lookup_insert_eq in HI3, HI4, HI5.
  injection HI3 as <-. injection HI4 as <-. injection HI5 as <-.
  (* the node of [f] after the first loop *)
  assert (HF1 : F1 = mkNode (Successors F)
                       (redirectIf (f ∈ nbrs (Successors F)) f i (Predecessors F))
                       (Size F) (InterferingInfo F)).
  { rewrite Hlook1, E0 in E2. unfold redirectIf.
    case_decide; simpl in E2; injection E2 as <-; by destruct F. }
  (* the heap after both loops *)
  assert (Hlook : ∀ x, v3 !! x =
     (fun N => mkNode (redirectIf (x ∈ nbrs (Predecessors F1)) f i (Successors N))
                      (redirectIf (x ∈ nbrs (Successors F)) f i (Predecessors N))
                      (Size N) (InterferingInfo N)) <$> H !! x).
  { intros x. rewrite Hlook2, Hlook1. unfold redirectIf.
    repeat case_decide; destruct (H !! x) as [[]|]; done. }
  split; [done|].
  destruct (H !! i) as [I|] eqn:HI.
  2: { rewrite Hlook, HI in HI2. done. }
  exists F, I, F2. split_and!; try done.
  - intros x Hx Hxf. assert (Hx1 : x ∈ nbrs (Predecessors F1)).
    { rewrite HF1. simpl. unfold redirectIf. case_decide; [|done].
      set_unfold. naive_solver. }
    specialize (Hlive2 x Hx1). rewrite Hlook1 in Hlive2.
    case_decide; [|done]. by apply fmap_is_Some in Hlive2.
  - rewrite !lookup_insert_ne by done. done.
  - rewrite Hlook, E0 in E4. by injection E4 as <-.
  - rewrite !insert_insert_eq, lookup_insert_eq. f_equal.
    rewrite Hlook, HI in HI2. injection HI2 as <-.
    rewrite Hlook, E0 in E4. injection E4 as <-.
    unfold setSuccessors, setPredecessors. simpl. f_equal.
    + by rewrite RemoveSelfEdges_union, !RemoveSelfEdges_redirectIf,
        <- RemoveSelfEdges_union.
    + by rewrite RemoveSelfEdges_union, !RemoveSelfEdges_redirectIf,
        <- RemoveSelfEdges_union.
  - intros x Hxi Hxf. rewrite !lookup_insert_ne by done. rewrite Hlook.
    destruct (H !! x) as [N|]; [|done]. simpl. f_equal. f_equal.
    unfold redirectIf.
    assert (Hiff : x ∈ nbrs (Predecessors F1) ↔ x ∈ nbrs (Predecessors F)).
    { rewrite HF1. simpl. by apply nbrs_redirectIf. }
    repeat case_decide; try done; tauto.
Qed.

(** ** What one step of [mergeNodes] does *)

(** The heap [H'] is [H] with [f] merged into [i]: [f] is gone, [i] has the
    neighbours of both but [f] and [i], and in the other nodes the entries
    of [f] have become entries of [i] wherever [f] knew of the edge. *)
Definition mergedHeap (f i : nat) (F I : LayoutTypeSystemNode) (H H' : Heap) : Prop :=
  H' !! f = None ∧
  H' !! i = Some (mkNode (RemoveSelfEdges f i (Successors I ∪ Successors F))
                         (RemoveSelfEdges f i (Predecessors I ∪ Predecessors F))
                         (N.max (Size I) (Size F)) Unknown) ∧
  ∀ x, x ≠ i → x ≠ f →
    H' !! x =
      (fun N => mkNode (redirectIf (x ∈ nbrs (Predecessors F)) f i (Successors N))
                       (redirectIf (x ∈ nbrs (Successors F)) f i (Predecessors N))
                       (Size N) (InterferingInfo N)) <$> H !! x.

Lemma mergeStep_spec (i : nat) (From : NodePtr) (TS TS' : LayoutTypeSystem) :
  mergeStep i From TS = Done TS' →
  ∃ f F I C r,
    From = Some f ∧ f ≠ i ∧
    Layouts TS !! f = Some F ∧ Layouts TS !! i = Some I ∧
    join i f (EqClasses TS) = Done (C, r) ∧
    (Size I = 0 ∨ Size F ≤ Size I)%N ∧
    NID TS' = NID TS ∧ LinkTags TS' = LinkTags TS ∧ EqClasses TS' = C ∧
    mergedHeap f i F I (Layouts TS) (Layouts TS').
Proof.
  unfold mergeStep. intros Hrun. osplit Hrun.
  destruct v2 as [C r]. osplit Hrun.
  apply revng_assert_Done, bool_decide_eq_true in E.
  apply deref_Done in E0 as ->. rename v0 into f.
  apply load_Done in E1.
  apply fixPredSucc_lookup in E3
    as (Hne & F & I & F' & HF & HI & Hl1 & Hl2 & HF' & HszF & HI' & Hoth).
  apply modify_Done in E4 as (I1 & HI1 & ->).
  apply load_Done in E5. apply load_Done in E6.
  rewrite lookup_insert_eq in E5. injection E5 as <-.
  rewrite lookup_insert_ne in E6 by done.
  rewrite HF' in E6. injection E6 as <-.
  rewrite HI' in HI1. injection HI1 as <-. simpl in *.
  apply revng_assert_Done in E7.
  apply modify_Done in E8 as (I2 & HI2 & ->).
  rewrite lookup_insert_eq in HI2. injection HI2 as <-.
  injection Hrun as <-. simpl.
  exists f, F, I, C, r. split_and!; try done.
  - apply orb_true_iff in E7 as [Hz | Hle].
    + left. by apply N.eqb_eq.
    + right. apply N.leb_le in Hle. by rewrite <- HszF.
  - split_and!.
    + apply lookup_delete_eq.
    + rewrite lookup_delete_ne by done. rewrite insert_insert_eq, lookup_insert_eq.
      unfold setSize, setInterferingInfo. simpl. by rewrite HszF.
    + intros x Hxi Hxf. rewrite lookup_delete_ne by done.
      rewrite !lookup_insert_ne by done. by apply Hoth.
Qed.

(** ** Invariants of the adjacency sets *)

(** The edges with tag [T] as the successor sets and as the predecessor sets
    of the allocated nodes have them. *)
Definition hasSucc (T : TypeLinkTag) (H : Heap) (a b : nat) : Prop :=
  ∃ A, H !! a = Some A ∧ (b, T) ∈ Successors A.
Definition hasPred (T : TypeLinkTag) (H : Heap) (a b : nat) : Prop :=
  ∃ A, H !! a = Some A ∧ (b, T) ∈ Predecessors A.

(** The entries that carry the tag [T] are mirrored. *)
Definition mirroredOn (T : TypeLinkTag) (H : Heap) : Prop :=
  ∀ a b, (hasSucc T H a b → hasPred T H b a) ∧ (hasPred T H a b → hasSucc T H b a).

(** The edges that carry the tag [T] come in both directions. *)
Definition symmetricOn (T : TypeLinkTag) (H : Heap) : Prop :=
  ∀ a b, hasSucc T H a b → hasSucc T H b a.

Definition selfFree (H : Heap) : Prop :=
  ∀ T a, ¬ hasSucc T H a a ∧ ¬ hasPred T H a a.

Lemma mirrored_iff (TS : LayoutTypeSystem) :
  mirrored TS ↔ ∀ T, mirroredOn T (Layouts TS).
Proof.
  unfold mirrored, mirroredOn, hasSucc, hasPred, live, succs, preds. split.
  - intros Hm T a b. split; intros (A & HA & Hin).
    + destruct (Hm a b T) as [H1 _]; [by eexists|]. rewrite HA in H1.
      destruct (H1 Hin) as [[B HB] HinB]. rewrite HB in HinB. by exists B.
    + destruct (Hm a b T) as [_ H2]; [by eexists|]. rewrite HA in H2.
      destruct (H2 Hin) as [[B HB] HinB]. rewrite HB in HinB. by exists B.
  - intros Hm a b T [A HA]. rewrite HA. simpl.
    destruct (Hm T a b) as [H1 H2]. split; intros Hin.
    + destruct H1 as (B & HB & HinB); [by exists A|].
      rewrite HB. simpl. split; [by eexists|done].
    + destruct H2 as (B & HB & HinB); [by exists A|].
      rewrite HB. simpl. split; [by eexists|done].
Qed.

Lemma noSelfEdges_iff (TS : LayoutTypeSystem) :
  noSelfEdges TS ↔ selfFree (Layouts TS).
Proof.
  unfold noSelfEdges, selfFree, hasSucc, hasPred, live, succs, preds. split.
  - intros Hn T a. split; intros (A & HA & Hin);
      (destruct (Hn a T) as [H1 H2]; [by eexists|]); rewrite HA in H1, H2; done.
  - intros Hn a T [A HA]. rewrite HA. simpl. destruct (Hn T a) as [H1 H2].
    split; intros Hin; [apply H1 | apply H2]; by exists A.
Qed.

(** *** Merging *)

Lemma mergedHeap_edges_weak (T : TypeLinkTag) (f i : nat)
    (F I : LayoutTypeSystemNode) (H H' : Heap) :
  f ≠ i → H !! f = Some F → H !! i = Some I → mergedHeap f i F I H H' →
  ∀ a b,
    (hasSucc T H' a b → a ≠ f ∧
       ((a = i ∧ b ≠ i ∧ b ≠ f ∧ (hasSucc T H i b ∨ hasSucc T H f b)) ∨
        (a ≠ i ∧ (hasSucc T H a b ∨ (b = i ∧ hasSucc T H a f))))) ∧
    (hasPred T H' a b → a ≠ f ∧
       ((a = i ∧ b ≠ i ∧ b ≠ f ∧ (hasPred T H i b ∨ hasPred T H f b)) ∨
        (a ≠ i ∧ (hasPred T H a b ∨ (b = i ∧ hasPred T H a f))))).
Proof.
  intros Hne HF HI (Hf' & Hi' & Hoth) a b.
  assert (Haf : ∀ A', H' !! a = Some A' → a ≠ f) by (intros A' HA' ->; congruence).
  split; intros (A' & HA' & Hin); (split; [by eapply Haf|]);
    (destruct (decide (a = i)) as [-> | Hai];
     [ left; rewrite Hi' in HA'; injection HA' as <-; simpl in Hin;
       unfold hasSucc, hasPred; set_unfold in Hin; naive_solver
     | right; split; [done|];
       rewrite Hoth in HA' by eauto;
       destruct (H !! a) as [A|] eqn:HA; [|done]; injection HA' as <-;
       simpl in Hin; unfold redirectIf in Hin; unfold hasSucc, hasPred;
       case_decide; set_unfold in Hin; naive_solver ]).
Qed.

Lemma mergedHeap_edges (T : TypeLinkTag) (f i : nat)
    (F I : LayoutTypeSystemNode) (H H' : Heap) :
  f ≠ i → H !! f = Some F → H !! i = Some I → mergedHeap f i F I H H' →
  mirroredOn T H →
  ∀ a b,
    (hasSucc T H' a b ↔ a ≠ f ∧ b ≠ f ∧
       ((a = i ∧ b ≠ i ∧ (hasSucc T H i b ∨ hasSucc T H f b)) ∨
        (a ≠ i ∧ (hasSucc T H a b ∨ (b = i ∧ hasSucc T H a f))))) ∧
    (hasPred T H' a b ↔ a ≠ f ∧ b ≠ f ∧
       ((a = i ∧ b ≠ i ∧ (hasPred T H i b ∨ hasPred T H f b)) ∨
        (a ≠ i ∧ (hasPred T H a b ∨ (b = i ∧ hasPred T H a f))))).
Proof.
  intros Hne HF HI Hmerged Hm a b.
  pose proof (mergedHeap_edges_weak T f i F I H H' Hne HF HI Hmerged a b) as [Hw1 Hw2].
  destruct Hmerged as (Hf' & Hi' & Hoth).
  (* an entry of [f] at [a] is known to [f] *)
  assert (Hs : ∀ a A, H !! a = Some A → (f, T) ∈ Successors A →
                      a ∈ nbrs (Predecessors F)).
  { intros c C HC Hin. destruct (Hm c f) as [Hm1 _].
    destruct Hm1 as (F0 & HF0 & Hin0); [by exists C|].
    rewrite HF in HF0. injection HF0 as <-. apply elem_of_nbrs. by exists T. }
  assert (Hp : ∀ a A, H !! a = Some A → (f, T) ∈ Predecessors A →
                      a ∈ nbrs (Successors F)).
  { intros c C HC Hin. destruct (Hm c f) as [_ Hm2].
    destruct Hm2 as (F0 & HF0 & Hin0); [by exists C|].
    rewrite HF in HF0. injection HF0 as <-. apply elem_of_nbrs. by exists T. }
  split; split.
  - intros HS'. destruct (Hw1 HS') as [Haf Hc]. split; [done|].
    destruct Hc as [(-> & Hbi & Hbf & Hc) | (Hai & [Hc | [-> Hc]])].
    + split; [done|]. left. done.
    + destruct (decide (b = f)) as [-> | Hbf].
      * (* the entry of [f] at [a] has been redirected *)
        exfalso. destruct HS' as (A' & HA' & Hin). destruct Hc as (A & HA & HinA).
        rewrite Hoth, HA in HA' by done. injection HA' as <-. simpl in Hin.
        unfold redirectIf in Hin. rewrite decide_True in Hin by eauto.
        set_unfold in Hin. naive_solver.
      * split; [done|]. right. split; [done|]. by left.
    + split; [done|]. right. split; [done|]. right. done.
  - intros (Haf & Hbf & [(-> & Hbi & Hc) | (Hai & Hc)]).
    + eexists. split; [exact Hi'|]. simpl. unfold hasSucc in Hc. set_unfold.
      split_and!; try done.
      destruct Hc as [(I0 & HI0 & Hin) | (F0 & HF0 & Hin)]; [left | right]; congruence.
    + assert (∃ A, H !! a = Some A) as [A HA].
      { destruct Hc as [(A & HA & _) | [_ (A & HA & _)]]; by exists A. }
      eexists. split; [rewrite Hoth, HA by done; done|]. simpl.
      unfold redirectIf. destruct Hc as [(A0 & HA0 & Hin) | [-> (A0 & HA0 & Hin)]];
        rewrite HA in HA0; injection HA0 as <-.
      * case_decide; [|done]. set_unfold. by left.
      * rewrite decide_True by eauto. set_unfold. by right.
  - intros HP'. destruct (Hw2 HP') as [Haf Hc]. split; [done|].
    destruct Hc as [(-> & Hbi & Hbf & Hc) | (Hai & [Hc | [-> Hc]])].
    + split; [done|]. left. done.
    + destruct (decide (b = f)) as [-> | Hbf].
      * exfalso. destruct HP' as (A' & HA' & Hin). destruct Hc as (A & HA & HinA).
        rewrite Hoth, HA in HA' by done. injection HA' as <-. simpl in Hin.
        unfold redirectIf in Hin. rewrite decide_True in Hin by eauto.
        set_unfold in Hin. naive_solver.
      * split; [done|]. right. split; [done|]. by left.
    + split; [done|]. right. split; [done|]. right. done.
  - intros (Haf & Hbf & [(-> & Hbi & Hc) | (Hai & Hc)]).
    + eexists. split; [exact Hi'|]. simpl. unfold hasPred in Hc. set_unfold.
      split_and!; try done.
      destruct Hc as [(I0 & HI0 & Hin) | (F0 & HF0 & Hin)]; [left | right]; congruence.
    + assert (∃ A, H !! a = Some A) as [A HA].
      { destruct Hc as [(A & HA & _) | [_ (A & HA & _)]]; by exists A. }
      eexists. split; [rewrite Hoth, HA by done; done|]. simpl.
      unfold redirectIf. destruct Hc as [(A0 & HA0 & Hin) | [-> (A0 & HA0 & Hin)]];
        rewrite HA in HA0; injection HA0 as <-.
      * case_decide; [|done]. set_unfold. by left.
      * rewrite decide_True by eauto. set_unfold. by right.
Qed.

Lemma mergeStep_mirroredOn (T : TypeLinkTag) (i : nat) (From : NodePtr)
    (TS TS' : LayoutTypeSystem) :
  mergeStep i From TS = Done TS' →
  mirroredOn T (Layouts TS) → mirroredOn T (Layouts TS').
Proof.
  intros Hrun Hm.
  apply mergeStep_spec in Hrun
    as (f & F & I & C & r & -> & Hne & HF & HI & _ & _ & _ & _ & _ & Hmerged).
  pose proof (mergedHeap_edges T f i F I _ _ Hne HF HI Hmerged Hm) as He.
  intros a b. destruct (He a b) as [HS HP]. destruct (He b a) as [HS2 HP2].
  rewrite HS, HP, HS2, HP2. clear He HS HP HS2 HP2 Hmerged.
  pose proof (Hm a b) as [? ?]. pose proof (Hm i b) as [? ?].
  pose proof (Hm f b) as [? ?]. pose proof (Hm a f) as [? ?].
  pose proof (Hm a i) as [? ?].
  split; intros (Haf & Hbf & Hc); (split; [done|]); (split; [done|]).
  - destruct Hc as [(-> & Hbi & [Hc | Hc]) | (Hai & [Hc | [-> Hc]])].
    + right. split; [done|]. left. auto.
    + right. split; [done|]. right. split; [done|]. auto.
    + destruct (decide (b = i)) as [-> | Hbi].
      * left. split_and!; try done. left. auto.
      * right. split; [done|]. left. auto.
    + left. split_and!; try done. right. auto.
  - destruct Hc as [(-> & Hbi & [Hc | Hc]) | (Hai & [Hc | [-> Hc]])].
    + right. split; [done|]. left. auto.
    + right. split; [done|]. right. split; [done|]. auto.
    + destruct (decide (b = i)) as [-> | Hbi].
      * left. split_and!; try done. left. auto.
      * right. split; [done|]. left. auto.
    + left. split_and!; try done. right. auto.
Qed.

Lemma mergeStep_symmetricOn (T : TypeLinkTag) (i : nat) (From : NodePtr)
    (TS TS' : LayoutTypeSystem) :
  mergeStep i From TS = Done TS' →
  mirroredOn T (Layouts TS) → symmetricOn T (Layouts TS) →
  symmetricOn T (Layouts TS').
Proof.
  intros Hrun Hm Hsym.
  apply mergeStep_spec in Hrun
    as (f & F & I & C & r & -> & Hne & HF & HI & _ & _ & _ & _ & _ & Hmerged).
  pose proof (mergedHeap_edges T f i F I _ _ Hne HF HI Hmerged Hm) as He.
  intros a b. destruct (He a b) as [HS _]. destruct (He b a) as [HS2 _].
  rewrite HS, HS2. clear He HS HS2 Hmerged.
  pose proof (Hsym a b). pose proof (Hsym i b). pose proof (Hsym f b).
  pose proof (Hsym a f). pose proof (Hsym a i).
  intros (Haf & Hbf & Hc). split; [done|]. split; [done|].
  destruct Hc as [(-> & Hbi & [Hc | Hc]) | (Hai & [Hc | [-> Hc]])].
  - right. split; [done|]. left. auto.
  - right. split; [done|]. right. split; [done|]. auto.
  - destruct (decide (b = i)) as [-> | Hbi].
    + left. split_and!; try done. left. auto.
    + right. split; [done|]. left. auto.
  - left. split_and!; try done. right. auto.
Qed.

Lemma mergeStep_selfFree (i : nat) (From : NodePtr) (TS TS' : LayoutTypeSystem) :
  mergeStep i From TS = Done TS' →
  selfFree (Layouts TS) → selfFree (Layouts TS').
Proof.
  intros Hrun Hsf.
  apply mergeStep_spec in Hrun
    as (f & F & I & C & r & -> & Hne & HF & HI & _ & _ & _ & _ & _ & Hmerged).
  intros T a.
  destruct (mergedHeap_edges_weak T f i F I _ _ Hne HF HI Hmerged a a) as [HS HP].
  destruct (Hsf T a) as [Hs Hp]. split; intros Hc.
  - apply HS in Hc. naive_solver.
  - apply HP in Hc. naive_solver.
Qed.

(** *** Removing a node *)

Definition eraseIf (c : Prop) `{Decision c} (r : nat) (S : gset Link) : gset Link :=
  if decide c then eraseEntriesOf r S else S.

(** The heap [H'] is [H] without [r]: the entries of [r] are erased in the
    nodes that [r] has as neighbours. *)
Definition removedHeap (r : nat) (R : LayoutTypeSystemNode) (H H' : Heap) : Prop :=
  H' !! r = None ∧
  ∀ x, x ≠ r →
    H' !! x =
      (fun N => mkNode (eraseIf (x ∈ nbrs (Predecessors R)) r (Successors N))
                       (eraseIf (x ∈ nbrs (Successors R)) r (Predecessors N))
                       (Size N) (InterferingInfo N)) <$> H !! x.

Lemma removeNode_spec (P : NodePtr) (TS TS' : LayoutTypeSystem) :
  removeNode P TS = Done TS' →
  ∃ r R C,
    P = Some r ∧ Layouts TS !! r = Some R ∧
    remove r (EqClasses TS) = Done C ∧
    NID TS' = NID TS ∧ LinkTags TS' = LinkTags TS ∧ EqClasses TS' = C ∧
    removedHeap r R (Layouts TS) (Layouts TS').
Proof.
  unfold removeNode. intros Hrun. osplit Hrun.
  apply deref_Done in E as ->. rename v into r.
  apply load_Done in E0. rename v0 into R. rename v1 into C.
  assert (Hid1 : ∀ n, setPredecessors (eraseEntriesOf r) (setPredecessors (eraseEntriesOf r) n)
                      = setPredecessors (eraseEntriesOf r) n).
  { intros n. unfold setPredecessors. simpl. by rewrite eraseEntriesOf_idem. }
  assert (Hid2 : ∀ n, setSuccessors (eraseEntriesOf r) (setSuccessors (eraseEntriesOf r) n)
                      = setSuccessors (eraseEntriesOf r) n).
  { intros n. unfold setSuccessors. simpl. by rewrite eraseEntriesOf_idem. }
  destruct (forEach_neighbours_lookup _ _ _ _ Hid1 E2) as [Hlive1 Hlook1].
  apply load_Done in E3. rename v3 into R1.
  destruct (forEach_neighbours_lookup _ _ _ _ Hid2 E4) as [Hlive2 Hlook2].
  injection Hrun as <-. simpl.
  exists r, R, C. split_and!; try done.
  split; [apply lookup_delete_eq|].
  intros x Hx. rewrite lookup_delete_ne by done. rewrite Hlook2, Hlook1.
  assert (HR1 : Predecessors R1 =
                eraseIf (r ∈ nbrs (Successors R)) r (Predecessors R)).
  { rewrite Hlook1, E0 in E3. unfold eraseIf.
    case_decide; simpl in E3; by injection E3 as <-. }
  assert (Hiff : x ∈ nbrs (Predecessors R1) ↔ x ∈ nbrs (Predecessors R)).
  { rewrite HR1. unfold eraseIf. case_decide; [|done]. set_unfold. naive_solver. }
  unfold eraseIf.
  destruct (Layouts TS !! x) as [[]|]; repeat case_decide; try done; tauto.
Qed.

Lemma removedHeap_edges_weak (T : TypeLinkTag) (r : nat) (R : LayoutTypeSystemNode)
    (H H' : Heap) :
  removedHeap r R H H' →
  ∀ a b, (hasSucc T H' a b → a ≠ r ∧ hasSucc T H a b) ∧
         (hasPred T H' a b → a ≠ r ∧ hasPred T H a b).
Proof.
  intros [Hr' Hoth] a b.
  assert (Har : ∀ A', H' !! a = Some A' → a ≠ r) by (intros A' HA' ->; congruence).
  split; intros (A' & HA' & Hin); (split; [by eapply Har|]);
    rewrite Hoth in HA' by eauto;
    (destruct (H !! a) as [A|] eqn:HA; [|done]); injection HA' as <-;
    simpl in Hin; unfold eraseIf in Hin; exists A; (split; [done|]);
    case_decide; set_unfold in Hin; naive_solver.
Qed.

(** The entries with tag [T] that name [r] are known to [r]. *)
Definition mirroredAt (T : TypeLinkTag) (r : nat) (H : Heap) : Prop :=
  ∀ c, (hasSucc T H c r → hasPred T H r c) ∧ (hasPred T H c r → hasSucc T H r c).

Lemma mirroredOn_mirroredAt (T : TypeLinkTag) (r : nat) (H : Heap) :
  mirroredOn T H → mirroredAt T r H.
Proof. intros Hm c. apply Hm. Qed.

Lemma removedHeap_edges (T : TypeLinkTag) (r : nat) (R : LayoutTypeSystemNode)
    (H H' : Heap) :
  H !! r = Some R → removedHeap r R H H' → mirroredAt T r H →
  ∀ a b, (hasSucc T H' a b ↔ a ≠ r ∧ b ≠ r ∧ hasSucc T H a b) ∧
         (hasPred T H' a b ↔ a ≠ r ∧ b ≠ r ∧ hasPred T H a b).
Proof.
  intros HR Hrem Hm a b.
  pose proof (removedHeap_edges_weak T r R H H' Hrem a b) as [Hw1 Hw2].
  destruct Hrem as [Hr' Hoth].
  assert (Hs : ∀ a A, H !! a = Some A → (r, T) ∈ Successors A →
                      a ∈ nbrs (Predecessors R)).
  { intros c C HC Hin. destruct (Hm c) as [Hm1 _].
    destruct Hm1 as (R0 & HR0 & Hin0); [by exists C|].
    rewrite HR in HR0. injection HR0 as <-. apply elem_of_nbrs. by exists T. }
  assert (Hp : ∀ a A, H !! a = Some A → (r, T) ∈ Predecessors A →
                      a ∈ nbrs (Successors R)).
  { intros c C HC Hin. destruct (Hm c) as [_ Hm2].
    destruct Hm2 as (R0 & HR0 & Hin0); [by exists C|].
    rewrite HR in HR0. injection HR0 as <-. apply elem_of_nbrs. by exists T. }
  split; split.
  - intros HS'. destruct (Hw1 HS') as [Har Hc]. split_and!; try done.
    intros ->. destruct HS' as (A' & HA' & Hin). destruct Hc as (A & HA & HinA).
    rewrite Hoth, HA in HA' by done. injection HA' as <-. simpl in Hin.
    unfold eraseIf in Hin. rewrite decide_True in Hin by eauto.
    set_unfold in Hin. naive_solver.
  - intros (Har & Hbr & A & HA & Hin). eexists.
    split; [rewrite Hoth, HA by done; done|]. simpl.
    unfold eraseIf. case_decide; [|done]. set_unfold. done.
  - intros HP'. destruct (Hw2 HP') as [Har Hc]. split_and!; try done.
    intros ->. destruct HP' as (A' & HA' & Hin). destruct Hc as (A & HA & HinA).
    rewrite Hoth, HA in HA' by done. injection HA' as <-. simpl in Hin.
    unfold eraseIf in Hin. rewrite decide_True in Hin by eauto.
    set_unfold in Hin. naive_solver.
  - intros (Har & Hbr & A & HA & Hin). eexists.
    split; [rewrite Hoth, HA by done; done|]. simpl.
    unfold eraseIf. case_decide; [|done]. set_unfold. done.
Qed.

Lemma removeNode_mirroredOn (T : TypeLinkTag) (P : NodePtr) (TS TS' : LayoutTypeSystem) :
  removeNode P TS = Done TS' →
  mirroredOn T (Layouts TS) → mirroredOn T (Layouts TS').
Proof.
  intros Hrun Hm.
  apply removeNode_spec in Hrun as (r & R & C & -> & HR & _ & _ & _ & _ & Hrem).
  pose proof (removedHeap_edges T r R _ _ HR Hrem (mirroredOn_mirroredAt _ _ _ Hm)) as He.
  intros a b. destruct (He a b) as [HS HP]. destruct (He b a) as [HS2 HP2].
  rewrite HS, HP, HS2, HP2. pose proof (Hm a b) as [? ?]. naive_solver.
Qed.

Lemma removeNode_symmetricOn (T : TypeLinkTag) (P : NodePtr) (TS TS' : LayoutTypeSystem) :
  removeNode P TS = Done TS' →
  mirroredOn T (Layouts TS) → symmetricOn T (Layouts TS) →
  symmetricOn T (Layouts TS').
Proof.
  intros Hrun Hm Hsym.
  apply removeNode_spec in Hrun as (r & R & C & -> & HR & _ & _ & _ & _ & Hrem).
  pose proof (removedHeap_edges T r R _ _ HR Hrem (mirroredOn_mirroredAt _ _ _ Hm)) as He.
  intros a b. destruct (He a b) as [HS _]. destruct (He b a) as [HS2 _].
  rewrite HS, HS2. pose proof (Hsym a b). naive_solver.
Qed.

Lemma removeNode_selfFree (P : NodePtr) (TS TS' : LayoutTypeSystem) :
  removeNode P TS = Done TS' →
  selfFree (Layouts TS) → selfFree (Layouts TS').
Proof.
  intros Hrun Hsf.
  apply removeNode_spec in Hrun as (r & R & C & -> & HR & _ & _ & _ & _ & Hrem).
  intros T a. destruct (removedHeap_edges_weak T r R _ _ Hrem a a) as [HS HP].
  destruct (Hsf T a). naive_solver.
Qed.

(** *** Writes to one node *)

Lemma hasSucc_insert_succ (T : TypeLinkTag) (H : Heap) (p : nat)
    (P : LayoutTypeSystemNode) (g : gset Link → gset Link) (a b : nat) :
  H !! p = Some P →
  hasSucc T (<[p := setSuccessors g P]> H) a b ↔
    (a = p ∧ (b, T) ∈ g (Successors P)) ∨ (a ≠ p ∧ hasSucc T H a b).
Proof.
  intros HP. unfold hasSucc. split.
  - intros (A & HA & Hin). rewrite lookup_insert in HA. case_decide.
    + injection HA as <-. left. by subst.
    + right. split; [done|]. by exists A.
  - intros [[-> Hin] | [Hne (A & HA & Hin)]].
    + eexists. rewrite lookup_insert_eq. done.
    + exists A. by rewrite lookup_insert_ne.
Qed.

Lemma hasPred_insert_succ (T : TypeLinkTag) (H : Heap) (p : nat)
    (P : LayoutTypeSystemNode) (g : gset Link → gset Link) (a b : nat) :
  H !! p = Some P →
  hasPred T (<[p := setSuccessors g P]> H) a b ↔ hasPred T H a b.
Proof.
  intros HP. unfold hasPred. split.
  - intros (A & HA & Hin). rewrite lookup_insert in HA. case_decide.
    + injection HA as <-. subst. by exists P.
    + by exists A.
  - intros (A & HA & Hin). destruct (decide (p = a)) as [-> | Hne].
    + eexists. rewrite lookup_insert_eq. split; [done|]. simpl. congruence.
    + exists A. by rewrite lookup_insert_ne.
Qed.

Lemma hasPred_insert_pred (T : TypeLinkTag) (H : Heap) (p : nat)
    (P : LayoutTypeSystemNode) (g : gset Link → gset Link) (a b : nat) :
  H !! p = Some P →
  hasPred T (<[p := setPredecessors g P]> H) a b ↔
    (a = p ∧ (b, T) ∈ g (Predecessors P)) ∨ (a ≠ p ∧ hasPred T H a b).
Proof.
  intros HP. unfold hasPred. split.
  - intros (A & HA & Hin). rewrite lookup_insert in HA. case_decide.
    + injection HA as <-. left. by subst.
    + right. split; [done|]. by exists A.
  - intros [[-> Hin] | [Hne (A & HA & Hin)]].
    + eexists. rewrite lookup_insert_eq. done.
    + exists A. by rewrite lookup_insert_ne.
Qed.

Lemma hasSucc_insert_pred (T : TypeLinkTag) (H : Heap) (p : nat)
    (P : LayoutTypeSystemNode) (g : gset Link → gset Link) (a b : nat) :
  H !! p = Some P →
  hasSucc T (<[p := setPredecessors g P]> H) a b ↔ hasSucc T H a b.
Proof.
  intros HP. unfold hasSucc. split.
  - intros (A & HA & Hin). rewrite lookup_insert in HA. case_decide.
    + injection HA as <-. subst. by exists P.
    + by exists A.
  - intros (A & HA & Hin). destruct (decide (p = a)) as [-> | Hne].
    + eexists. rewrite lookup_insert_eq. split; [done|]. simpl. congruence.
    + exists A. by rewrite lookup_insert_ne.
Qed.

(** A write that leaves both neighbour sets of the node as they are. *)
Lemma edges_insert_same (T : TypeLinkTag) (H : Heap) (p : nat)
    (P P' : LayoutTypeSystemNode) (a b : nat) :
  H !! p = Some P →
  Successors P' = Successors P → Predecessors P' = Predecessors P →
  (hasSucc T (<[p := P']> H) a b ↔ hasSucc T H a b) ∧
  (hasPred T (<[p := P']> H) a b ↔ hasPred T H a b).
Proof.
  intros HP Hs Hp. unfold hasSucc, hasPred. split; split.
  - intros (A & HA & Hin). rewrite lookup_insert in HA. case_decide.
    + injection HA as <-. subst. exists P. by rewrite <- Hs.
    + by exists A.
  - intros (A & HA & Hin). destruct (decide (p = a)) as [-> | Hne].
    + eexists. rewrite lookup_insert_eq. split; [done|]. rewrite Hs. congruence.
    + exists A. by rewrite lookup_insert_ne.
  - intros (A & HA & Hin). rewrite lookup_insert in HA. case_decide.
    + injection HA as <-. subst. exists P. by rewrite <- Hp.
    + by exists A.
  - intros (A & HA & Hin). destruct (decide (p = a)) as [-> | Hne].
    + eexists. rewrite lookup_insert_eq. split; [done|]. rewrite Hp. congruence.
    + exists A. by rewrite lookup_insert_ne.
Qed.

(** A node that is allocated without neighbours. *)
Lemma edges_insert_new (T : TypeLinkTag) (H : Heap) (p : nat) (a b : nat) :
  H !! p = None →
  (hasSucc T (<[p := newNode]> H) a b ↔ hasSucc T H a b) ∧
  (hasPred T (<[p := newNode]> H) a b ↔ hasPred T H a b).
Proof.
  intros HP. unfold hasSucc, hasPred. split; split.
  - intros (A & HA & Hin). rewrite lookup_insert in HA. case_decide.
    + injection HA as <-. simpl in Hin. by apply not_elem_of_empty in Hin.
    + by exists A.
  - intros (A & HA & Hin). exists A. rewrite lookup_insert_ne; [done|]. congruence.
  - intros (A & HA & Hin). rewrite lookup_insert in HA. case_decide.
    + injection HA as <-. simpl in Hin. by apply not_elem_of_empty in Hin.
    + by exists A.
  - intros (A & HA & Hin). exists A. rewrite lookup_insert_ne; [done|]. congruence.
Qed.

(** *** Adding a link *)

Lemma addLink_spec (Src Tgt : NodePtr) (Tag : TypeLinkTag) (TS TS' : LayoutTypeSystem)
    (res : option TypeLinkTag * bool) :
  addLink Src Tgt Tag TS = Done (TS', res) →
  (TS' = TS ∧ res = (None, false) ∧
   (Src = None ∨ Tgt = None ∨ Src = Tgt)) ∨
  (∃ src tgt S Tn,
     Src = Some src ∧ Tgt = Some tgt ∧ src ≠ tgt ∧
     Layouts TS !! src = Some S ∧ Layouts TS !! tgt = Some Tn ∧
     NID TS' = NID TS ∧ EqClasses TS' = EqClasses TS ∧
     LinkTags TS' = {[Tag]} ∪ LinkTags TS ∧
     Layouts TS' =
       <[tgt := setPredecessors (fun X => {[(src, Tag)]} ∪ X) Tn]>
         (<[src := setSuccessors (fun X => {[(tgt, Tag)]} ∪ X) S]> (Layouts TS)) ∧
     res = (Some Tag, bool_decide ((tgt, Tag) ∉ Successors S)
                      || bool_decide ((src, Tag) ∉ Predecessors Tn))).
Proof.
  unfold addLink. intros Hrun.
  destruct Src as [src|]; [|left; injection Hrun as <- <-; auto].
  destruct Tgt as [tgt|]; [|left; injection Hrun as <- <-; auto].
  case_bool_decide as Heq; [left; injection Hrun as <- <-; subst; auto|].
  right. osplit Hrun.
  apply load_Done in E1. rename v1 into S.
  apply modify_Done in E2 as (S0 & HS0 & ->).
  rewrite E1 in HS0. injection HS0 as <-.
  apply load_Done in E3. rename v3 into Tn'.
  apply modify_Done in E4 as (Tn & HTn & ->).
  rewrite HTn in E3. injection E3 as <-.
  rewrite lookup_insert_ne in HTn by done.
  injection Hrun as <- <-. simpl.
  exists src, tgt, S, Tn. split_and!; done.
Qed.

Lemma addLink_edges (T : TypeLinkTag) (Src Tgt : NodePtr) (Tag : TypeLinkTag)
    (TS TS' : LayoutTypeSystem) (res : option TypeLinkTag * bool) :
  addLink Src Tgt Tag TS = Done (TS', res) →
  ∀ a b,
    (hasSucc T (Layouts TS') a b ↔
       hasSucc T (Layouts TS) a b ∨
       (T = Tag ∧ Src = Some a ∧ Tgt = Some b ∧ a ≠ b)) ∧
    (hasPred T (Layouts TS') a b ↔
       hasPred T (Layouts TS) a b ∨
       (T = Tag ∧ Tgt = Some a ∧ Src = Some b ∧ a ≠ b)).
Proof.
  intros Hrun. apply addLink_spec in Hrun
    as [(-> & _ & Hno) |
        (src & tgt & S & Tn & -> & -> & Hne & HS & HTn & _ & _ & _ & -> & _)].
  - intros a b. split; (split; [by left|]); intros [? | (_ & -> & -> & ?)];
      try done; naive_solver.
  - intros a b.
    assert (HTn' : <[src := setSuccessors (fun X => {[(tgt, Tag)]} ∪ X) S]> (Layouts TS)
                     !! tgt = Some Tn) by (by rewrite lookup_insert_ne).
    split.
    + rewrite (hasSucc_insert_pred _ _ _ _ _ _ _ HTn').
      rewrite (hasSucc_insert_succ _ _ _ _ _ _ _ HS).
      unfold hasSucc at 2. set_unfold. split.
      * intros [[-> [Heq | Hin]] | [Ha Hs]].
        -- injection Heq as -> ->. right. done.
        -- left. by exists S.
        -- by left.
      * intros [(A & HA & Hin) | (-> & [= ->] & [= ->] & _)].
        -- destruct (decide (a = src)) as [-> | Ha].
           ++ left. split; [done|]. right. congruence.
           ++ right. split; [done|]. by exists A.
        -- left. split; [done|]. by left.
    + rewrite (hasPred_insert_pred _ _ _ _ _ _ _ HTn').
      rewrite (hasPred_insert_succ _ _ _ _ _ _ _ HS).
      unfold hasPred at 2. set_unfold. split.
      * intros [[-> [Heq | Hin]] | [Ha Hs]].
        -- injection Heq as -> ->. right. naive_solver.
        -- left. by exists Tn.
        -- by left.
      * intros [(A & HA & Hin) | (-> & [= ->] & [= ->] & _)].
        -- destruct (decide (a = tgt)) as [-> | Ha].
           ++ left. split; [done|]. right. congruence.
           ++ right. split; [done|]. by exists A.
        -- left. split; [done|]. by left.
Qed.

(** *** Moving an edge *)

Lemma moveEdgeWithoutSumming_edges (o n : nat) (e : Link) (H H' : Heap) :
  moveEdgeWithoutSumming o n e H = Done H' →
  hasSucc e.2 H o e.1 ∧ hasPred e.2 H e.1 o ∧ is_Some (H !! n) ∧
  ∀ T a b,
    (hasSucc T H' a b ↔
       (hasSucc T H a b ∧ ¬ (a = o ∧ (b, T) = e)) ∨ (a = n ∧ (b, T) = e)) ∧
    (hasPred T H' a b ↔
       (hasPred T H a b ∧ ¬ (a = e.1 ∧ (b, T) = (o, e.2))) ∨
       (a = e.1 ∧ (b, T) = (n, e.2))).
Proof.
  unfold moveEdgeWithoutSumming. intros Hrun. osplit Hrun.
  apply load_Done in E. rename v into O.
  apply defined_Done, bool_decide_eq_true in E0.
  apply modify_Done in E1 as (O' & HO' & ->).
  rewrite E in HO'. injection HO' as <-.
  clear v2 E2 E3.
  apply modify_Done in E4 as (N1 & HN1 & ->).
  apply load_Done in E5. rename v5 into T2.
  apply revng_assert_Done, bool_decide_eq_true in E6.
  apply modify_Done in Hrun as (T2' & HT2' & ->).
  rewrite E5 in HT2'. injection HT2' as <-.
  destruct e as [tgt Te]. simpl in *.
  assert (HP : ∀ a b T, hasPred T (<[n:=setSuccessors (fun S => {[(tgt, Te)]} ∪ S) N1]>
               (<[o:=setSuccessors (fun S => S ∖ {[(tgt, Te)]}) O]> H)) a b
               ↔ hasPred T H a b).
  { intros a b T. rewrite (hasPred_insert_succ _ _ _ _ _ _ _ HN1).
    by rewrite (hasPred_insert_succ _ _ _ _ _ _ _ E). }
  split_and!.
  - by exists O.
  - apply HP. by exists T2.
  - rewrite lookup_insert in HN1. case_decide; [subst; by eexists | by eexists].
  - intros T a b. split.
    + rewrite (hasSucc_insert_pred _ _ _ _ _ _ _ E5).
      rewrite (hasSucc_insert_succ _ _ _ _ _ _ _ HN1).
      rewrite (hasSucc_insert_succ _ _ _ _ _ _ _ E).
      rewrite lookup_insert in HN1. unfold hasSucc. set_unfold.
      destruct (decide ((b, T) = (tgt, Te))) as [Hbe | Hbe];
        destruct (decide (a = o)) as [Hao | Hao];
        destruct (decide (a = n)) as [Han | Han];
        case_decide as Hon; try injection HN1 as <-; simpl; set_unfold;
        naive_solver.
    + rewrite (hasPred_insert_pred _ _ _ _ _ _ _ E5). rewrite HP.
      assert (HT2 : hasPred Te H tgt o) by (apply HP; by exists T2).
      assert (Heq : ∀ b T, (b, T) ∈ Predecessors T2 ↔ hasPred T H tgt b).
      { intros b' T'. rewrite <- HP. split.
        - intros Hin. by exists T2.
        - intros (X & HX & Hin).
          by assert (Some T2 = Some X) as [= <-] by exact (eq_trans (eq_sym E5) HX). }
      set_unfold. setoid_rewrite Heq.
      destruct (decide ((b, T) = (o, Te))) as [Hbe | Hbe];
        destruct (decide (a = tgt)) as [Hat | Hat]; naive_solver.
Qed.

(** The tag that [moveEdge] gives the new link when the offset to sum is
    not zero; there is none for an edge that cannot be rebased. *)
Definition rebasedTag (EdgeTag : TypeLinkTag) (OffsetToSum : Z) : option TypeLinkTag :=
  match getKind EdgeTag with
  | LK_Inheritance =>
      Some (if (0 <? OffsetToSum)%Z then instanceTag (OffsetExpression_of OffsetToSum)
            else inheritanceTag)
  | LK_Instance =>
      Some (instanceTag (mkOE (Offset (OE EdgeTag) + OffsetToSum)
                              (Strides (OE EdgeTag)) (TripCounts (OE EdgeTag))))
  | _ => None
  end.

Lemma moveEdge_summing_edges (o n : nat) (e : Link) (d : Z)
    (TS TS' : LayoutTypeSystem) :
  d ≠ 0%Z →
  moveEdge (Some o) (Some n) e d TS = Done TS' →
  ∃ T', rebasedTag e.2 d = Some T' ∧
    hasSucc e.2 (Layouts TS) o e.1 ∧
    ∀ T a b,
      (hasSucc T (Layouts TS') a b ↔
         (hasSucc T (Layouts TS) a b ∧ ¬ (a = o ∧ (b, T) = e)) ∨
         (n ≠ e.1 ∧ a = n ∧ b = e.1 ∧ T = T')) ∧
      (hasPred T (Layouts TS') a b ↔
         (hasPred T (Layouts TS) a b ∨ (n ≠ e.1 ∧ a = e.1 ∧ b = n ∧ T = T')) ∧
         ¬ (a = e.1 ∧ (b, T) = (o, e.2))).
Proof.
  intros Hd. unfold moveEdge. rewrite (proj2 (Z.eqb_neq d 0) Hd).
  intros Hrun. osplit Hrun. destruct v2 as [TS2 res]. osplit Hrun.
  apply load_Done in E. rename v into O.
  apply defined_Done, bool_decide_eq_true in E0.
  apply modify_Done in E1 as (O' & HO' & ->).
  rewrite E in HO'. injection HO' as <-.
  apply modify_Done in E3 as (T3 & HT3 & ->).
  injection Hrun as <-. simpl.
  destruct e as [tgt Te]. cbn [fst snd] in *.
  (* the link that is added *)
  assert (∃ T', rebasedTag Te d = Some T' ∧
                addLink (Some n) (Some tgt) T'
                  (setLayouts (<[o:=setSuccessors (fun S => S ∖ {[(tgt, Te)]}) O]> (Layouts TS)) TS)
                = Done (TS2, res)) as (T' & HT' & Hadd).
  { unfold rebasedTag. destruct (getKind Te) eqn:HK; try done.
    - eexists. split; [done|]. unfold addInstanceLink, addInheritanceLink in E2.
      by destruct (0 <? d)%Z.
    - osplit E2. unfold getOffsetExpr in E1. rewrite HK in E1.
      injection E1 as <-. eexists. split; [done|]. exact E2. }
  exists T'. split; [done|]. split; [by exists O|].
  intros T a b.
  destruct (addLink_edges T _ _ _ _ _ _ Hadd a b) as [HS HP]. simpl in HS, HP.
  destruct (addLink_edges T _ _ _ _ _ _ Hadd tgt b) as [_ HP']. simpl in HP'.
  split.
  - rewrite (hasSucc_insert_pred _ _ _ _ _ _ _ HT3), HS.
    rewrite (hasSucc_insert_succ _ _ _ _ _ _ _ E).
    unfold hasSucc. set_unfold. clear -E.
    destruct (decide (a = o)) as [Hao | Hao];
      destruct (decide ((b, T) = (tgt, Te))) as [Hbe | Hbe];
      destruct (decide (n = tgt)) as [Hnt | Hnt]; naive_solver.
  - rewrite (hasPred_insert_pred _ _ _ _ _ _ _ HT3).
    assert (Heq : ∀ b T, (b, T) ∈ Predecessors T3 ↔ hasPred T (Layouts TS2) tgt b).
    { intros b' T0. split.
      - intros Hin. by exists T3.
      - intros (X & HX & Hin).
        by assert (Some T3 = Some X) as [= <-] by exact (eq_trans (eq_sym HT3) HX). }
    clear Hadd. set_unfold. setoid_rewrite Heq.
    rewrite HP, HP'.
    rewrite !(hasPred_insert_succ _ _ _ _ _ _ _ E). clear.
    destruct (decide (a = tgt)) as [Hat | Hat];
      destruct (decide ((b, T) = (o, Te))) as [Hbe | Hbe];
      destruct (decide (n = tgt)) as [Hnt | Hnt]; naive_solver.
Qed.

Lemma rebasedTag_kind (Te T' : TypeLinkTag) (d : Z) :
  rebasedTag Te d = Some T' →
  (getKind Te = LK_Inheritance ∨ getKind Te = LK_Instance) ∧
  (getKind T' = LK_Inheritance ∨ getKind T' = LK_Instance).
Proof.
  unfold rebasedTag. destruct (getKind Te) eqn:HK; try done; intros [= <-].
  - split; [by left|]. destruct (0 <? d)%Z; [by right | by left].
  - split; by right.
Qed.

Lemma rebasedTag_same (Te : TypeLinkTag) (d : Z) :
  d ≠ 0%Z → rebasedTag Te d = Some Te → Te = inheritanceTag ∧ (d < 0)%Z.
Proof.
  unfold rebasedTag. intros Hd. destruct Te as [[k s t] K]. simpl.
  destruct K; try done.
  - destruct (Z.ltb_spec 0 d); [done|]. intros [= <- <- <-]. split; [done|]. lia.
  - intros [= Hk]. lia.
Qed.

(** The call of [moveEdge] that loses the predecessor entry: the edge
    stays at its source and keeps its tag, which the path for a nonzero
    offset does to an inheritance edge under a negative offset. *)
Definition movesOntoItself (OldSrc NewSrc : NodePtr) (e : Link) (d : Z) : Prop :=
  ∃ o, OldSrc = Some o ∧ NewSrc = Some o ∧ o ≠ e.1 ∧
       e.2 = inheritanceTag ∧ (d < 0)%Z.

Lemma moveEdge_mirroredOn (T : TypeLinkTag) (OldSrc NewSrc : NodePtr) (e : Link)
    (d : Z) (TS TS' : LayoutTypeSystem) :
  moveEdge OldSrc NewSrc e d TS = Done TS' →
  ¬ (movesOntoItself OldSrc NewSrc e d ∧ T = inheritanceTag) →
  mirroredOn T (Layouts TS) → mirroredOn T (Layouts TS').
Proof.
  intros Hrun Hok Hm.
  destruct OldSrc as [o|]; [|by injection Hrun as <-].
  destruct NewSrc as [n|]; [|by injection Hrun as <-].
  destruct (decide (d = 0%Z)) as [-> | Hd].
  - unfold moveEdge in Hrun. simpl in Hrun. osplit Hrun. injection Hrun as <-.
    apply moveEdgeWithoutSumming_edges in E as (HS0 & HP0 & Hn & He).
    simpl. intros a b. destruct (He T a b) as [HS HP]. destruct (He T b a) as [HS2 HP2].
    rewrite HS, HP, HS2, HP2. clear He HS HP HS2 HP2.
    pose proof (Hm a b) as [? ?]. destruct e as [tgt Te]. simpl in *.
    split.
    + intros [[Hs Hne] | [-> [= -> ->]]]; [|right; done].
      left. split; [auto|]. intros [-> [= -> ->]]. apply Hne. done.
    + intros [[Hp Hne] | [-> [= -> ->]]]; [|right; done].
      left. split; [auto|]. intros [-> [= -> ->]]. apply Hne. done.
  - apply moveEdge_summing_edges in Hrun as (T' & HT' & HS0 & He); [|done].
    intros a b. destruct (He T a b) as [HS HP]. destruct (He T b a) as [HS2 HP2].
    rewrite HS, HP, HS2, HP2. clear He HS HP HS2 HP2.
    pose proof (Hm a b) as [? ?]. destruct e as [tgt Te]. simpl in *.
    assert (Hdeg : ¬ (n = o ∧ T' = Te ∧ n ≠ tgt ∧ T = Te)).
    { intros (-> & -> & Hne & ->). apply Hok.
      destruct (rebasedTag_same _ _ Hd HT') as [-> Hlt].
      split; [|done]. exists o. split_and!; done. }
    split.
    + intros [[Hs Hne] | (Hnt & -> & -> & ->)].
      * split; [left; auto|]. intros [-> [= -> ->]]. apply Hne. done.
      * split; [right; done|]. intros [_ [= -> ->]]. apply Hdeg. done.
    + intros [[Hp | (Hnt & -> & -> & ->)] Hne].
      * left. split; [auto|]. intros [-> [= -> ->]]. apply Hne. done.
      * right. done.
Qed.

Lemma moveEdge_selfFree (OldSrc NewSrc : NodePtr) (e : Link)
    (d : Z) (TS TS' : LayoutTypeSystem) :
  moveEdge OldSrc NewSrc e d TS = Done TS' →
  ¬ (d = 0%Z ∧ NewSrc = Some e.1 ∧ OldSrc ≠ None) →
  selfFree (Layouts TS) → selfFree (Layouts TS').
Proof.
  intros Hrun Hok Hsf.
  destruct OldSrc as [o|]; [|by injection Hrun as <-].
  destruct NewSrc as [n|]; [|by injection Hrun as <-].
  destruct (decide (d = 0%Z)) as [-> | Hd].
  - unfold moveEdge in Hrun. simpl in Hrun. osplit Hrun. injection Hrun as <-.
    apply moveEdgeWithoutSumming_edges in E as (HS0 & HP0 & Hn & He).
    simpl. intros T a. destruct (He T a a) as [HS HP]. rewrite HS, HP.
    destruct (Hsf T a). destruct e as [tgt Te]. simpl in *.
    split.
    + intros [[Hs _] | [-> [= -> ->]]]; [done|]. apply Hok. done.
    + intros [[Hp _] | [-> [= -> ->]]]; [done|]. apply Hok. done.
  - apply moveEdge_summing_edges in Hrun as (T' & HT' & HS0 & He); [|done].
    intros T a. destruct (He T a a) as [HS HP]. rewrite HS, HP.
    destruct (Hsf T a). destruct e as [tgt Te]. simpl in *. naive_solver.
Qed.

Lemma moveEdge_symmetricOn_equality (OldSrc NewSrc : NodePtr) (e : Link)
    (d : Z) (TS TS' : LayoutTypeSystem) :
  moveEdge OldSrc NewSrc e d TS = Done TS' →
  (e.2 = equalityTag → OldSrc = NewSrc ∨ OldSrc = None ∨ NewSrc = None) →
  symmetricOn equalityTag (Layouts TS) → symmetricOn equalityTag (Layouts TS').
Proof.
  intros Hrun Hok Hsym.
  destruct OldSrc as [o|]; [|by injection Hrun as <-].
  destruct NewSrc as [n|]; [|by injection Hrun as <-].
  destruct (decide (d = 0%Z)) as [-> | Hd].
  - unfold moveEdge in Hrun. simpl in Hrun. osplit Hrun. injection Hrun as <-.
    apply moveEdgeWithoutSumming_edges in E as (HS0 & HP0 & Hn & He).
    simpl. intros a b. destruct (He equalityTag a b) as [HS _].
    destruct (He equalityTag b a) as [HS2 _]. rewrite HS, HS2. clear He HS HS2.
    pose proof (Hsym a b). destruct e as [tgt Te]. simpl in *.
    destruct (decide (Te = equalityTag)) as [-> | HTe].
    + destruct Hok as [[= ->] | [? | ?]]; try done.
      (* the edge comes back to the source it was taken from *)
      assert (Hback : ∀ x y, hasSucc equalityTag (Layouts TS) x y →
                (hasSucc equalityTag (Layouts TS) x y ∧
                   ¬ (x = n ∧ (y, equalityTag) = (tgt, equalityTag))) ∨
                (x = n ∧ (y, equalityTag) = (tgt, equalityTag))).
      { intros x y Hxy. destruct (decide (x = n ∧ y = tgt)) as [[-> ->] | Hno].
        - by right.
        - left. split; [done|]. intros [-> [= ->]]. by apply Hno. }
      intros [[Hs _] | [-> [= ->]]].
      * apply Hback. auto.
      * apply Hback. apply Hsym. done.
    + intros [[Hs _] | [_ Heq]]; [|injection Heq as _ Heq'; congruence].
      left. split; [auto|]. intros [_ Heq]. injection Heq as _ Heq'. congruence.
  - apply moveEdge_summing_edges in Hrun as (T' & HT' & HS0 & He); [|done].
    destruct (rebasedTag_kind _ _ _ HT') as [HK HK'].
    intros a b. destruct (He equalityTag a b) as [HS _].
    destruct (He equalityTag b a) as [HS2 _]. rewrite HS, HS2. clear He HS HS2.
    pose proof (Hsym a b). destruct e as [tgt Te]. simpl in *.
    intros [[Hs _] | (_ & _ & _ & <-)].
    + left. split; [auto|]. intros [_ Heq]. injection Heq as _ <-.
      by destruct HK.
    + by destruct HK'.
Qed.

(** *** Every call *)

Lemma addLink_mirroredOn (T : TypeLinkTag) (Src Tgt : NodePtr) (Tag : TypeLinkTag)
    (TS TS' : LayoutTypeSystem) (res : option TypeLinkTag * bool) :
  addLink Src Tgt Tag TS = Done (TS', res) →
  mirroredOn T (Layouts TS) → mirroredOn T (Layouts TS').
Proof.
  intros Hrun Hm a b. pose proof (addLink_edges T _ _ _ _ _ _ Hrun) as He.
  destruct (He a b) as [HS HP]. destruct (He b a) as [HS2 HP2].
  rewrite HS, HP, HS2, HP2. pose proof (Hm a b) as [? ?]. naive_solver.
Qed.

Lemma addLink_selfFree (Src Tgt : NodePtr) (Tag : TypeLinkTag)
    (TS TS' : LayoutTypeSystem) (res : option TypeLinkTag * bool) :
  addLink Src Tgt Tag TS = Done (TS', res) →
  selfFree (Layouts TS) → selfFree (Layouts TS').
Proof.
  intros Hrun Hsf T a. destruct (addLink_edges T _ _ _ _ _ _ Hrun a a) as [HS HP].
  rewrite HS, HP. destruct (Hsf T a). naive_solver.
Qed.

Lemma addLink_symmetricOn (T : TypeLinkTag) (Src Tgt : NodePtr) (Tag : TypeLinkTag)
    (TS TS' : LayoutTypeSystem) (res : option TypeLinkTag * bool) :
  addLink Src Tgt Tag TS = Done (TS', res) → Tag ≠ T →
  symmetricOn T (Layouts TS) → symmetricOn T (Layouts TS').
Proof.
  intros Hrun Hne Hsym a b. pose proof (addLink_edges T _ _ _ _ _ _ Hrun) as He.
  destruct (He a b) as [HS _]. destruct (He b a) as [HS2 _].
  rewrite HS, HS2. pose proof (Hsym a b). naive_solver.
Qed.

Lemma addEqualityLink_symmetricOn (T : TypeLinkTag) (Src Tgt : NodePtr)
    (TS TS' : LayoutTypeSystem) (res : option TypeLinkTag * bool) :
  addEqualityLink Src Tgt TS = Done (TS', res) →
  symmetricOn T (Layouts TS) → symmetricOn T (Layouts TS').
Proof.
  unfold addEqualityLink. intros Hrun Hsym. osplit Hrun.
  destruct v as [TS1 Fwd]. osplit Hrun. destruct v as [TS2 Bwd]. osplit Hrun.
  injection Hrun as <- <-. intros a b.
  pose proof (addLink_edges T _ _ _ _ _ _ E) as He1.
  pose proof (addLink_edges T _ _ _ _ _ _ E0) as He2.
  destruct (He2 a b) as [HS _]. destruct (He2 b a) as [HS2 _].
  destruct (He1 a b) as [HS1 _]. destruct (He1 b a) as [HS12 _].
  rewrite HS, HS2, HS1, HS12. pose proof (Hsym a b). naive_solver.
Qed.

Lemma forEach_preserves {A S : Type} (P : S → Prop) (l : list A)
    (body : A → S → outcome S) (s s' : S) :
  (∀ x t t', body x t = Done t' → P t → P t') →
  forEach l body s = Done s' → P s → P s'.
Proof.
  intros Hbody. revert s. induction l as [|x l IH]; intros s Hrun Hs; simpl in Hrun.
  - by injection Hrun as <-.
  - apply obind_Done in Hrun as (t & Hx & Hrun).
    apply (IH t); [done|]. by apply (Hbody x s t).
Qed.

(** The writes to the fields of a node and the creation of a node leave
    the edges as they are. *)
Lemma setField_edges (P : NodePtr) (f : LayoutTypeSystemNode → LayoutTypeSystemNode)
    (TS TS' : LayoutTypeSystem) (T : TypeLinkTag) (a b : nat) :
  (∀ n, Successors (f n) = Successors n) →
  (∀ n, Predecessors (f n) = Predecessors n) →
  setField P f TS = Done TS' →
  (hasSucc T (Layouts TS') a b ↔ hasSucc T (Layouts TS) a b) ∧
  (hasPred T (Layouts TS') a b ↔ hasPred T (Layouts TS) a b).
Proof.
  intros Hs Hp. unfold setField. intros Hrun. osplit Hrun.
  apply modify_Done in E0 as (n & Hn & ->). injection Hrun as <-. simpl.
  by apply (edges_insert_same T _ _ n).
Qed.

Lemma create_edges (TS TS' : LayoutTypeSystem) (New : nat) (T : TypeLinkTag) (a b : nat) :
  createArtificialLayoutType TS = Done (TS', New) →
  (hasSucc T (Layouts TS') a b ↔ hasSucc T (Layouts TS) a b) ∧
  (hasPred T (Layouts TS') a b ↔ hasPred T (Layouts TS) a b).
Proof.
  unfold createArtificialLayoutType. intros Hrun. osplit Hrun.
  destruct v0 as [C r]. osplit Hrun.
  apply revng_assert_Done, bool_decide_eq_true in E1.
  injection Hrun as <- <-. simpl. by apply edges_insert_new.
Qed.

Lemma sameEdges_mirroredOn (T : TypeLinkTag) (H H' : Heap) :
  (∀ a b, (hasSucc T H' a b ↔ hasSucc T H a b) ∧
          (hasPred T H' a b ↔ hasPred T H a b)) →
  mirroredOn T H → mirroredOn T H'.
Proof.
  intros He Hm a b. destruct (He a b) as [HS HP]. destruct (He b a) as [HS2 HP2].
  rewrite HS, HP, HS2, HP2. apply Hm.
Qed.

Lemma sameEdges_symmetricOn (T : TypeLinkTag) (H H' : Heap) :
  (∀ a b, (hasSucc T H' a b ↔ hasSucc T H a b) ∧
          (hasPred T H' a b ↔ hasPred T H a b)) →
  symmetricOn T H → symmetricOn T H'.
Proof.
  intros He Hm a b. destruct (He a b) as [HS _]. destruct (He b a) as [HS2 _].
  rewrite HS, HS2. apply Hm.
Qed.

Lemma sameEdges_selfFree (H H' : Heap) :
  (∀ T a b, (hasSucc T H' a b ↔ hasSucc T H a b) ∧
            (hasPred T H' a b ↔ hasPred T H a b)) →
  selfFree H → selfFree H'.
Proof.
  intros He Hm T a. destruct (He T a a) as [HS HP]. rewrite HS, HP. apply Hm.
Qed.

Lemma run_mirroredOn (T : TypeLinkTag) (o : Op) (TS TS' : LayoutTypeSystem) :
  run o TS = Done TS' →
  match o with
  | OpMoveEdge OldSrc NewSrc e d =>
      ¬ (movesOntoItself OldSrc NewSrc e d ∧ T = inheritanceTag)
  | _ => True
  end →
  mirroredOn T (Layouts TS) → mirroredOn T (Layouts TS').
Proof.
  intros Hrun Hok Hm. destruct o; simpl in Hrun.
  - unfold fstO in Hrun. osplit Hrun. destruct v as [TS1 New]. injection Hrun as <-.
    eapply sameEdges_mirroredOn; [|done]. intros a b. by eapply create_edges.
  - eapply sameEdges_mirroredOn; [|done]. intros a b.
    by eapply (setField_edges P (setSize s)).
  - eapply sameEdges_mirroredOn; [|done]. intros a b.
    by eapply (setField_edges P (setInterferingInfo i)).
  - unfold fstO, addEqualityLink in Hrun. osplit Hrun. destruct v as [TS2 r].
    osplit E. destruct v as [TS1 Fwd]. osplit E. destruct v as [TS3 Bwd]. osplit E.
    injection E as <- <-. injection Hrun as <-.
    eapply addLink_mirroredOn; [done|]. by eapply addLink_mirroredOn.
  - unfold fstO in Hrun. osplit Hrun. destruct v as [TS1 r]. injection Hrun as <-.
    by eapply addLink_mirroredOn.
  - unfold fstO in Hrun. osplit Hrun. destruct v as [TS1 r]. injection Hrun as <-.
    by eapply addLink_mirroredOn.
  - unfold fstO in Hrun. osplit Hrun. destruct v as [TS1 r]. injection Hrun as <-.
    by eapply addLink_mirroredOn.
  - unfold mergeNodes in Hrun. osplit Hrun. destruct ToMerge as [|Into Rest]; [done|].
    osplit Hrun.
    eapply (forEach_preserves (fun TS => mirroredOn T (Layouts TS))); [|done|done].
    intros x t t' Hx. by eapply mergeStep_mirroredOn.
  - by eapply removeNode_mirroredOn.
  - by eapply moveEdge_mirroredOn.
  - osplit Hrun. by injection Hrun as <-.
Qed.

Lemma run_selfFree (o : Op) (TS TS' : LayoutTypeSystem) :
  run o TS = Done TS' →
  match o with
  | OpMoveEdge OldSrc NewSrc e d => ¬ (d = 0%Z ∧ NewSrc = Some e.1 ∧ OldSrc ≠ None)
  | _ => True
  end →
  selfFree (Layouts TS) → selfFree (Layouts TS').
Proof.
  intros Hrun Hok Hm. destruct o; simpl in Hrun.
  - unfold fstO in Hrun. osplit Hrun. destruct v as [TS1 New]. injection Hrun as <-.
    eapply sameEdges_selfFree; [|done]. intros T a b. by eapply create_edges.
  - eapply sameEdges_selfFree; [|done]. intros T a b.
    by eapply (setField_edges P (setSize s)).
  - eapply sameEdges_selfFree; [|done]. intros T a b.
    by eapply (setField_edges P (setInterferingInfo i)).
  - unfold fstO, addEqualityLink in Hrun. osplit Hrun. destruct v as [TS2 r].
    osplit E. destruct v as [TS1 Fwd]. osplit E. destruct v as [TS3 Bwd]. osplit E.
    injection E as <- <-. injection Hrun as <-.
    eapply addLink_selfFree; [done|]. by eapply addLink_selfFree.
  - unfold fstO in Hrun. osplit Hrun. destruct v as [TS1 r]. injection Hrun as <-.
    by eapply addLink_selfFree.
  - unfold fstO in Hrun. osplit Hrun. destruct v as [TS1 r]. injection Hrun as <-.
    by eapply addLink_selfFree.
  - unfold fstO in Hrun. osplit Hrun. destruct v as [TS1 r]. injection Hrun as <-.
    by eapply addLink_selfFree.
  - unfold mergeNodes in Hrun. osplit Hrun. destruct ToMerge as [|Into Rest]; [done|].
    osplit Hrun.
    eapply (forEach_preserves (fun TS => selfFree (Layouts TS))); [|done|done].
    intros x t t' Hx. by eapply mergeStep_selfFree.
  - by eapply removeNode_selfFree.
  - by eapply moveEdge_selfFree.
  - osplit Hrun. by injection Hrun as <-.
Qed.

(** The equality edges: mirrored and in both directions. *)
Definition equalityPaired (H : Heap) : Prop :=
  mirroredOn equalityTag H ∧ symmetricOn equalityTag H.

Lemma run_equalityPaired (o : Op) (TS TS' : LayoutTypeSystem) :
  run o TS = Done TS' →
  match o with
  | OpMoveEdge OldSrc NewSrc e d =>
      e.2 = equalityTag → OldSrc = NewSrc ∨ OldSrc = None ∨ NewSrc = None
  | _ => True
  end →
  equalityPaired (Layouts TS) → equalityPaired (Layouts TS').
Proof.
  intros Hrun Hok [Hm Hsym].
  split; [eapply run_mirroredOn; [done| |done]; by destruct o; try done; intros [_ ?]|].
  destruct o; simpl in Hrun.
  - unfold fstO in Hrun. osplit Hrun. destruct v as [TS1 New]. injection Hrun as <-.
    eapply sameEdges_symmetricOn; [|done]. intros a b. by eapply create_edges.
  - eapply sameEdges_symmetricOn; [|done]. intros a b.
    by eapply (setField_edges P (setSize s)).
  - eapply sameEdges_symmetricOn; [|done]. intros a b.
    by eapply (setField_edges P (setInterferingInfo i)).
  - unfold fstO in Hrun. osplit Hrun. destruct v as [TS2 r]. injection Hrun as <-.
    by eapply addEqualityLink_symmetricOn.
  - unfold fstO in Hrun. osplit Hrun. destruct v as [TS1 r]. injection Hrun as <-.
    by eapply addLink_symmetricOn.
  - unfold fstO in Hrun. osplit Hrun. destruct v as [TS1 r]. injection Hrun as <-.
    by eapply addLink_symmetricOn.
  - unfold fstO in Hrun. osplit Hrun. destruct v as [TS1 r]. injection Hrun as <-.
    by eapply addLink_symmetricOn.
  - unfold mergeNodes in Hrun. osplit Hrun. destruct ToMerge as [|Into Rest]; [done|].
    osplit Hrun.
    eapply (forEach_preserves (fun TS => equalityPaired (Layouts TS))); [|done|done].
    intros x t t' Hx [Hm' Hsym']. split.
    + by eapply mergeStep_mirroredOn.
    + by eapply mergeStep_symmetricOn.
  - by eapply removeNode_symmetricOn.
  - by eapply moveEdge_symmetricOn_equality.
  - osplit Hrun. by injection Hrun as <-.
Qed.

(** ** The size assertion of [mergeNodes] *)

(** C1, amended: in a step of [mergeNodes] that merges [From] into [Into]
    (the classes are joined and [fixPredSucc] has run), the implementation
    asserts that the previous [Into.Size] is zero or no less than
    [From.Size], that is [From.Size <= Into.Size], and then sets
    [Into.Size] to the maximum of the two; when the assertion does not hold
    the step is fatal. *)
Theorem mergeStep_size_assertion (i f : nat) (TS : LayoutTypeSystem)
    (I F : LayoutTypeSystemNode) (C : VectEqClasses) (r : nat) (H1 : Heap) :
  Layouts TS !! i = Some I →
  Layouts TS !! f = Some F →
  join i f (EqClasses TS) = Done (C, r) →
  fixPredSucc f i (Layouts TS) = Done H1 →
  if decide (Size I = 0 ∨ Size F ≤ Size I)%N
  then ∃ TS', mergeStep i (Some f) TS = Done TS' ∧
              sizeOf i TS' = Some (N.max (Size I) (Size F))
  else mergeStep i (Some f) TS = Fatal.
Proof.
  intros HI HF Hjoin Hfix.
  destruct (fixPredSucc_lookup _ _ _ _ Hfix)
    as (Hne & F0 & I0 & F' & HF0 & HI0 & _ & _ & HF' & HszF & HI' & _).
  rewrite HF in HF0. injection HF0 as <-. rewrite HI in HI0. injection HI0 as <-.
  unfold mergeStep.
  rewrite bool_decide_eq_true_2 by congruence. cbn [revng_assert obind deref].
  rewrite (load_Some _ _ _ HF), Hjoin, Hfix. cbn [obind].
  rewrite (modify_Some _ _ _ _ HI'). cbn [obind].
  rewrite (load_Some _ i _ (lookup_insert_eq _ _ _)). cbn [obind].
  erewrite (load_Some _ f); [|by rewrite lookup_insert_ne]. cbn [obind].
  change (Size (setInterferingInfo Unknown ?n)) with (Size n). cbn [Size].
  rewrite HszF.
  case_decide as Hcond.
  - assert (Hb : (Size I =? 0)%N || (Size F <=? Size I)%N = true).
    { apply orb_true_iff. destruct Hcond as [Hz | Hle].
      - left. by apply N.eqb_eq.
      - right. by apply N.leb_le. }
    rewrite Hb. cbn [revng_assert obind].
    rewrite (modify_Some _ _ _ _ (lookup_insert_eq _ _ _)). cbn [obind].
    rewrite bool_decide_eq_true_2.
    2: { rewrite lookup_insert_ne by done. rewrite lookup_insert_ne by done.
         by eexists. }
    cbn [revng_assert obind]. eexists. split; [done|].
    unfold sizeOf. cbn [Layouts]. rewrite lookup_delete_ne by done.
    by rewrite lookup_insert_eq.
  - assert (Hb : (Size I =? 0)%N || (Size F <=? Size I)%N = false).
    { apply orb_false_iff. split.
      - apply N.eqb_neq. tauto.
      - apply N.leb_gt. lia. }
    by rewrite Hb.
Qed.

(** Two nodes without edges, node 0 of Size [a] and node 1 of Size [b]. *)
Definition sizedPair (a b : N) : LayoutTypeSystem :=
  stateAfter [OpCreate; OpCreate; OpSetSize (Some 0) a; OpSetSize (Some 1) b].

Lemma mergeStep_size_assertion_witness :
  ∃ TS', mergeStep 0 (Some 1) (sizedPair 8 4) = Done TS' ∧
         sizeOf 0 TS' = Some (N.max 8 4).
Proof.
  pose proof (mergeStep_size_assertion 0 1 (sizedPair 8 4)
                (mkNode ∅ ∅ 8 Unknown) (mkNode ∅ ∅ 4 Unknown)
                (mkVEC [0; 0] 0 None 2) 0 (Layouts (sizedPair 8 4))) as W.
  apply W; vm_compute; reflexivity.
Defined.

(** C1 fails as stated: with [Into.Size] = 4 and [From.Size] = 8 the
    previous [Into.Size] is no greater than [From.Size], and the step is
    fatal; with [Into.Size] = 8 and [From.Size] = 4 it is neither zero nor
    no greater than [From.Size], and the step returns. *)
Lemma mergeStep_size_assertion_direction :
  sizeOf 0 (sizedPair 4 8) = Some 4%N ∧ sizeOf 1 (sizedPair 4 8) = Some 8%N ∧
  mergeStep 0 (Some 1) (sizedPair 4 8) = Fatal ∧
  sizeOf 0 (sizedPair 8 4) = Some 8%N ∧ sizeOf 1 (sizedPair 8 4) = Some 4%N ∧
  mergeStep 0 (Some 1) (sizedPair 8 4) ≠ Fatal.
Proof. by_evaluation. Qed.

(** ** Null arguments of [moveEdge] *)

(** C7, as the code has it: [moveEdge] called with a null [OldSrc] or a
    null [NewSrc] returns at once and leaves the graph as it was; nothing
    is asserted. *)
Theorem moveEdge_null_is_noop (P : NodePtr) (EdgeIt : Link) (OffsetToSum : Z)
    (TS : LayoutTypeSystem) :
  moveEdge None P EdgeIt OffsetToSum TS = Done TS ∧
  moveEdge P None EdgeIt OffsetToSum TS = Done TS.
Proof. split; [done | by destruct P]. Qed.

Definition twoLinkedNodes : LayoutTypeSystem :=
  stateAfter [OpCreate; OpCreate; OpAddInheritanceLink (Some 0) (Some 1)].

(** C7 fails as stated: on a graph with an inheritance edge from node 0 to
    node 1, [moveEdge] with a null [NewSrc] (or a null [OldSrc]) is not
    fatal, it returns with the graph unchanged. *)
Lemma moveEdge_null_not_fatal :
  moveEdge (Some 0) None (1, inheritanceTag) 8 twoLinkedNodes ≠ Fatal ∧
  moveEdge None (Some 1) (1, inheritanceTag) 8 twoLinkedNodes ≠ Fatal ∧
  moveEdge (Some 0) None (1, inheritanceTag) 8 twoLinkedNodes = Done twoLinkedNodes.
Proof. by_evaluation. Qed.

(** ** The merge scenario *)

Definition instance0 : TypeLinkTag := instanceTag (OffsetExpression_of 0).

(** Nodes A = 0 (Size 4), B = 1 (Size 8) and C = 2, with an instance link at
    offset 0 from A to C and from B to C. *)
Definition mergeScenario : list Op :=
  [OpCreate; OpCreate; OpCreate;
   OpSetSize (Some 0) 4; OpSetSize (Some 1) 8;
   OpAddInstanceLink (Some 0) (Some 2) (OffsetExpression_of 0);
   OpAddInstanceLink (Some 1) (Some 2) (OffsetExpression_of 0)].

(** C2 fails as stated: [mergeNodes([A, B])] trips the size assertion,
    since [Into] = A has Size 4, which is neither 0 nor at least the
    Size 8 of [From] = B. *)
Lemma mergeScenario_A_B_fatal :
  runAll (mergeScenario ++ [OpMergeNodes [Some 0; Some 1]]) emptyTS = Fatal.
Proof. by_evaluation. Qed.

(** C2, amended: with the same graph, [mergeNodes([B, A])] leaves B as the
    surviving node with Size 8 and one edge, the instance edge at offset 0
    to C; the predecessors of C are that one edge from B; A is gone. *)
Theorem mergeScenario_B_A :
  let TS := stateAfter (mergeScenario ++ [OpMergeNodes [Some 1; Some 0]]) in
  runAll (mergeScenario ++ [OpMergeNodes [Some 1; Some 0]]) emptyTS = Done TS ∧
  sizeOf 1 TS = Some 8%N ∧
  succs 1 TS = {[ (2, instance0) ]} ∧
  size (succs 1 TS) = 1 ∧
  preds 2 TS = {[ (1, instance0) ]} ∧
  Layouts TS !! 0 = None.
Proof. by_evaluation. Qed.

(** ** Leaves *)

(** What [verifyLeafs] looks for: a live node without a successor edge other
    than pointer edges, and of Size 0. *)
Definition sizelessLeaf (TS : LayoutTypeSystem) : Prop :=
  ∃ p N, Layouts TS !! p = Some N ∧
         (∀ b T, (b, T) ∈ Successors N → getKind T = LK_Pointer) ∧
         Size N = 0%N.

Lemma isLeaf_All_spec (N : LayoutTypeSystemNode) :
  isLeaf LK_All N = true ↔ ∀ b T, (b, T) ∈ Successors N → getKind T = LK_Pointer.
Proof.
  unfold isLeaf. rewrite forallb_forall. split.
  - intros HN b T Hin.
    specialize (HN (b, T)). rewrite <- list_elem_of_In, elem_of_elements in HN.
    specialize (HN Hin). simpl in HN.
    rewrite negb_involutive in HN. by apply bool_decide_eq_true in HN.
  - intros HN [b T] Hin. rewrite <- list_elem_of_In, elem_of_elements in Hin.
    simpl. rewrite negb_involutive. apply bool_decide_eq_true. eauto.
Qed.

Lemma verifyLeafs_loop_spec (strict : bool) (nodes : list (nat * LayoutTypeSystemNode)) :
  let bad := ∃ p N, (p, N) ∈ nodes ∧ isLeaf LK_All N = true ∧ Size N = 0%N in
  (bad ∧ verifyLeafs_loop strict nodes = if strict then Fatal else Done false) ∨
  (¬ bad ∧ verifyLeafs_loop strict nodes = Done true).
Proof.
  induction nodes as [|[p N] rest IH]; simpl.
  - right. split; [|done]. intros (p & N & Hin & _). by apply elem_of_nil in Hin.
  - destruct (isLeaf LK_All N) eqn:Hleaf; simpl.
    + destruct (N.eqb_spec (Size N) 0) as [Hz|Hnz].
      * left. split; [|by destruct strict].
        exists p, N. split; [apply elem_of_cons; by left | done].
      * destruct IH as [[(q & M & Hin & HM) Hrun] | [Hno Hrun]].
        -- left. split; [|done]. exists q, M. split; [|done].
           apply elem_of_cons. by right.
        -- right. split; [|done]. intros (q & M & Hin & HM1 & HM2).
           apply elem_of_cons in Hin as [Heq | Hin].
           ++ inversion Heq; subst. done.
           ++ apply Hno. by exists q, M.
    + destruct IH as [[(q & M & Hin & HM) Hrun] | [Hno Hrun]].
      * left. split; [|done]. exists q, M. split; [|done].
        apply elem_of_cons. by right.
      * right. split; [|done]. intros (q & M & Hin & HM1 & HM2).
        apply elem_of_cons in Hin as [Heq | Hin].
        -- inversion Heq; subst. congruence.
        -- apply Hno. by exists q, M.
Qed.

Lemma verifyLeafs_cases (strict : bool) (TS : LayoutTypeSystem) :
  (sizelessLeaf TS ∧ verifyLeafs strict TS = if strict then Fatal else Done false) ∨
  (¬ sizelessLeaf TS ∧ verifyLeafs strict TS = Done true).
Proof.
  unfold verifyLeafs, sizelessLeaf.
  destruct (verifyLeafs_loop_spec strict (map_to_list (Layouts TS)))
    as [[(p & N & Hin & Hleaf & Hsz) Hrun] | [Hno Hrun]].
  - left. split; [|done]. exists p, N.
    apply elem_of_map_to_list in Hin. by rewrite <- isLeaf_All_spec.
  - right. split; [|done]. intros (p & N & Hin & Hleaf & Hsz). apply Hno.
    exists p, N. rewrite elem_of_map_to_list. by rewrite isLeaf_All_spec.
Qed.

(** C6, amended: [verifyLeafs] returns false exactly when some node without
    outgoing Equality, Inheritance or Instance edges, with or without
    outgoing Pointer edges, has Size 0, and returns true otherwise; when the
    strict-verification logger is enabled it aborts in place of returning
    false. *)
Theorem verifyLeafs_spec (TS : LayoutTypeSystem) :
  (verifyLeafs false TS = Done false ↔ sizelessLeaf TS) ∧
  (verifyLeafs true TS = Fatal ↔ sizelessLeaf TS) ∧
  (∀ strict, verifyLeafs strict TS = Done true ↔ ¬ sizelessLeaf TS).
Proof.
  split; [|split; [|intros strict]].
  - destruct (verifyLeafs_cases false TS) as [[Hb Hr] | [Hb Hr]]; rewrite Hr;
      split; try done.
  - destruct (verifyLeafs_cases true TS) as [[Hb Hr] | [Hb Hr]]; rewrite Hr;
      split; try done.
  - destruct (verifyLeafs_cases strict TS) as [[Hb Hr] | [Hb Hr]]; rewrite Hr;
      split; try done; by destruct strict.
Qed.

(** Node 0 has Size 0 and one outgoing edge, a pointer edge to node 1, which
    has Size 8. *)
Definition pointerOnlyNode : LayoutTypeSystem :=
  stateAfter [OpCreate; OpCreate; OpSetSize (Some 1) 8;
              OpAddPointerLink (Some 0) (Some 1)].

(** C6 fails as stated: in [pointerOnlyNode] the only node without outgoing
    edges has Size 8, and the node of Size 0 has an outgoing edge (a pointer
    edge, its only one); yet [verifyLeafs] returns false. *)
Lemma verifyLeafs_pointer_only_fails :
  succs 0 pointerOnlyNode = {[ (1, pointerTag) ]} ∧
  sizeOf 0 pointerOnlyNode = Some 0%N ∧
  succs 1 pointerOnlyNode = ∅ ∧
  sizeOf 1 pointerOnlyNode = Some 8%N ∧
  dom (Layouts pointerOnlyNode) = {[ 0; 1 ]} ∧
  verifyLeafs false pointerOnlyNode = Done false.
Proof. by_evaluation. Qed.

(** ** Reachable states *)

Lemma reachable_runAll (ops : list Op) (TS0 TS : LayoutTypeSystem) :
  reachable TS0 → runAll ops TS0 = Done TS → reachable TS.
Proof.
  unfold runAll. revert TS0.
  induction ops as [|o ops IH]; intros TS0 H0 Hrun; simpl in Hrun.
  - injection Hrun as <-. exact H0.
  - destruct (run o TS0) as [TS1| | |] eqn:Hstep; try done. simpl in Hrun.
    apply (IH TS1); [|exact Hrun]. by apply (reach_step _ o TS0 TS1).
Qed.

Lemma reachable_stateAfter (ops : list Op) : reachable (stateAfter ops).
Proof.
  unfold stateAfter. destruct (runAll ops emptyTS) eqn:Hrun; try apply reach_empty.
  eapply reachable_runAll; [apply reach_empty | done].
Qed.

(** ** Mirrored adjacency after [moveEdge] *)

(** An inheritance edge from node 0 to node 1 is moved from node 0 to
    node 0 with a negative offset. *)
Definition moveOntoSameSource : list Op :=
  [OpCreate; OpCreate; OpAddInheritanceLink (Some 0) (Some 1);
   OpMoveEdge (Some 0) (Some 0) (1, inheritanceTag) (-1)].

(** C3 at its failing input: the calls of [moveOntoSameSource] all return,
    and leave node 0 with the successor entry (1, Inheritance) while node 1
    has no predecessor entry at all.  [addInheritanceLink] puts back the
    successor entry that was extracted and finds the predecessor entry in
    place; the closing [extract] then removes that predecessor entry. *)
Theorem moveEdge_same_source_breaks_mirroring :
  let TS := stateAfter moveOntoSameSource in
  runAll moveOntoSameSource emptyTS = Done TS ∧
  reachable TS ∧
  live 0 TS ∧ live 1 TS ∧
  (1, inheritanceTag) ∈ succs 0 TS ∧
  preds 1 TS = ∅ ∧
  ¬ mirrored TS.
Proof.
  intros TS.
  assert (Hs : (1, inheritanceTag) ∈ succs 0 TS) by compute_done.
  assert (Hp : preds 1 TS = ∅) by compute_done.
  assert (Hl : live 0 TS) by compute_done.
  split_and!; try done.
  all: try apply reachable_stateAfter.
  all: try compute_done.
  intros Hm. destruct (Hm 0 1 inheritanceTag Hl) as [Hm1 _].
  destruct (Hm1 Hs) as [_ Hin]. fold TS in Hin. rewrite Hp in Hin.
  by apply not_elem_of_empty in Hin.
Qed.

(** ** Self-edges after [moveEdge] *)

(** An inheritance edge from node 0 to node 1 is moved, with offset 0, from
    node 0 to node 1, its own target. *)
Definition moveOntoTarget : list Op :=
  [OpCreate; OpCreate; OpAddInheritanceLink (Some 0) (Some 1);
   OpMoveEdge (Some 0) (Some 1) (1, inheritanceTag) 0].

(** C4 at its failing input: the calls of [moveOntoTarget] all return, and
    leave node 1 as its own successor and its own predecessor.
    [moveEdgeWithoutSumming] inserts the extracted entries as they are,
    where the path for a nonzero offset goes through [addLink], which
    refuses a link from a node to itself. *)
Theorem moveEdge_onto_target_makes_self_edge :
  let TS := stateAfter moveOntoTarget in
  runAll moveOntoTarget emptyTS = Done TS ∧
  reachable TS ∧
  live 1 TS ∧
  succs 1 TS = {[ (1, inheritanceTag) ]} ∧
  preds 1 TS = {[ (1, inheritanceTag) ]} ∧
  ¬ noSelfEdges TS.
Proof.
  intros TS.
  assert (Hs : succs 1 TS = {[ (1, inheritanceTag) ]}) by compute_done.
  assert (Hl : live 1 TS) by compute_done.
  split_and!; try done.
  all: try apply reachable_stateAfter.
  all: try compute_done.
  intros Hn. destruct (Hn 1 inheritanceTag Hl) as [Hn1 _]. apply Hn1.
  fold TS. rewrite Hs. by apply elem_of_singleton.
Qed.

(** ** The invariants along sequences of calls *)

(** No call of [moveEdge] leaves an inheritance edge at its source under a
    negative offset. *)
Definition noMoveOntoItself (o : Op) (TS : LayoutTypeSystem) : Prop :=
  match o with
  | OpMoveEdge OldSrc NewSrc e d => ¬ movesOntoItself OldSrc NewSrc e d
  | _ => True
  end.

(** No call of [moveEdge] with offset 0 moves an edge onto its target. *)
Definition noMoveOntoTarget (o : Op) (TS : LayoutTypeSystem) : Prop :=
  match o with
  | OpMoveEdge OldSrc NewSrc e d => ¬ (d = 0%Z ∧ NewSrc = Some e.1 ∧ OldSrc ≠ None)
  | _ => True
  end.

(** No call of [moveEdge] takes an equality edge to another source. *)
Definition noEqualityMove (o : Op) (TS : LayoutTypeSystem) : Prop :=
  match o with
  | OpMoveEdge OldSrc NewSrc e d =>
      e.2 = equalityTag → OldSrc = NewSrc ∨ OldSrc = None ∨ NewSrc = None
  | _ => True
  end.

Lemma emptyTS_no_edges (T : TypeLinkTag) (a b : nat) :
  ¬ hasSucc T (Layouts emptyTS) a b ∧ ¬ hasPred T (Layouts emptyTS) a b.
Proof. split; intros (A & HA & _); simpl in HA; by rewrite lookup_empty in HA. Qed.

(** Adjacency stays mirrored along every sequence of calls but for the one
    call of [moveEdge] that C3 fails on. *)
Theorem reachable_mirrored (TS : LayoutTypeSystem) :
  reachableBy noMoveOntoItself TS → mirrored TS.
Proof.
  intros Hreach. apply mirrored_iff. intros T.
  induction Hreach as [|o TS TS' _ IH Hok Hrun].
  - intros a b. destruct (emptyTS_no_edges T a b). split; done.
  - eapply run_mirroredOn; [done| |done].
    destruct o; try done. simpl in Hok. tauto.
Qed.

(** No self-edge arises along a sequence of calls but by the one call of
    [moveEdge] that C4 fails on. *)
Theorem reachable_noSelfEdges (TS : LayoutTypeSystem) :
  reachableBy noMoveOntoTarget TS → noSelfEdges TS.
Proof.
  intros Hreach. apply noSelfEdges_iff.
  induction Hreach as [|o TS TS' _ IH Hok Hrun].
  - intros T a. apply emptyTS_no_edges.
  - eapply run_selfFree; [done| |done]. by destruct o.
Qed.

Lemma reachable_equalityPaired (TS : LayoutTypeSystem) :
  reachableBy noEqualityMove TS → equalityPaired (Layouts TS).
Proof.
  intros Hreach. induction Hreach as [|o TS TS' _ IH Hok Hrun].
  - split; intros a b; destruct (emptyTS_no_edges equalityTag a b); [split|]; done.
  - eapply run_equalityPaired; [done| |done]. by destruct o.
Qed.

(** ** The assertion of [addEqualityLink] *)

Lemma addLink_live (src tgt : nat) (Tag : TypeLinkTag) (TS : LayoutTypeSystem)
    (S Tn : LayoutTypeSystemNode) :
  src ≠ tgt → Layouts TS !! src = Some S → Layouts TS !! tgt = Some Tn →
  addLink (Some src) (Some tgt) Tag TS =
    Done (mkTS (NID TS)
            (<[tgt := setPredecessors (fun X => {[(src, Tag)]} ∪ X) Tn]>
               (<[src := setSuccessors (fun X => {[(tgt, Tag)]} ∪ X) S]> (Layouts TS)))
            ({[Tag]} ∪ LinkTags TS) (EqClasses TS),
          (Some Tag, bool_decide ((tgt, Tag) ∉ Successors S)
                     || bool_decide ((src, Tag) ∉ Predecessors Tn))).
Proof.
  intros Hne HS HTn. unfold addLink.
  rewrite bool_decide_eq_false_2 by done.
  rewrite !bool_decide_eq_true_2 by (by eexists). cbn [revng_assert obind].
  rewrite (load_Some _ _ _ HS). cbn [obind].
  rewrite (modify_Some _ _ _ _ HS). cbn [obind].
  assert (HTn' : <[src := setSuccessors (fun X => {[(tgt, Tag)]} ∪ X) S]> (Layouts TS)
                   !! tgt = Some Tn) by (by rewrite lookup_insert_ne).
  rewrite (load_Some _ _ _ HTn'). cbn [obind].
  by rewrite (modify_Some _ _ _ _ HTn').
Qed.

(** For every pair of distinct live nodes A and B, in every state reached
    through the public API by calls among which no [moveEdge] takes an
    equality edge to another source, the assertion of
    [addEqualityLink(A, B)] holds: the insertion from A to B and the one
    from B to A return the same tag and the same flag, and
    [addEqualityLink] returns that result. *)
Theorem addEqualityLink_results_agree (TS : LayoutTypeSystem) (A B : nat) :
  reachableBy noEqualityMove TS →
  live A TS → live B TS → A ≠ B →
  ∃ TS1 TS2 r,
    addLink (Some A) (Some B) equalityTag TS = Done (TS1, r) ∧
    addLink (Some B) (Some A) equalityTag TS1 = Done (TS2, r) ∧
    addEqualityLink (Some A) (Some B) TS = Done (TS2, r).
Proof.
  intros Hreach [SA HA] [SB HB] Hne.
  destruct (reachable_equalityPaired TS Hreach) as [Hm Hsym].
  pose proof (addLink_live A B equalityTag TS SA SB Hne HA HB) as Hfwd.
  set (TS1 := mkTS (NID TS)
            (<[B := setPredecessors (fun X => {[(A, equalityTag)]} ∪ X) SB]>
               (<[A := setSuccessors (fun X => {[(B, equalityTag)]} ∪ X) SA]> (Layouts TS)))
            ({[equalityTag]} ∪ LinkTags TS) (EqClasses TS)) in *.
  assert (HB1 : Layouts TS1 !! B = Some (setPredecessors (fun X => {[(A, equalityTag)]} ∪ X) SB)).
  { simpl. by rewrite lookup_insert_eq. }
  assert (HA1 : Layouts TS1 !! A = Some (setSuccessors (fun X => {[(B, equalityTag)]} ∪ X) SA)).
  { simpl. rewrite lookup_insert_ne by done. by rewrite lookup_insert_eq. }
  pose proof (addLink_live B A equalityTag TS1 _ _ (not_eq_sym Hne) HB1 HA1) as Hbwd.
  change (Successors (setPredecessors ?f ?n)) with (Successors n) in Hbwd.
  change (Predecessors (setSuccessors ?f ?n)) with (Predecessors n) in Hbwd.
  (* the four entries of an equality edge are there together *)
  assert (H1 : (B, equalityTag) ∈ Successors SA ↔ (A, equalityTag) ∈ Predecessors SB).
  { split; intros Hin.
    - destruct (Hm A B) as [Hm1 _]. destruct Hm1 as (X & HX & HinX); [by exists SA|].
      by assert (X = SB) as -> by congruence.
    - destruct (Hm B A) as [_ Hm2]. destruct Hm2 as (X & HX & HinX); [by exists SB|].
      by assert (X = SA) as -> by congruence. }
  assert (H2 : (A, equalityTag) ∈ Successors SB ↔ (B, equalityTag) ∈ Predecessors SA).
  { split; intros Hin.
    - destruct (Hm B A) as [Hm1 _]. destruct Hm1 as (X & HX & HinX); [by exists SB|].
      by assert (X = SA) as -> by congruence.
    - destruct (Hm A B) as [_ Hm2]. destruct Hm2 as (X & HX & HinX); [by exists SA|].
      by assert (X = SB) as -> by congruence. }
  assert (H3 : (B, equalityTag) ∈ Successors SA ↔ (A, equalityTag) ∈ Successors SB).
  { split; intros Hin.
    - destruct (Hsym A B) as (X & HX & HinX); [by exists SA|].
      by assert (X = SB) as -> by congruence.
    - destruct (Hsym B A) as (X & HX & HinX); [by exists SB|].
      by assert (X = SA) as -> by congruence. }
  assert (Hflags :
    bool_decide ((B, equalityTag) ∉ Successors SA)
      || bool_decide ((A, equalityTag) ∉ Predecessors SB) =
    bool_decide ((A, equalityTag) ∉ Successors SB)
      || bool_decide ((B, equalityTag) ∉ Predecessors SA)).
  { repeat case_bool_decide; try done; tauto. }
  rewrite <- Hflags in Hbwd.
  eexists TS1, _, _. split; [exact Hfwd|]. split; [exact Hbwd|].
  unfold addEqualityLink. rewrite Hfwd. cbn [obind]. rewrite Hbwd. cbn [obind].
  by rewrite bool_decide_eq_true_2.
Qed.

(** Nodes 0, 1 and 2; an equality link between 0 and 1; then the equality
    edge from 0 to 1 is moved to the source 2. *)
Definition movedEqualityEdge : LayoutTypeSystem :=
  stateAfter [OpCreate; OpCreate; OpCreate; OpAddEqualityLink (Some 0) (Some 1);
              OpMoveEdge (Some 0) (Some 2) (1, equalityTag) 0].

Lemma addEqualityLink_results_agree_witness :
  ∃ TS1 TS2 r,
    addLink (Some 0) (Some 1) equalityTag (stateAfter [OpCreate; OpCreate])
      = Done (TS1, r) ∧
    addLink (Some 1) (Some 0) equalityTag TS1 = Done (TS2, r) ∧
    addEqualityLink (Some 0) (Some 1) (stateAfter [OpCreate; OpCreate])
      = Done (TS2, r).
Proof.
  apply (addEqualityLink_results_agree (stateAfter [OpCreate; OpCreate]) 0 1).
  - apply (reach_step _ OpCreate (stateAfter [OpCreate])); [|exact I|reflexivity].
    apply (reach_step _ OpCreate emptyTS); [|exact I|reflexivity].
    apply reach_empty.
  - vm_compute. eexists. reflexivity.
  - vm_compute. eexists. reflexivity.
  - lia.
Defined.

(** C9 at its failing input: [movedEqualityEdge] is reached through the
    public API, its calls all return, and nodes 0 and 1 are live and
    distinct.  There the insertion from 0 to 1 is new while the one from 1
    to 0 is not, so the assertion of [addEqualityLink] fails.  The call of
    [moveEdge] that took the equality edge from node 0 to node 2 had the
    offset 0; with any other offset [moveEdge] refuses an equality edge. *)
Theorem addEqualityLink_assertion_fails :
  reachable movedEqualityEdge ∧
  live 0 movedEqualityEdge ∧ live 1 movedEqualityEdge ∧
  returned (addLink (Some 0) (Some 1) equalityTag movedEqualityEdge)
    = Some (Some equalityTag, true) ∧
  (TS1 ←! fstO (addLink (Some 0) (Some 1) equalityTag movedEqualityEdge);
   Done (returned (addLink (Some 1) (Some 0) equalityTag TS1)))
    = Done (Some (Some equalityTag, false)) ∧
  addEqualityLink (Some 0) (Some 1) movedEqualityEdge = Fatal ∧
  moveEdge (Some 0) (Some 2) (1, equalityTag) 1
    (stateAfter [OpCreate; OpCreate; OpCreate; OpAddEqualityLink (Some 0) (Some 1)])
    = Fatal.
Proof.
  split; [apply reachable_stateAfter|]. by_evaluation.
Qed.

(** ** The frame of [removeNode] *)

(** The entries that name [n], in the successors or the predecessors of a
    live node, have their mirror entries in the sets of [n]. *)
Definition knownTo (n : nat) (TS : LayoutTypeSystem) : Prop :=
  ∀ m T, live m TS →
    ((n, T) ∈ succs m TS → (m, T) ∈ preds n TS) ∧
    ((n, T) ∈ preds m TS → (m, T) ∈ succs n TS).

Lemma mirrored_knownTo (n : nat) (TS : LayoutTypeSystem) :
  mirrored TS → knownTo n TS.
Proof.
  intros Hm m T Hl. destruct (Hm m n T Hl) as [H1 H2].
  split; intros Hin; [by apply H1 | by apply H2].
Qed.

Lemma knownTo_mirroredAt (n : nat) (TS : LayoutTypeSystem) (T : TypeLinkTag) :
  live n TS → knownTo n TS → mirroredAt T n (Layouts TS).
Proof.
  unfold knownTo, mirroredAt, hasSucc, hasPred, live, succs, preds.
  intros [N HN] Hk c. rewrite HN in Hk. simpl in Hk.
  split; intros (C & HC & Hin); exists N; (split; [done|]);
    (destruct (Hk c T) as [H1 H2]; [by eexists|]); rewrite HC in H1, H2; auto.
Qed.

(** [removeNode(n)], for a live node [n] of a graph in which the
    entries that name [n] are mirrored, modifies only what involves [n]:
    after the call [n] is gone, no remaining node has an entry whose
    neighbour is [n], every adjacency entry that does not name [n] is as it
    was, the other nodes and their [Size] and [InterferingInfo] are as they
    were, and so is the deduplicated tag set (and the identifier counter). *)
Theorem removeNode_frame (TS TS' : LayoutTypeSystem) (n : nat) :
  live n TS → knownTo n TS →
  removeNode (Some n) TS = Done TS' →
  ¬ live n TS' ∧
  (∀ m, m ≠ n → (live m TS' ↔ live m TS)) ∧
  (∀ m b T, m ≠ n →
     ((b, T) ∈ succs m TS' ↔ b ≠ n ∧ (b, T) ∈ succs m TS) ∧
     ((b, T) ∈ preds m TS' ↔ b ≠ n ∧ (b, T) ∈ preds m TS)) ∧
  (∀ m, m ≠ n →
     sizeOf m TS' = sizeOf m TS ∧
     InterferingInfo <$> Layouts TS' !! m = InterferingInfo <$> Layouts TS !! m) ∧
  LinkTags TS' = LinkTags TS ∧
  NID TS' = NID TS.
Proof.
  intros Hlive Hk Hrun.
  apply removeNode_spec in Hrun
    as (r & R & C & [= <-] & HR & _ & HNID & Htags & _ & Hrem).
  pose proof Hrem as [Hgone Hoth].
  split_and!; try done.
  - intros [N HN]. congruence.
  - intros m Hm. unfold live. rewrite Hoth by done. by rewrite fmap_is_Some.
  - intros m b T Hm.
    pose proof (removedHeap_edges T n R _ _ HR Hrem (knownTo_mirroredAt _ _ T Hlive Hk))
      as He.
    destruct (He m b) as [HS HP].
    assert (Hs : ∀ TS0, (b, T) ∈ succs m TS0 ↔ hasSucc T (Layouts TS0) m b).
    { intros TS0. unfold succs, hasSucc. destruct (Layouts TS0 !! m) as [M|]; simpl.
      - split; [intros; by exists M | by intros (? & [= <-] & ?)].
      - split; [intros Hin; by apply not_elem_of_empty in Hin | by intros (? & ? & ?)]. }
    assert (Hp : ∀ TS0, (b, T) ∈ preds m TS0 ↔ hasPred T (Layouts TS0) m b).
    { intros TS0. unfold preds, hasPred. destruct (Layouts TS0 !! m) as [M|]; simpl.
      - split; [intros; by exists M | by intros (? & [= <-] & ?)].
      - split; [intros Hin; by apply not_elem_of_empty in Hin | by intros (? & ? & ?)]. }
    rewrite !Hs, !Hp, HS, HP. tauto.
  - intros m Hm. unfold sizeOf. rewrite Hoth by done.
    destruct (Layouts TS !! m); done.
Qed.

(** Nodes 0, 1 and 2 with an instance edge from 0 to 2 and an inheritance
    edge from 1 to 0. *)
Definition threeLinkedNodes : list Op :=
  [OpCreate; OpCreate; OpCreate;
   OpAddInstanceLink (Some 0) (Some 2) (OffsetExpression_of 8);
   OpAddInheritanceLink (Some 1) (Some 0)].

Lemma reachableBy_stateAfter (ok : Op → LayoutTypeSystem → Prop) (ops : list Op) :
  (∀ o TS, o ∈ ops → ok o TS) → reachableBy ok (stateAfter ops).
Proof.
  intros Hok. unfold stateAfter, runAll.
  assert (Hgen : ∀ TS0 TS, reachableBy ok TS0 → forEach ops run TS0 = Done TS →
                           reachableBy ok TS).
  { induction ops as [|o ops IH]; intros TS0 TS H0 Hrun; simpl in Hrun.
    - by injection Hrun as <-.
    - apply obind_Done in Hrun as (TS1 & Hstep & Hrun).
      apply (IH (fun o' TS' Hin => Hok o' TS' (list_elem_of_further _ _ _ Hin)) TS1);
        [|done].
      apply (reach_step _ o TS0 TS1); [done | | done].
      apply Hok. apply list_elem_of_here. }
  destruct (forEach ops run emptyTS) eqn:Hrun; try apply reach_empty.
  eapply Hgen; [apply reach_empty | done].
Qed.

Lemma removeNode_frame_witness :
  let TS := stateAfter threeLinkedNodes in
  let TS' := stateAfter (threeLinkedNodes ++ [OpRemoveNode (Some 0)]) in
  ¬ live 0 TS' ∧
  (∀ m, m ≠ 0 → (live m TS' ↔ live m TS)) ∧
  (∀ m b T, m ≠ 0 →
     ((b, T) ∈ succs m TS' ↔ b ≠ 0 ∧ (b, T) ∈ succs m TS) ∧
     ((b, T) ∈ preds m TS' ↔ b ≠ 0 ∧ (b, T) ∈ preds m TS)) ∧
  (∀ m, m ≠ 0 →
     sizeOf m TS' = sizeOf m TS ∧
     InterferingInfo <$> Layouts TS' !! m = InterferingInfo <$> Layouts TS !! m) ∧
  LinkTags TS' = LinkTags TS ∧
  NID TS' = NID TS.
Proof.
  intros TS TS'. apply (removeNode_frame TS TS' 0).
  - vm_compute. eexists. reflexivity.
  - apply mirrored_knownTo, reachable_mirrored, reachableBy_stateAfter.
    intros o TS0 Hin. unfold threeLinkedNodes in Hin.
    repeat (apply elem_of_cons in Hin as [-> | Hin]; [exact I|]).
    by apply elem_of_nil in Hin.
  - vm_compute. reflexivity.
Defined.

(** C10 at its failing input: after the calls of [moveOntoSameSource],
    node 0 holds the successor entry (1, Inheritance) that node 1 does not
    mirror.  [removeNode] of the live node 1 returns; it walks the entries
    of node 1, which are none, so that node 0 remains with an entry whose
    neighbour is the removed node. *)
Theorem removeNode_leaves_unmirrored_entry :
  let TS := stateAfter moveOntoSameSource in
  reachable TS ∧ live 1 TS ∧ ¬ knownTo 1 TS ∧
  ∃ TS', removeNode (Some 1) TS = Done TS' ∧
    ¬ live 1 TS' ∧ live 0 TS' ∧ (1, inheritanceTag) ∈ succs 0 TS'.
Proof.
  intros TS.
  assert (Hl0 : live 0 TS) by compute_done.
  assert (Hs : (1, inheritanceTag) ∈ succs 0 TS) by compute_done.
  assert (Hp : preds 1 TS = ∅) by compute_done.
  split_and!.
  - apply reachable_stateAfter.
  - compute_done.
  - intros Hk. destruct (Hk 0 inheritanceTag Hl0) as [H _].
    specialize (H Hs). rewrite Hp in H. set_solver.
  - exists (stateAfter (moveOntoSameSource ++ [OpRemoveNode (Some 1)])).
    split_and!; [by vm_compute | | compute_done | compute_done].
    intros [N HN]. vm_compute in HN. discriminate HN.
Qed.

(** ** Rebasing the offset in [moveEdge] *)

Lemma succs_hasSucc (TS : LayoutTypeSystem) (m b : nat) (T : TypeLinkTag) :
  (b, T) ∈ succs m TS ↔ hasSucc T (Layouts TS) m b.
Proof.
  unfold succs, hasSucc. destruct (Layouts TS !! m) as [M|]; simpl.
  - split; [intros; by exists M | by intros (? & [= <-] & ?)].
  - split; [intros Hin; by apply not_elem_of_empty in Hin | by intros (? & ? & ?)].
Qed.

Lemma preds_hasPred (TS : LayoutTypeSystem) (m b : nat) (T : TypeLinkTag) :
  (b, T) ∈ preds m TS ↔ hasPred T (Layouts TS) m b.
Proof.
  unfold preds, hasPred. destruct (Layouts TS !! m) as [M|]; simpl.
  - split; [intros; by exists M | by intros (? & [= <-] & ?)].
  - split; [intros Hin; by apply not_elem_of_empty in Hin | by intros (? & ? & ?)].
Qed.

Lemma addLink_returns (src tgt : nat) (Tag : TypeLinkTag) (TS : LayoutTypeSystem) :
  live src TS → live tgt TS →
  ∃ TS' r, addLink (Some src) (Some tgt) Tag TS = Done (TS', r) ∧
           ∀ x, live x TS' ↔ live x TS.
Proof.
  intros [S HS] [Tn HTn]. destruct (decide (src = tgt)) as [-> | Hne].
  - exists TS, (None, false). split; [|done].
    unfold addLink. by rewrite bool_decide_eq_true_2.
  - eexists _, _. split; [by apply (addLink_live src tgt Tag TS S Tn)|].
    intros x. unfold live. simpl. rewrite !lookup_insert.
    repeat case_decide; subst; try done; split; intros; by eexists.
Qed.

Lemma moveEdgeWithoutSumming_returns (o n : nat) (e : Link) (H : Heap)
    (O Tn : LayoutTypeSystemNode) :
  H !! o = Some O → e ∈ Successors O → is_Some (H !! n) →
  H !! e.1 = Some Tn → (o, e.2) ∈ Predecessors Tn →
  (n ≠ o → ¬ hasSucc e.2 H n e.1) →
  ∃ H', moveEdgeWithoutSumming o n e H = Done H'.
Proof.
  intros HO He [N HN] HTn HeP Hnew. unfold moveEdgeWithoutSumming.
  rewrite (load_Some _ _ _ HO). cbn [obind].
  rewrite bool_decide_eq_true_2 by done. cbn [defined obind].
  rewrite (modify_Some _ _ _ _ HO). cbn [obind].
  assert (∃ N1, <[o:=setSuccessors (fun S => S ∖ {[e]}) O]> H !! n = Some N1
                ∧ e ∉ Successors N1) as (N1 & HN1 & HeN1).
  { rewrite lookup_insert. case_decide as Hon.
    - eexists. split; [done|]. simpl. set_solver.
    - exists N. split; [done|]. intros Hin. apply Hnew; [done|].
      exists N. by destruct e. }
  rewrite (load_Some _ _ _ HN1). cbn [obind].
  rewrite bool_decide_eq_false_2 by done. cbn [negb defined obind].
  rewrite (modify_Some _ _ _ _ HN1). cbn [obind].
  assert (∃ T2, <[n:=setSuccessors (fun S => {[e]} ∪ S) N1]>
                  (<[o:=setSuccessors (fun S => S ∖ {[e]}) O]> H) !! e.1 = Some T2
                ∧ Predecessors T2 = Predecessors Tn) as (T2 & HT2 & HP2).
  { rewrite lookup_insert. case_decide as Hn.
    - eexists. split; [done|]. simpl. subst n.
      rewrite lookup_insert in HN1. case_decide as Ho.
      + injection HN1 as <-. simpl. congruence.
      + congruence.
    - rewrite lookup_insert. case_decide as Ho.
      + eexists. split; [done|]. simpl. congruence.
      + by exists Tn. }
  rewrite (load_Some _ _ _ HT2). cbn [obind].
  rewrite bool_decide_eq_true_2 by (by rewrite HP2). cbn [revng_assert obind].
  rewrite (modify_Some _ _ _ _ HT2). by eexists.
Qed.






(** With [OffsetToSum] 0 the call is not defined when the new source, a node
    other than the old source, holds an equal entry already: the entry that
    [extract] took out of the old source is not inserted and is freed, and
    is read afterwards. *)
Lemma moveEdge_onto_held_entry (TS : LayoutTypeSystem) (o n : nat) (e : Link) :
  n ≠ o → e ∈ succs o TS → e ∈ succs n TS →
  moveEdge (Some o) (Some n) e 0 TS = Undef.
Proof.
  intros Hno Ho Hn. unfold succs in Ho, Hn.
  destruct (Layouts TS !! o) as [O|] eqn:HO; [|set_solver].
  destruct (Layouts TS !! n) as [Nn|] eqn:HN; [|set_solver].
  simpl in Ho, Hn. unfold moveEdge, moveEdgeWithoutSumming. cbn [Z.eqb].
  rewrite (load_Some _ _ _ HO). cbn [obind].
  rewrite bool_decide_eq_true_2 by done. cbn [defined obind].
  rewrite (modify_Some _ _ _ _ HO). cbn [obind].
  assert (HN1 : <[o:=setSuccessors (fun S => S ∖ {[e]}) O]> (Layouts TS) !! n = Some Nn).
  { rewrite lookup_insert. by case_decide. }
  rewrite (load_Some _ _ _ HN1). cbn [obind].
  by rewrite bool_decide_eq_true_2 by done.
Qed.


(** ** Equivalence classes: parent pointers *)

(** Every entry points to an index that is not larger. *)
Definition wfEC (E : list nat) : Prop := ∀ i v, E !! i = Some v → v ≤ i.

Definition edge (E : list nat) (i j : nat) : Prop := E !! i = Some j.

(** [r] is where the loop of [findLeader] ends when started at [a]. *)
Inductive leader (E : list nat) : nat → nat → Prop :=
  | leader_root a : E !! a = Some a → leader E a a
  | leader_step a v r : E !! a = Some v → v ≠ a → leader E v r → leader E a r.

(** The equivalence that a relation generates. *)
Inductive conn (R : nat → nat → Prop) : nat → nat → Prop :=
  | conn_base x y : R x y → conn R x y
  | conn_refl x : conn R x x
  | conn_sym x y : conn R x y → conn R y x
  | conn_trans x y z : conn R x y → conn R y z → conn R x z.

Lemma conn_mono (R R' : nat → nat → Prop) (x y : nat) :
  (∀ u v, R u v → conn R' u v) → conn R x y → conn R' x y.
Proof.
  intros HR Hc. induction Hc as [x y Hxy | x | x y _ IH | x y z _ IH1 _ IH2].
  - by apply HR.
  - apply conn_refl.
  - by apply conn_sym.
  - by eapply conn_trans.
Qed.

Lemma rd_Done (E : list nat) (i v : nat) : rd E i = Done v ↔ E !! i = Some v.
Proof. unfold rd. destruct (E !! i); split; congruence. Qed.

Lemma wfEC_lt (E : list nat) (i v : nat) :
  wfEC E → E !! i = Some v → v < length E.
Proof.
  intros Hwf Hi. specialize (Hwf i v Hi). apply lookup_lt_Some in Hi. lia.
Qed.

Lemma leader_det (E : list nat) (a r r' : nat) :
  leader E a r → leader E a r' → r = r'.
Proof.
  intros H1. revert r'. induction H1 as [a Ha | a v r Ha Hne _ IH]; intros r' H2.
  - inversion H2 as [? Ha' | ? v' ? Ha' Hne' _]; subst; [done | congruence].
  - inversion H2 as [? Ha' | ? v' ? Ha' Hne' Hl]; subst; [congruence|].
    apply IH. congruence.
Qed.

Lemma leader_exists (E : list nat) (a : nat) :
  wfEC E → a < length E → ∃ r, leader E a r ∧ r ≤ a.
Proof.
  intros Hwf. induction (lt_wf a) as [a _ IH]. intros Ha.
  destruct (lookup_lt_is_Some_2 E a Ha) as [v Hv].
  destruct (decide (v = a)) as [-> | Hne].
  - exists a. split; [by apply leader_root | lia].
  - pose proof (Hwf a v Hv) as Hle.
    destruct (IH v) as (r & Hr & Hrv); [lia | lia |].
    exists r. split; [by eapply leader_step | lia].
Qed.

Lemma leader_is_root (E : list nat) (a r : nat) : leader E a r → E !! r = Some r.
Proof. induction 1; done. Qed.

Lemma findLeader_loop_leader (E : list nat) (a r fuel : nat) :
  wfEC E → leader E a r → a < fuel → findLeader_loop fuel E a = Done r.
Proof.
  intros Hwf Hl. revert fuel.
  induction Hl as [a Ha | a v r Ha Hne _ IH]; intros fuel Hfuel;
    (destruct fuel as [|fuel]; [lia|]); simpl; unfold rd; rewrite Ha; simpl.
  - by rewrite Nat.eqb_refl.
  - rewrite (proj2 (Nat.eqb_neq a v)) by done.
    apply IH. specialize (Hwf a v Ha). lia.
Qed.

Lemma leader_conn (E : list nat) (a r : nat) : leader E a r → conn (edge E) a r.
Proof.
  induction 1 as [a Ha | a v r Ha Hne _ IH].
  - apply conn_refl.
  - eapply conn_trans; [|exact IH]. by apply conn_base.
Qed.

Lemma conn_leader (E : list nat) (x y : nat) :
  conn (edge E) x y → ∀ r, leader E x r ↔ leader E y r.
Proof.
  induction 1 as [x y Hxy | x | x y _ IH | x y z _ IH1 _ IH2]; intros r.
  - unfold edge in Hxy. destruct (decide (y = x)) as [-> | Hne]; [done|]. split.
    + intros Hl. inversion Hl as [? Ha | ? v ? Ha Hv Hl']; subst; congruence.
    + intros Hl. by eapply leader_step.
  - done.
  - by rewrite IH.
  - by rewrite IH1.
Qed.

(** Two connected indices have the same leader. *)
Lemma conn_findLeader (E : list nat) (x y : nat) :
  wfEC E → x < length E → y < length E → conn (edge E) x y →
  ∃ r, findLeader_loop (S (length E)) E x = Done r ∧
       findLeader_loop (S (length E)) E y = Done r.
Proof.
  intros Hwf Hx Hy Hc. destruct (leader_exists E x Hwf Hx) as (r & Hr & _).
  exists r. split.
  - apply findLeader_loop_leader; [done | done | lia].
  - apply findLeader_loop_leader; [done | by apply (conn_leader E x y) | lia].
Qed.

(** *** [grow] *)

Lemma wfEC_snoc (E : list nat) : wfEC E → wfEC (E ++ [length E]).
Proof.
  intros Hwf i v Hi. apply lookup_app_Some in Hi as [Hi | [Hge Hi]].
  - by apply Hwf.
  - apply list_lookup_singleton_Some in Hi as [Hi <-]. lia.
Qed.

Lemma conn_snoc (E : list nat) (x y : nat) :
  conn (edge E) x y → conn (edge (E ++ [length E])) x y.
Proof.
  apply conn_mono. intros u v Huv. apply conn_base. unfold edge in *.
  by apply lookup_app_l_Some.
Qed.

(** *** [join] *)

(** The edges of [E] and one more edge from [a] to [b]. *)
Definition edgePlus (E : list nat) (a b : nat) (i j : nat) : Prop :=
  edge E i j ∨ (i = a ∧ j = b).

Lemma join_loop_spec (fuel : nat) (E : list nat) (a b eca ecb : nat) :
  wfEC E → E !! a = Some eca → E !! b = Some ecb →
  a + b + eca + ecb < fuel →
  ∃ E' r, join_loop fuel E a b eca ecb = Done (E', r) ∧
          wfEC E' ∧ length E' = length E ∧
          ∀ x y, conn (edge E') x y ↔ conn (edgePlus E a b) x y.
Proof.
  revert E a b eca ecb.
  induction fuel as [|fuel IH]; intros E a b eca ecb Hwf Ha Hb Hfuel; [lia|].
  simpl. destruct (Nat.eqb_spec eca ecb) as [-> | Hne].
  - (* both chains have met *)
    exists E, ecb. split_and!; try done. intros x y. split.
    + apply conn_mono. intros u v Huv. apply conn_base. by left.
    + apply conn_mono. intros u v [Huv | [-> ->]]; [by apply conn_base|].
      eapply conn_trans; [apply conn_base; exact Ha|].
      apply conn_sym, conn_base. exact Hb.
  - pose proof (lookup_lt_Some _ _ _ Ha) as Hal.
    pose proof (lookup_lt_Some _ _ _ Hb) as Hbl.
    pose proof (Hwf _ _ Ha) as Hale. pose proof (Hwf _ _ Hb) as Hble.
    assert (Hab : a ≠ b) by (intros ->; congruence).
    destruct (Nat.ltb_spec eca ecb) as [Hlt | Hge].
    + (* the entry of [b] is lowered to [eca], and [b] moves up *)
      set (E' := <[b := eca]> E).
      assert (Hwf' : wfEC E').
      { intros i v Hi. unfold E' in Hi. apply list_lookup_insert_Some in Hi
          as [(-> & <- & _) | [Hib Hi]]; [lia | by apply Hwf]. }
      assert (Hecb : ecb < length E) by lia.
      destruct (lookup_lt_is_Some_2 E' ecb) as [ecb' Hecb'].
      { unfold E'. by rewrite length_insert. }
      unfold rd. fold E'. rewrite Hecb'. simpl.
      assert (Ha' : E' !! a = Some eca).
      { unfold E'. by rewrite list_lookup_insert_ne. }
      destruct (IH E' a ecb eca ecb' Hwf' Ha' Hecb') as (E'' & r & Hrun & Hwf'' & Hlen & Hconn).
      { pose proof (Hwf' _ _ Hecb') as Hle'.
        destruct (decide (ecb = b)) as [Heq | Hneq]; [|lia].
        subst ecb. unfold E' in Hecb'.
        rewrite list_lookup_insert_eq in Hecb' by done.
        injection Hecb' as <-. lia. }
      exists E'', r. split_and!; try done.
      { rewrite Hlen. unfold E'. by rewrite length_insert. }
      intros x y. rewrite Hconn. split.
      * apply conn_mono. intros u v [Huv | [-> ->]].
        -- unfold edge, E' in Huv. apply list_lookup_insert_Some in Huv
             as [(-> & <- & _) | [Hub Huv]].
           ++ (* b -> eca : b ~ a ~ eca *)
              eapply conn_trans; [apply conn_sym, conn_base; right; done|].
              apply conn_base. by left.
           ++ apply conn_base. by left.
        -- (* a ~ ecb : a ~ b ~ ecb *)
           eapply conn_trans; [apply conn_base; right; done|].
           apply conn_base. by left.
      * apply conn_mono. intros u v [Huv | [-> ->]].
        -- unfold edge in Huv. destruct (decide (u = b)) as [-> | Hub].
           ++ (* b -> ecb : b ~ eca ~ a ~ ecb *)
              assert (v = ecb) as -> by congruence.
              eapply conn_trans.
              { apply conn_base. left. unfold edge, E'.
                by apply list_lookup_insert_eq. }
              eapply conn_trans; [apply conn_sym, conn_base; left; exact Ha'|].
              apply conn_base. by right.
           ++ apply conn_base. left. unfold edge, E'.
              by rewrite list_lookup_insert_ne.
        -- (* a ~ b : a ~ eca ~ b *)
           eapply conn_trans; [apply conn_base; left; exact Ha'|].
           apply conn_sym, conn_base. left. unfold edge, E'.
           by apply list_lookup_insert_eq.
    + (* the entry of [a] is lowered to [ecb], and [a] moves up *)
      assert (Hlt : ecb < eca) by lia.
      set (E' := <[a := ecb]> E).
      assert (Hwf' : wfEC E').
      { intros i v Hi. unfold E' in Hi. apply list_lookup_insert_Some in Hi
          as [(-> & <- & _) | [Hia Hi]]; [lia | by apply Hwf]. }
      assert (Heca : eca < length E) by lia.
      destruct (lookup_lt_is_Some_2 E' eca) as [eca' Heca'].
      { unfold E'. by rewrite length_insert. }
      unfold rd. fold E'. rewrite Heca'. simpl.
      assert (Hb' : E' !! b = Some ecb).
      { unfold E'. by rewrite list_lookup_insert_ne. }
      destruct (IH E' eca b eca' ecb Hwf' Heca' Hb') as (E'' & r & Hrun & Hwf'' & Hlen & Hconn).
      { pose proof (Hwf' _ _ Heca') as Hle'.
        destruct (decide (eca = a)) as [Heq | Hneq]; [|lia].
        subst eca. unfold E' in Heca'.
        rewrite list_lookup_insert_eq in Heca' by done.
        injection Heca' as <-. lia. }
      exists E'', r. split_and!; try done.
      { rewrite Hlen. unfold E'. by rewrite length_insert. }
      intros x y. rewrite Hconn. split.
      * apply conn_mono. intros u v [Huv | [-> ->]].
        -- unfold edge, E' in Huv. apply list_lookup_insert_Some in Huv
             as [(-> & <- & _) | [Hua Huv]].
           ++ (* a -> ecb : a ~ b ~ ecb *)
              eapply conn_trans; [apply conn_base; right; done|].
              apply conn_base. by left.
           ++ apply conn_base. by left.
        -- (* eca ~ b : eca ~ a ~ b *)
           eapply conn_trans; [apply conn_sym, conn_base; left; exact Ha|].
           apply conn_base. by right.
      * apply conn_mono. intros u v [Huv | [-> ->]].
        -- unfold edge in Huv. destruct (decide (u = a)) as [-> | Hua].
           ++ (* a -> eca : a ~ ecb ~ b ~ eca *)
              assert (v = eca) as -> by congruence.
              eapply conn_trans.
              { apply conn_base. left. unfold edge, E'.
                by apply list_lookup_insert_eq. }
              eapply conn_trans; [apply conn_sym, conn_base; left; exact Hb'|].
              apply conn_sym, conn_base. by right.
           ++ apply conn_base. left. unfold edge, E'.
              by rewrite list_lookup_insert_ne.
        -- (* a ~ b : a ~ ecb ~ b *)
           eapply conn_trans.
           { apply conn_base. left. unfold edge, E'. by apply list_lookup_insert_eq. }
           apply conn_sym, conn_base. left. exact Hb'.
Qed.

(** *** [compress] *)

(** The number of leaders below [r], which is the class that [compress]
    gives the leader [r]. *)
Fixpoint classOf (E : list nat) (r : nat) : nat :=
  match r with
  | 0 => 0
  | S r' => classOf E r' + (if decide (E !! r' = Some r') then 1 else 0)
  end.

Lemma classOf_pos (E : list nat) (n : nat) :
  wfEC E → 0 < n → n ≤ length E → 0 < classOf E n.
Proof.
  intros Hwf Hn Hlen. induction n as [|n IH]; [lia|]. simpl.
  destruct n as [|n].
  - destruct (lookup_lt_is_Some_2 E 0) as [v Hv]; [lia|].
    pose proof (Hwf 0 v Hv). assert (v = 0) as -> by lia.
    rewrite decide_True by done. simpl. lia.
  - assert (0 < classOf E (S n)) by (apply IH; lia). lia.
Qed.

(** The state of the loop of [compress] before it handles the index [i]. *)
Definition compressedUpTo (E0 : list nat) (i : nat) (E : list nat) (NC : nat) : Prop :=
  length E = length E0 ∧ NC = classOf E0 i ∧
  (∀ j, i ≤ j → E !! j = E0 !! j) ∧
  (∀ j r, j < i → leader E0 j r → E !! j = Some (classOf E0 r)).

Lemma compress_loop_spec (E0 : list nat) (k i : nat) (E : list nat) (NC : nat) :
  wfEC E0 → i + k = length E0 → compressedUpTo E0 i E NC →
  ∃ E' NC', compress_loop (seq i k) E NC = Done (E', NC') ∧
            compressedUpTo E0 (length E0) E' NC'.
Proof.
  intros Hwf. revert i E NC.
  induction k as [|k IH]; intros i E NC Hik Hinv; simpl.
  - exists E, NC. split; [done|]. by replace (length E0) with i by lia.
  - destruct Hinv as (Hlen & HNC & Hhi & Hlo).
    destruct (lookup_lt_is_Some_2 E0 i) as [v Hv]; [lia|].
    unfold rd at 1. rewrite Hhi, Hv by lia. simpl.
    destruct (Nat.eqb_spec v i) as [-> | Hne].
    + (* a leader: it opens a class *)
      apply IH; [lia|]. split_and!.
      * by rewrite length_insert.
      * simpl. rewrite decide_True by done. lia.
      * intros j Hj. rewrite list_lookup_insert_ne by lia. apply Hhi. lia.
      * intros j r Hj Hl. destruct (decide (j = i)) as [-> | Hji].
        -- rewrite list_lookup_insert_eq by lia.
           rewrite (leader_det E0 i r i Hl (leader_root E0 i Hv)). by rewrite HNC.
        -- rewrite list_lookup_insert_ne by done. apply Hlo; [lia | done].
    + (* a member: it takes the class of its parent *)
      pose proof (Hwf i v Hv) as Hle. assert (Hvi : v < i) by lia.
      destruct (leader_exists E0 v Hwf) as (r & Hr & _); [lia|].
      unfold rd. rewrite (Hlo v r Hvi Hr). simpl.
      apply IH; [lia|]. split_and!.
      * by rewrite length_insert.
      * simpl. rewrite decide_False by congruence. lia.
      * intros j Hj. rewrite list_lookup_insert_ne by lia. apply Hhi. lia.
      * intros j r' Hj Hl. destruct (decide (j = i)) as [-> | Hji].
        -- rewrite list_lookup_insert_eq by lia.
           by rewrite (leader_det E0 i r' r Hl (leader_step E0 i v r Hv Hne Hr)).
        -- rewrite list_lookup_insert_ne by done. apply Hlo; [lia | done].
Qed.

Lemma compress_loop_classes (E0 : list nat) :
  wfEC E0 →
  ∃ E' NC', compress_loop (seq 0 (length E0)) E0 0 = Done (E', NC') ∧
            length E' = length E0 ∧
            (0 < length E0 → 0 < NC') ∧
            ∀ x y, x < length E0 → y < length E0 → conn (edge E0) x y →
                   E' !! x = E' !! y.
Proof.
  intros Hwf.
  destruct (compress_loop_spec E0 (length E0) 0 E0 0 Hwf) as (E' & NC' & Hrun & Hinv).
  { lia. }
  { split_and!; try done. intros j r Hj. lia. }
  destruct Hinv as (Hlen & HNC & _ & Hlo).
  exists E', NC'. split_and!; try done.
  - intros Hpos. rewrite HNC. by apply classOf_pos.
  - intros x y Hx Hy Hc. destruct (leader_exists E0 x Hwf Hx) as (r & Hr & _).
    rewrite (Hlo x r Hx Hr). symmetry. apply Hlo; [done|].
    by apply (conn_leader E0 x y).
Qed.

(** *** The members of [VectEqClasses] *)

Lemma join_spec (a b : nat) (C : VectEqClasses) :
  NumClasses C = 0 → wfEC (EC C) → a < length (EC C) → b < length (EC C) →
  ∃ E' r, join a b C = Done (setEC E' C, r) ∧
          wfEC E' ∧ length E' = length (EC C) ∧
          ∀ x y, conn (edge E') x y ↔ conn (edgePlus (EC C) a b) x y.
Proof.
  intros HNC Hwf Ha Hb. unfold join. rewrite HNC.
  cbn [Nat.eqb revng_assert obind].
  destruct (lookup_lt_is_Some_2 _ _ Ha) as [eca Heca].
  destruct (lookup_lt_is_Some_2 _ _ Hb) as [ecb Hecb].
  unfold rd. rewrite Heca, Hecb. cbn [obind].
  destruct (join_loop_spec (4 * length (EC C)) (EC C) a b eca ecb Hwf Heca Hecb)
    as (E' & r & Hrun & Hwf' & Hlen & Hconn).
  { pose proof (Hwf _ _ Heca). pose proof (Hwf _ _ Hecb). lia. }
  exists E', r. by rewrite Hrun.
Qed.

Lemma join_Done (a b : nat) (C C' : VectEqClasses) (r : nat) :
  join a b C = Done (C', r) →
  NumClasses C = 0 ∧ a < length (EC C) ∧ b < length (EC C).
Proof.
  unfold join. intros Hrun. osplit Hrun.
  apply revng_assert_Done, Nat.eqb_eq in E.
  apply rd_Done, lookup_lt_Some in E0. apply rd_Done, lookup_lt_Some in E1. done.
Qed.

(** The class of the removed nodes has [X] in it. *)
Definition inRemoved (X : nat) (C : VectEqClasses) : Prop :=
  ∃ R, RemovedID C = Some R ∧ X < length (EC C) ∧ R < length (EC C) ∧
       if NumClasses C =? 0 then conn (edge (EC C)) X R
       else EC C !! X = EC C !! R.

Lemma inRemoved_isRemoved (X : nat) (C : VectEqClasses) :
  (NumClasses C = 0 → wfEC (EC C)) →
  inRemoved X C → isRemoved X C = Done true.
Proof.
  intros Hwf (R & HR & HX & HRl & Hc). unfold isRemoved, getNumClasses.
  rewrite HR. destruct (Nat.eqb_spec (NumClasses C) 0) as [HNC | HNC].
  - destruct (conn_findLeader (EC C) X R (Hwf HNC) HX HRl Hc) as (r & Hr1 & Hr2).
    unfold findLeader. rewrite HNC. cbn [Nat.eqb revng_assert obind].
    rewrite Hr1, Hr2. cbn [obind]. by rewrite Nat.eqb_refl.
  - unfold lookupEqClass. rewrite (proj2 (Nat.eqb_neq _ _) HNC).
    cbn [negb revng_assert obind].
    destruct (lookup_lt_is_Some_2 _ _ HX) as [v Hv].
    unfold rd. rewrite <- Hc, Hv. cbn [obind]. by rewrite Nat.eqb_refl.
Qed.

(** ** The equivalence classes along sequences of calls *)

(** What ties the classes to the graph: one entry per identifier handed out,
    the live nodes and the removed sentinel among them, and parent pointers
    as long as the classes are not compressed. *)
Definition classesFit (TS : LayoutTypeSystem) : Prop :=
  length (EC (EqClasses TS)) = NID TS ∧
  NElems (EqClasses TS) = NID TS ∧
  (∀ p, live p TS → p < NID TS) ∧
  (∀ R, RemovedID (EqClasses TS) = Some R → R < NID TS) ∧
  (NumClasses (EqClasses TS) = 0 → wfEC (EC (EqClasses TS))).

Lemma modify_live (p : nat) (f : LayoutTypeSystemNode → LayoutTypeSystemNode)
    (H H' : Heap) (x : nat) :
  modify p f H = Done H' → (is_Some (H' !! x) ↔ is_Some (H !! x)).
Proof.
  intros Hrun. apply modify_Done in Hrun as (n & Hn & ->).
  rewrite lookup_insert. case_decide; [subst|done].
  split; intros; by eexists.
Qed.

(** The calls that leave the classes, the counter and the set of live nodes
    as they are. *)
Definition keepsNodes (TS TS' : LayoutTypeSystem) : Prop :=
  EqClasses TS' = EqClasses TS ∧ NID TS' = NID TS ∧
  ∀ p, live p TS' ↔ live p TS.

Lemma keepsNodes_refl (TS : LayoutTypeSystem) : keepsNodes TS TS.
Proof. by split_and!. Qed.

Lemma keepsNodes_trans (TS1 TS2 TS3 : LayoutTypeSystem) :
  keepsNodes TS1 TS2 → keepsNodes TS2 TS3 → keepsNodes TS1 TS3.
Proof.
  intros (HC1 & HN1 & HL1) (HC2 & HN2 & HL2). split_and!; try congruence.
  intros p. by rewrite HL2.
Qed.

Lemma setLayouts_keepsNodes (TS : LayoutTypeSystem) (H : Heap) :
  (∀ x, is_Some (H !! x) ↔ is_Some (Layouts TS !! x)) →
  keepsNodes TS (setLayouts H TS).
Proof. intros HH. by split_and!. Qed.

Lemma setField_keepsNodes (P : NodePtr) (f : LayoutTypeSystemNode → LayoutTypeSystemNode)
    (TS TS' : LayoutTypeSystem) :
  setField P f TS = Done TS' → keepsNodes TS TS'.
Proof.
  unfold setField. intros Hrun. osplit Hrun. injection Hrun as <-.
  apply setLayouts_keepsNodes. intros x. by eapply modify_live.
Qed.

Lemma addLink_keepsNodes (Src Tgt : NodePtr) (Tag : TypeLinkTag)
    (TS TS' : LayoutTypeSystem) (res : option TypeLinkTag * bool) :
  addLink Src Tgt Tag TS = Done (TS', res) → keepsNodes TS TS'.
Proof.
  intros Hrun. apply addLink_spec in Hrun
    as [(-> & _ & _) |
        (src & tgt & S & Tn & -> & -> & Hne & HS & HTn & HN & HC & _ & HL & _)].
  - apply keepsNodes_refl.
  - split_and!; try done. intros p. unfold live. rewrite HL, !lookup_insert.
    repeat case_decide; subst; try done; split; intros; by eexists.
Qed.

Lemma moveEdge_keepsNodes (OldSrc NewSrc : NodePtr) (e : Link) (d : Z)
    (TS TS' : LayoutTypeSystem) :
  moveEdge OldSrc NewSrc e d TS = Done TS' → keepsNodes TS TS'.
Proof.
  unfold moveEdge. intros Hrun.
  destruct OldSrc as [o|]; [|injection Hrun as <-; apply keepsNodes_refl].
  destruct NewSrc as [n|]; [|injection Hrun as <-; apply keepsNodes_refl].
  destruct (d =? 0)%Z.
  - osplit Hrun. injection Hrun as <-. apply setLayouts_keepsNodes.
    unfold moveEdgeWithoutSumming in E. osplit E. intros x.
    rewrite (modify_live _ _ _ _ x E), (modify_live _ _ _ _ x E5).
    by rewrite (modify_live _ _ _ _ x E2).
  - osplit Hrun. destruct v2 as [TS2 res]. osplit Hrun. injection Hrun as <-.
    assert (Hadd : ∃ Tag H1, addLink (Some n) (Some e.1) Tag
                            (setLayouts H1 TS) = Done (TS2, res) ∧
                            ∀ x, is_Some (H1 !! x) ↔ is_Some (Layouts TS !! x)).
    { assert (Hl : ∀ x, is_Some (v1 !! x) ↔ is_Some (Layouts TS !! x))
        by (intros x; by eapply modify_live).
      destruct (getKind e.2); try done.
      - destruct (0 <? d)%Z; by eexists _, _.
      - osplit E2. by eexists _, _. }
    destruct Hadd as (Tag & H1 & Hadd & Hl). apply addLink_keepsNodes in Hadd.
    eapply keepsNodes_trans;
      [|eapply keepsNodes_trans; [exact Hadd|]].
    + by apply setLayouts_keepsNodes.
    + apply setLayouts_keepsNodes. intros x. by eapply modify_live.
Qed.

Lemma classesFit_keepsNodes (TS TS' : LayoutTypeSystem) :
  keepsNodes TS TS' → classesFit TS → classesFit TS'.
Proof.
  intros (HC & HN & HL) (H1 & H2 & H3 & H4 & H5).
  unfold classesFit. rewrite HC, HN. split_and!; try done.
  intros p Hp. apply H3. by apply HL.
Qed.

Lemma createArtificialLayoutType_spec (TS TS' : LayoutTypeSystem) (New : nat) :
  classesFit TS →
  createArtificialLayoutType TS = Done (TS', New) →
  New = NID TS ∧ NID TS' = S (NID TS) ∧
  Layouts TS' = <[NID TS := newNode]> (Layouts TS) ∧
  LinkTags TS' = LinkTags TS ∧
  NumClasses (EqClasses TS) = 0 ∧
  EqClasses TS' = mkVEC (EC (EqClasses TS) ++ [length (EC (EqClasses TS))]) 0
                        (RemovedID (EqClasses TS)) (S (NElems (EqClasses TS))).
Proof.
  intros (Hlen & HNE & _) Hrun. unfold createArtificialLayoutType in Hrun.
  osplit Hrun. destruct v0 as [C r]. osplit Hrun. injection Hrun as <- <-.
  unfold growBy1 in E0. osplit E0. injection E0 as <- <-.
  unfold grow in E2. osplit E2. injection E2 as <-.
  apply revng_assert_Done in E0. cbn [NumClasses] in E0. apply Nat.eqb_eq in E0.
  cbn [NID Layouts LinkTags EqClasses]. split_and!; try done.
  unfold setEC. cbn [EC NumClasses RemovedID NElems]. rewrite E0. f_equal.
  rewrite Hlen, HNE. replace (S (NID TS) - NID TS) with 1 by lia. done.
Qed.

Lemma create_classesFit (TS TS' : LayoutTypeSystem) (New : nat) :
  createArtificialLayoutType TS = Done (TS', New) →
  classesFit TS → classesFit TS'.
Proof.
  intros Hrun Hfit.
  destruct (createArtificialLayoutType_spec _ _ _ Hfit Hrun)
    as (_ & HN & HL & _ & HNC & HC).
  destruct Hfit as (Hlen & HNE & Hlive & HR & Hwf).
  unfold classesFit. rewrite HC, HN. simpl. split_and!.
  - rewrite length_app. simpl. lia.
  - lia.
  - intros p [N Hp]. rewrite HL, lookup_insert in Hp. case_decide; [lia|].
    assert (p < NID TS) by (apply Hlive; by eexists). lia.
  - intros R HRem. specialize (HR R HRem). lia.
  - intros _. apply wfEC_snoc. by apply Hwf.
Qed.

Lemma create_inRemoved (TS TS' : LayoutTypeSystem) (New X : nat) :
  classesFit TS →
  createArtificialLayoutType TS = Done (TS', New) →
  inRemoved X (EqClasses TS) → inRemoved X (EqClasses TS').
Proof.
  intros Hfit Hrun (R & HR & HX & HRl & Hc).
  destruct (createArtificialLayoutType_spec _ _ _ Hfit Hrun)
    as (_ & _ & _ & _ & HNC & HC).
  rewrite HC. exists R. simpl. rewrite length_app. simpl.
  split_and!; try done; try lia.
  rewrite HNC in Hc. simpl in Hc. by apply conn_snoc.
Qed.

Lemma conn_edgePlus (E : list nat) (a b x y : nat) :
  conn (edge E) x y → conn (edgePlus E a b) x y.
Proof. apply conn_mono. intros u v Huv. apply conn_base. by left. Qed.

Lemma join_classes (a b : nat) (C C' : VectEqClasses) (r : nat) :
  (NumClasses C = 0 → wfEC (EC C)) →
  join a b C = Done (C', r) →
  NumClasses C = 0 ∧ a < length (EC C) ∧ b < length (EC C) ∧
  NumClasses C' = 0 ∧ RemovedID C' = RemovedID C ∧ NElems C' = NElems C ∧
  wfEC (EC C') ∧ length (EC C') = length (EC C) ∧
  ∀ x y, conn (edge (EC C')) x y ↔ conn (edgePlus (EC C) a b) x y.
Proof.
  intros Hwf Hrun. destruct (join_Done _ _ _ _ _ Hrun) as (HNC & Ha & Hb).
  destruct (join_spec a b C HNC (Hwf HNC) Ha Hb) as (E' & r' & Hrun' & Hwf' & Hlen & Hc).
  rewrite Hrun in Hrun'. injection Hrun' as -> ->. by split_and!.
Qed.

Lemma mergeStep_classes (i : nat) (From : NodePtr) (TS TS' : LayoutTypeSystem) :
  mergeStep i From TS = Done TS' → classesFit TS →
  classesFit TS' ∧
  ∀ X, inRemoved X (EqClasses TS) → inRemoved X (EqClasses TS').
Proof.
  intros Hrun (Hlen & HNE & Hlive & HR & Hwf).
  apply mergeStep_spec in Hrun
    as (f & F & I & C & r & -> & Hne & HF & HI & Hjoin & _ & HN & _ & HC & Hmerged).
  destruct (join_classes _ _ _ _ _ Hwf Hjoin)
    as (HNC & Hi & Hf & HNC' & HR' & HNE' & Hwf' & Hlen' & Hconn).
  rewrite HC. split.
  - unfold classesFit. rewrite HC, HN, HR', HNE', Hlen'. split_and!; try done.
    intros p [P Hp]. apply Hlive. destruct Hmerged as (Hf' & Hi' & Hoth).
    destruct (decide (p = i)) as [-> | Hpi]; [by eexists|].
    destruct (decide (p = f)) as [-> | Hpf]; [congruence|].
    rewrite Hoth in Hp by done. unfold live.
    destruct (Layouts TS !! p); [by eexists | done].
  - intros X (R & HRem & HX & HRl & Hc). exists R.
    rewrite HR', Hlen', HNC'. split_and!; try done.
    rewrite HNC in Hc. simpl in *. apply Hconn. by apply conn_edgePlus.
Qed.

Lemma remove_classes (A : nat) (C C' : VectEqClasses) :
  (NumClasses C = 0 → wfEC (EC C)) → A < length (EC C) →
  (∀ R, RemovedID C = Some R → R < length (EC C)) →
  remove A C = Done C' →
  NumClasses C' = NumClasses C ∧ NElems C' = NElems C ∧
  length (EC C') = length (EC C) ∧
  (NumClasses C' = 0 → wfEC (EC C')) ∧
  (∃ R, RemovedID C' = Some R ∧ R < length (EC C') ∧
        ∀ R0, RemovedID C = Some R0 → R = R0) ∧
  inRemoved A C' ∧
  ∀ X, inRemoved X C → inRemoved X C'.
Proof.
  intros Hwf HA HRl. unfold remove. destruct (RemovedID C) as [R|] eqn:HR.
  - intros Hrun. osplit Hrun. destruct v as [C1 r]. injection Hrun as <-.
    destruct (join_classes _ _ _ _ _ Hwf E)
      as (HNC & _ & HRlt & HNC' & HR' & HNE' & Hwf' & Hlen' & Hconn).
    rewrite HNC', HNC, HNE', Hlen', HR', HR. split_and!; try done.
    + exists R. split_and!; try done. by intros R0 [= <-].
    + exists R. rewrite HR', HR, Hlen', HNC'. split_and!; try done.
      simpl. apply Hconn. apply conn_base. by right.
    + intros X (R0 & HRem & HX & HR0 & Hc).
      rewrite HR in HRem. injection HRem as <-.
      exists R. rewrite HR', HR, Hlen', HNC'. split_and!; try done.
      rewrite HNC in Hc. simpl in *. apply Hconn. by apply conn_edgePlus.
  - intros [= <-]. simpl. split_and!; try done.
    + exists A. by split_and!.
    + exists A. simpl. split_and!; try done.
      destruct (NumClasses C =? 0); [apply conn_refl | done].
    + intros X (R0 & HRem & _). congruence.
Qed.

Lemma removeNode_classes (P : NodePtr) (TS TS' : LayoutTypeSystem) :
  removeNode P TS = Done TS' → classesFit TS →
  classesFit TS' ∧
  (∀ A, P = Some A → inRemoved A (EqClasses TS')) ∧
  ∀ X, inRemoved X (EqClasses TS) → inRemoved X (EqClasses TS').
Proof.
  intros Hrun (Hlen & HNE & Hlive & HR & Hwf).
  apply removeNode_spec in Hrun
    as (r & R & C & -> & HRn & Hrem & HN & _ & HC & Hremoved).
  assert (Hr : r < length (EC (EqClasses TS))).
  { rewrite Hlen. apply Hlive. by eexists. }
  destruct (remove_classes r (EqClasses TS) C Hwf Hr)
    as (HNC' & HNE' & Hlen' & Hwf' & (R1 & HR1 & HR1l & _) & HinA & Hmono);
    [by rewrite Hlen | done |].
  rewrite HC. split_and!.
  - unfold classesFit. rewrite HC, HN, HNE', Hlen'. split_and!; try done.
    + intros p [N Hp]. apply Hlive. destruct Hremoved as [Hgone Hoth].
      destruct (decide (p = r)) as [-> | Hpr]; [congruence|].
      rewrite Hoth in Hp by done. unfold live.
      destruct (Layouts TS !! p); [by eexists | done].
    + intros R0 HR0. rewrite HR1 in HR0. injection HR0 as <-. lia.
  - by intros A [= <-].
  - done.
Qed.

Lemma compress_classes (C C' : VectEqClasses) :
  (NumClasses C = 0 → wfEC (EC C)) →
  compress C = Done C' →
  RemovedID C' = RemovedID C ∧ NElems C' = NElems C ∧
  length (EC C') = length (EC C) ∧
  (NumClasses C' = 0 → wfEC (EC C')) ∧
  ∀ X, inRemoved X C → inRemoved X C'.
Proof.
  intros Hwf. unfold compress.
  destruct (Nat.eqb_spec (NumClasses C) 0) as [HNC | HNC].
  - destruct (compress_loop_classes (EC C) (Hwf HNC))
      as (E' & NC' & Hrun & Hlen & Hpos & Hcl).
    rewrite Hrun. simpl. intros [= <-]. simpl. split_and!; try done.
    + intros ->. destruct (EC C) as [|e E] eqn:HE.
      * destruct E'; [|done]. by intros i v Hi.
      * simpl in Hpos. lia.
    + intros X (R & HR & HX & HRl & Hc). exists R. simpl. rewrite Hlen.
      split_and!; try done.
      rewrite HNC in Hc. simpl in Hc.
      assert (0 < NC') as HNC' by (apply Hpos; lia).
      rewrite (proj2 (Nat.eqb_neq NC' 0)) by lia. by apply Hcl.
  - by intros [= <-].
Qed.

Lemma run_classes (o : Op) (TS TS' : LayoutTypeSystem) :
  run o TS = Done TS' → classesFit TS →
  classesFit TS' ∧
  ∀ X, inRemoved X (EqClasses TS) → inRemoved X (EqClasses TS').
Proof.
  assert (Hkeep : ∀ TS TS', keepsNodes TS TS' → classesFit TS →
            classesFit TS' ∧
            ∀ X, inRemoved X (EqClasses TS) → inRemoved X (EqClasses TS')).
  { intros TS0 TS1 Hk Hfit. split; [by eapply classesFit_keepsNodes|].
    destruct Hk as (-> & _). done. }
  intros Hrun Hfit. destruct o; simpl in Hrun.
  - unfold fstO in Hrun. osplit Hrun. destruct v as [TS1 New]. injection Hrun as <-.
    split; [by eapply create_classesFit|]. intros X. by eapply create_inRemoved.
  - apply Hkeep; [|done]. by eapply setField_keepsNodes.
  - apply Hkeep; [|done]. by eapply setField_keepsNodes.
  - apply Hkeep; [|done].
    unfold fstO, addEqualityLink in Hrun. osplit Hrun. destruct v as [TS2 r].
    osplit E. destruct v as [TS1 Fwd]. osplit E. destruct v as [TS3 Bwd]. osplit E.
    injection E as <- <-. injection Hrun as <-.
    eapply keepsNodes_trans; by eapply addLink_keepsNodes.
  - apply Hkeep; [|done].
    unfold fstO in Hrun. osplit Hrun. destruct v as [TS1 r]. injection Hrun as <-.
    by eapply addLink_keepsNodes.
  - apply Hkeep; [|done].
    unfold fstO in Hrun. osplit Hrun. destruct v as [TS1 r]. injection Hrun as <-.
    by eapply addLink_keepsNodes.
  - apply Hkeep; [|done].
    unfold fstO in Hrun. osplit Hrun. destruct v as [TS1 r]. injection Hrun as <-.
    by eapply addLink_keepsNodes.
  - unfold mergeNodes in Hrun. osplit Hrun. destruct ToMerge as [|Into Rest]; [done|].
    osplit Hrun. clear E E0 E1. revert TS Hrun Hfit.
    induction Rest as [|From Rest IH]; intros TS Hrun Hfit; simpl in Hrun.
    + by injection Hrun as <-.
    + apply obind_Done in Hrun as (TS1 & Hstep & Hrun).
      destruct (mergeStep_classes _ _ _ _ Hstep Hfit) as [Hfit1 Hmono1].
      destruct (IH TS1 Hrun Hfit1) as [Hfit' Hmono']. split; [done|].
      intros X HX. by apply Hmono', Hmono1.
  - destruct (removeNode_classes _ _ _ Hrun Hfit) as (Hfit' & _ & Hmono). done.
  - apply Hkeep; [|done]. by eapply moveEdge_keepsNodes.
  - osplit Hrun. injection Hrun as <-. rename v into C.
    destruct Hfit as (Hlen & HNE & Hlive & HR & Hwf).
    destruct (compress_classes _ _ Hwf E) as (HR' & HNE' & Hlen' & Hwf' & Hmono).
    split; [|done]. unfold classesFit. simpl. rewrite HR', HNE', Hlen'. done.
Qed.

Lemma reachable_classesFit (TS : LayoutTypeSystem) : reachable TS → classesFit TS.
Proof.
  intros Hreach. induction Hreach as [|o TS TS' _ IH _ Hrun].
  - unfold classesFit. simpl. split_and!; try done.
    intros p [N Hp]. simpl in Hp. by rewrite lookup_empty in Hp.
  - by destruct (run_classes _ _ _ Hrun IH).
Qed.

Lemma runAll_classes (ops : list Op) (TS TS' : LayoutTypeSystem) (X : nat) :
  runAll ops TS = Done TS' → classesFit TS → inRemoved X (EqClasses TS) →
  classesFit TS' ∧ inRemoved X (EqClasses TS').
Proof.
  unfold runAll. revert TS.
  induction ops as [|o ops IH]; intros TS Hrun Hfit HX; simpl in Hrun.
  - by injection Hrun as <-.
  - apply obind_Done in Hrun as (TS1 & Hstep & Hrun).
    destruct (run_classes _ _ _ Hstep Hfit) as [Hfit1 Hmono].
    apply (IH TS1); auto.
Qed.

Lemma join_RemovedID (a b : nat) (C C' : VectEqClasses) (r : nat) :
  join a b C = Done (C', r) → RemovedID C' = RemovedID C.
Proof.
  unfold join. intros Hrun. osplit Hrun. destruct v2 as [E' r'].
  by injection Hrun as <- <-.
Qed.

Lemma run_RemovedID (o : Op) (TS TS' : LayoutTypeSystem) (R : nat) :
  run o TS = Done TS' →
  RemovedID (EqClasses TS) = Some R → RemovedID (EqClasses TS') = Some R.
Proof.
  assert (Hkeep : ∀ TS TS', keepsNodes TS TS' →
            RemovedID (EqClasses TS) = Some R → RemovedID (EqClasses TS') = Some R).
  { by intros TS0 TS1 (-> & _). }
  intros Hrun HR. destruct o; simpl in Hrun.
  - unfold fstO, createArtificialLayoutType in Hrun. osplit Hrun.
    destruct v as [TS1 New]. injection Hrun as <-.
    osplit E. destruct v0 as [C r]. osplit E. injection E as <- <-.
    unfold growBy1 in E1. osplit E1. injection E1 as <- <-.
    unfold grow in E. osplit E. by injection E as <-.
  - eapply Hkeep; [|done]. by eapply setField_keepsNodes.
  - eapply Hkeep; [|done]. by eapply setField_keepsNodes.
  - eapply Hkeep; [|done].
    unfold fstO, addEqualityLink in Hrun. osplit Hrun. destruct v as [TS2 r].
    osplit E. destruct v as [TS1 Fwd]. osplit E. destruct v as [TS3 Bwd]. osplit E.
    injection E as <- <-. injection Hrun as <-.
    eapply keepsNodes_trans; by eapply addLink_keepsNodes.
  - eapply Hkeep; [|done].
    unfold fstO in Hrun. osplit Hrun. destruct v as [TS1 r]. injection Hrun as <-.
    by eapply addLink_keepsNodes.
  - eapply Hkeep; [|done].
    unfold fstO in Hrun. osplit Hrun. destruct v as [TS1 r]. injection Hrun as <-.
    by eapply addLink_keepsNodes.
  - eapply Hkeep; [|done].
    unfold fstO in Hrun. osplit Hrun. destruct v as [TS1 r]. injection Hrun as <-.
    by eapply addLink_keepsNodes.
  - unfold mergeNodes in Hrun. osplit Hrun. destruct ToMerge as [|Into Rest]; [done|].
    osplit Hrun.
    eapply (forEach_preserves (fun TS => RemovedID (EqClasses TS) = Some R));
      [|done|done].
    intros From t t' Hstep Ht.
    apply mergeStep_spec in Hstep
      as (f & F & I & C & r & _ & _ & _ & _ & Hjoin & _ & _ & _ & -> & _).
    by rewrite (join_RemovedID _ _ _ _ _ Hjoin).
  - apply removeNode_spec in Hrun as (r & N & C & _ & _ & Hrem & _ & _ & -> & _).
    unfold remove in Hrem. rewrite HR in Hrem. osplit Hrem.
    destruct v as [C1 r1]. injection Hrem as <-.
    by rewrite (join_RemovedID _ _ _ _ _ E).
  - eapply Hkeep; [|done]. by eapply moveEdge_keepsNodes.
  - osplit Hrun. injection Hrun as <-. simpl. unfold compress in E.
    destruct (NumClasses (EqClasses TS) =? 0).
    + osplit E. destruct v0 as [E' NC]. by injection E as <-.
    + by injection E as <-.
Qed.

(** C8: after [removeNode(A)] in a state reached through the public API,
    [isRemoved] applied to the identifier of [A] returns true; the
    compression of the classes returns, and [isRemoved] still returns true
    after it, as it does after any further calls, compressions among them;
    and no call changes a removed sentinel that has been set. *)
Theorem isRemoved_after_removeNode (TS TS' : LayoutTypeSystem) (A : nat) :
  reachable TS →
  removeNode (Some A) TS = Done TS' →
  isRemoved A (EqClasses TS') = Done true ∧
  (∃ C, compress (EqClasses TS') = Done C ∧ isRemoved A C = Done true) ∧
  (∀ ops TS'', runAll ops TS' = Done TS'' →
     isRemoved A (EqClasses TS'') = Done true) ∧
  (∀ o TS1 TS2 R, run o TS1 = Done TS2 →
     RemovedID (EqClasses TS1) = Some R → RemovedID (EqClasses TS2) = Some R).
Proof.
  intros Hreach Hrun. pose proof (reachable_classesFit TS Hreach) as Hfit.
  destruct (removeNode_classes _ _ _ Hrun Hfit) as (Hfit' & HA & _).
  specialize (HA A eq_refl).
  pose proof Hfit' as (_ & _ & _ & _ & Hwf').
  split_and!.
  - by apply inRemoved_isRemoved.
  - assert (∃ C, compress (EqClasses TS') = Done C) as [C HC].
    { unfold compress. destruct (Nat.eqb_spec (NumClasses (EqClasses TS')) 0) as [HNC|];
        [|by eexists].
      destruct (compress_loop_classes _ (Hwf' HNC)) as (E' & NC' & Hloop & _).
      rewrite Hloop. by eexists. }
    exists C. split; [done|].
    destruct (compress_classes _ _ Hwf' HC) as (_ & _ & _ & HwfC & Hmono).
    apply inRemoved_isRemoved; [done|]. by apply Hmono.
  - intros ops TS'' Hops.
    destruct (runAll_classes ops TS' TS'' A Hops Hfit' HA) as [Hfit'' HA''].
    apply inRemoved_isRemoved; [|done]. by destruct Hfit'' as (_ & _ & _ & _ & ?).
  - intros o TS1 TS2 R. apply run_RemovedID.
Qed.

(** Three nodes; node 1 is removed first, so that the removal of node 2
    joins it with the removed sentinel. *)
Definition removedOne : list Op :=
  [OpCreate; OpCreate; OpCreate; OpRemoveNode (Some 1)].

Lemma isRemoved_after_removeNode_witness :
  let TS' := stateAfter (removedOne ++ [OpRemoveNode (Some 2)]) in
  isRemoved 2 (EqClasses TS') = Done true ∧
  (∃ C, compress (EqClasses TS') = Done C ∧ isRemoved 2 C = Done true) ∧
  (∀ ops TS'', runAll ops TS' = Done TS'' →
     isRemoved 2 (EqClasses TS'') = Done true) ∧
  (∀ o TS1 TS2 R, run o TS1 = Done TS2 →
     RemovedID (EqClasses TS1) = Some R → RemovedID (EqClasses TS2) = Some R).
Proof.
  intros TS'. apply (isRemoved_after_removeNode (stateAfter removedOne) TS' 2).
  - apply reachable_stateAfter.
  - vm_compute. reflexivity.
Defined.

(** ** [removeNode] returns *)

Lemma reachableBy_reachable (ok : Op → LayoutTypeSystem → Prop) (TS : LayoutTypeSystem) :
  reachableBy ok TS → reachable TS.
Proof.
  intros Hreach. induction Hreach as [|o TS TS' _ IH _ Hrun]; [apply reach_empty|].
  by apply (reach_step _ o TS TS').
Qed.

(** In a state reached without the call of [moveEdge] that loses a
    predecessor entry, and whose classes are not compressed, [removeNode]
    of a live node returns. *)
Lemma removeNode_returns (TS : LayoutTypeSystem) (n : nat) :
  reachableBy noMoveOntoItself TS → NumClasses (EqClasses TS) = 0 → live n TS →
  ∃ TS', removeNode (Some n) TS = Done TS'.
Proof.
  intros Hreach HNC Hlive.
  pose proof (reachable_mirrored TS Hreach) as Hm.
  pose proof (reachable_classesFit TS (reachableBy_reachable _ _ Hreach))
    as (Hlen & _ & Hlt & HR & Hwf).
  pose proof Hlive as [R HRn].
  assert (Hnb : ∀ x, (x ∈ nbrs (Successors R) → is_Some (Layouts TS !! x)) ∧
                     (x ∈ nbrs (Predecessors R) → is_Some (Layouts TS !! x))).
  { intros x. split; intros [T HT]%elem_of_nbrs.
    - destruct (Hm n x T Hlive) as [H1 _]. apply H1. unfold succs. by rewrite HRn.
    - destruct (Hm n x T Hlive) as [_ H2]. apply H2. unfold preds. by rewrite HRn. }
  assert (∃ C, remove n (EqClasses TS) = Done C) as [C HC].
  { unfold remove. destruct (RemovedID (EqClasses TS)) as [R0|] eqn:HR0; [|by eexists].
    destruct (join_spec n R0 (EqClasses TS)) as (E' & r & Hj & _); auto.
    - rewrite Hlen. by apply Hlt.
    - rewrite Hlen. by apply HR.
    - rewrite Hj. by eexists. }
  assert (Hid1 : ∀ N, setPredecessors (eraseEntriesOf n) (setPredecessors (eraseEntriesOf n) N)
                      = setPredecessors (eraseEntriesOf n) N).
  { intros N. unfold setPredecessors. simpl. by rewrite eraseEntriesOf_idem. }
  assert (Hid2 : ∀ N, setSuccessors (eraseEntriesOf n) (setSuccessors (eraseEntriesOf n) N)
                      = setSuccessors (eraseEntriesOf n) N).
  { intros N. unfold setSuccessors. simpl. by rewrite eraseEntriesOf_idem. }
  destruct (forEach_modify_total (elements (Successors R))
              (setPredecessors (eraseEntriesOf n)) (Layouts TS)) as [H1 HH1].
  { intros x Hx. by apply (proj1 (Hnb x)), elem_of_elements_fst. }
  destruct (forEach_neighbours_lookup _ _ _ _ Hid1 HH1) as [_ Hlook1].
  assert (Hdom1 : ∀ x, is_Some (Layouts TS !! x) → is_Some (H1 !! x)).
  { intros x Hx. rewrite Hlook1. case_decide; [by apply fmap_is_Some | done]. }
  destruct (Hdom1 n Hlive) as [R1 HR1].
  assert (HP1 : Predecessors R1 ⊆ Predecessors R).
  { rewrite Hlook1, HRn in HR1. case_decide; injection HR1 as <-; [|done].
    cbn [setPredecessors Predecessors]. intros [b T]. rewrite elem_of_eraseEntriesOf. tauto. }
  destruct (forEach_modify_total (elements (Predecessors R1))
              (setSuccessors (eraseEntriesOf n)) H1) as [H2 HH2].
  { intros x Hx. apply Hdom1, (proj2 (Hnb x)).
    apply elem_of_elements_fst, elem_of_nbrs in Hx as [T HT].
    apply elem_of_nbrs. exists T. by apply HP1. }
  destruct (forEach_neighbours_lookup _ _ _ _ Hid2 HH2) as [_ Hlook2].
  assert (Hn2 : is_Some (H2 !! n)).
  { rewrite Hlook2. case_decide; [apply fmap_is_Some|]; by eexists. }
  unfold removeNode. cbn [deref obind]. rewrite (load_Some _ _ _ HRn). cbn [obind].
  rewrite HC. cbn [obind].
  match goal with
  | |- ∃ TS', obind ?m ?k = Done TS' =>
      assert (He : m = Done H1) by exact HH1; rewrite He; clear He
  end.
  cbn [obind]. rewrite (load_Some _ _ _ HR1). cbn [obind].
  match goal with
  | |- ∃ TS', obind ?m ?k = Done TS' =>
      assert (He : m = Done H2) by exact HH2; rewrite He; clear He
  end.
  cbn [obind].
  rewrite (bool_decide_eq_true_2 _ Hn2). cbn [revng_assert obind]. by eexists.
Qed.

(** * The verification suite and the predicates on nodes *)

(** ** Predicates on edges and nodes (DLATypeSystem.h) *)

(** [hasLinkKind<K>] *)
Definition hasLinkKind (K : LinkKind) (L : Link) : bool :=
  match K with
  | LK_All => true
  | _ => bool_decide (getKind L.2 = K)
  end.

Definition isEqualityEdge (E : Link) : bool := hasLinkKind LK_Equality E.
Definition isInheritanceEdge (E : Link) : bool := hasLinkKind LK_Inheritance E.
Definition isInstanceEdge (E : Link) : bool := hasLinkKind LK_Instance E.
Definition isPointerEdge (E : Link) : bool := hasLinkKind LK_Pointer E.
Definition isNotPointerEdge (E : Link) : bool := negb (isPointerEdge E).

(** [isInstanceOff0] reads the offset expression through [getOffsetExpr],
    which asserts that the tag is an instance tag. *)
Definition isInstanceOff0 (E : Link) : outcome bool :=
  if negb (isInstanceEdge E) then Done false
  else
    OE ←! getOffsetExpr E.2;
    Done ((Offset OE =? 0)%Z && bool_decide (Strides OE = [])
          && bool_decide (TripCounts OE = [])).

Definition isInstanceOffNon0 (E : Link) : outcome bool :=
  if isInstanceEdge E then b ←! isInstanceOff0 E; Done (negb b) else Done false.

(** [llvm::any_of] over a [NeighborsSet] *)
Definition any_of (P : Link → bool) (S : gset Link) : bool :=
  existsb P (elements S).

Definition isPointerNode (N : LayoutTypeSystemNode) : bool :=
  any_of isPointerEdge (Successors N).

Definition isStructNode (N : LayoutTypeSystemNode) : bool :=
  bool_decide (InterferingInfo N = AllChildrenAreNonInterfering)
  && any_of isNotPointerEdge (Successors N).

Definition isUnionNode (N : LayoutTypeSystemNode) : bool :=
  bool_decide (InterferingInfo N = AllChildrenAreInterfering).

Definition hasInheritanceParent (N : LayoutTypeSystemNode) : bool :=
  any_of isInheritanceEdge (Predecessors N).

(** The children of a node in an [EdgeFilteredGraph]: the successor
    entries on which the predicate holds, in the order of the set. *)
Definition filteredChildren (P : Link → bool) (N : LayoutTypeSystemNode) : list Link :=
  filter (fun L => P L = true) (elements (Successors N)).
Definition filteredParents (P : Link → bool) (N : LayoutTypeSystemNode) : list Link :=
  filter (fun L => P L = true) (elements (Predecessors N)).

Definition isInheritanceLeaf (N : LayoutTypeSystemNode) : bool := isLeaf LK_Inheritance N.
Definition isInstanceLeaf (N : LayoutTypeSystemNode) : bool := isLeaf LK_Instance N.
Definition isPointerLeaf (N : LayoutTypeSystemNode) : bool :=
  bool_decide (filteredChildren isPointerEdge N = []).

(** [isRoot<K>] *)
Definition isRoot (K : LinkKind) (N : LayoutTypeSystemNode) : bool :=
  bool_decide (filteredParents (hasNonPointerLinkKind K) N = []).
Definition isInheritanceRoot (N : LayoutTypeSystemNode) : bool := isRoot LK_Inheritance N.
Definition isInstanceRoot (N : LayoutTypeSystemNode) : bool := isRoot LK_Instance N.
Definition isPointerRoot (N : LayoutTypeSystemNode) : bool :=
  bool_decide (filteredParents isPointerEdge N = []).

(** ** The verification suite (DLATypeSystem.cpp) *)

(** What every check does where it fails:
    [if (VerifyDLALog.isEnabled()) revng_check(false); return false;] *)
Definition failed (VerifyDLALog : bool) : outcome bool :=
  _ ←! (if VerifyDLALog then revng_assert false else Done tt);
  Done false.

(** A loop that returns [false] from the function at the first element on
    which the body does, and falls through otherwise. *)
Fixpoint forallO {A : Type} (body : A → outcome bool) (l : list A) : outcome bool :=
  match l with
  | [] => Done true
  | x :: l' => b ←! body x; if b then forallO body l' else Done false
  end.

Definition UINT_MAX : N := 4294967295.

(** The last loop of [verifyConsistency] over the successors of a node:
    [NonPtrChildren] is an [unsigned]. *)
Fixpoint pointerOrStruct_loop (VerifyDLALog : bool) (edges : list Link)
    (NonPtrChildren : N) (IsPointer : bool) : outcome bool :=
  match edges with
  | [] => Done true
  | Edge :: rest =>
      let IsPointer := if isPointerEdge Edge then true else IsPointer in
      let NonPtrChildren :=
        if isPointerEdge Edge then NonPtrChildren
        else if isInheritanceEdge Edge || isInstanceEdge Edge
             then ((NonPtrChildren + 1) mod (UINT_MAX + 1))%N
             else NonPtrChildren in
      if IsPointer && (0 <? NonPtrChildren)%N then failed VerifyDLALog
      else pointerOrStruct_loop VerifyDLALog rest NonPtrChildren IsPointer
  end.

(** The body of the loop of [verifyConsistency] over the nodes.  The
    pointers of a link are never null here, a link being built from a node
    identifier. *)
Definition verifyNode (VerifyDLALog : bool) (H : Heap)
    (p : nat) (NodePtr : LayoutTypeSystemNode) : outcome bool :=
  b ←! forallO (fun P : Link =>
         Q ←! load H P.1;
         if bool_decide ((p, P.2) ∈ Successors Q) then Done true
         else failed VerifyDLALog) (elements (Predecessors NodePtr));
  if negb b then Done false else
  b ←! forallO (fun P : Link =>
         Q ←! load H P.1;
         if bool_decide ((p, P.2) ∈ Predecessors Q) then Done true
         else failed VerifyDLALog) (elements (Successors NodePtr));
  if negb b then Done false else
  b ←! forallO (fun P : Link =>
         if bool_decide (P.1 = p) then failed VerifyDLALog else Done true)
       (elements (Predecessors NodePtr));
  if negb b then Done false else
  b ←! forallO (fun P : Link =>
         if bool_decide (P.1 = p) then failed VerifyDLALog else Done true)
       (elements (Successors NodePtr));
  if negb b then Done false else
  pointerOrStruct_loop VerifyDLALog (elements (Successors NodePtr)) 0 false.

Definition verifyConsistency (VerifyDLALog : bool) (TS : LayoutTypeSystem)
    : outcome bool :=
  forallO (fun '(p, NodePtr) => verifyNode VerifyDLALog (Layouts TS) p NodePtr)
          (map_to_list (Layouts TS)).

Definition verifyNoEquality (VerifyDLALog : bool) (TS : LayoutTypeSystem)
    : outcome bool :=
  b ←! verifyConsistency VerifyDLALog TS;
  if negb b then Done false else
  forallO (fun '(_, Node) =>
             forallO (fun Edge : Link =>
                        if isEqualityEdge Edge then failed VerifyDLALog else Done true)
                     (elements (Successors Node)))
          (map_to_list (Layouts TS)).

Definition verifyInheritanceTree (VerifyDLALog : bool) (TS : LayoutTypeSystem)
    : outcome bool :=
  forallO (fun '(_, Node) =>
             match filteredChildren isInheritanceEdge Node with
             | _ :: _ :: _ => failed VerifyDLALog
             | _ => Done true
             end)
          (map_to_list (Layouts TS)).

Definition verifyUnions (VerifyDLALog : bool) (TS : LayoutTypeSystem)
    : outcome bool :=
  forallO (fun '(_, Node) =>
             if bool_decide (InterferingInfo Node = AllChildrenAreInterfering)
                && (size (Successors Node) <=? 1)
             then failed VerifyDLALog else Done true)
          (map_to_list (Layouts TS)).

(** [llvm::any_of] with a predicate that can trip an assertion. *)
Fixpoint any_ofO (P : Link → outcome bool) (l : list Link) : outcome bool :=
  match l with
  | [] => Done false
  | x :: l' => b ←! P x; if b then Done true else any_ofO P l'
  end.

Definition verifyConflicts (VerifyDLALog : bool) (TS : LayoutTypeSystem)
    : outcome bool :=
  forallO (fun '(_, Node) =>
             forallO (fun Succ : Link =>
                        let HasSameSuccAtOffset0 (L2 : Link) :=
                          b ←! isInstanceOff0 L2;
                          Done (b && bool_decide (Succ.1 = L2.1)) in
                        if isInheritanceEdge Succ then
                          c ←! any_ofO HasSameSuccAtOffset0 (elements (Successors Node));
                          if c then failed VerifyDLALog else Done true
                        else Done true)
                     (elements (Successors Node)))
          (map_to_list (Layouts TS)).

(** ** Reasoning about the checks *)

Lemma failed_not_true (strict : bool) : failed strict ≠ Done true.
Proof. by destruct strict. Qed.

Lemma forallO_true {A : Type} (body : A → outcome bool) (l : list A) :
  forallO body l = Done true ↔ ∀ x, x ∈ l → body x = Done true.
Proof.
  induction l as [|x l IH]; simpl.
  - split; [|done]. intros _ x Hx. by apply elem_of_nil in Hx.
  - rewrite obind_Done. split.
    + intros ([] & Hx & Hl); [|done]. intros y [-> | Hy]%elem_of_cons; [done|].
      by apply IH.
    + intros Hall. exists true. split; [apply Hall; by left|].
      apply IH. intros y Hy. apply Hall. by right.
Qed.

Lemma forallO_false {A : Type} (body : A → outcome bool) (l : list A) :
  forallO body l = Done false → ∃ x, x ∈ l ∧ body x = Done false.
Proof.
  induction l as [|x l IH]; simpl; [done|].
  rewrite obind_Done. intros ([] & Hx & Hl).
  - destruct (IH Hl) as (y & Hy & Hb). exists y. split; [by right | done].
  - exists x. split; [by left | done].
Qed.

Lemma forallO_returns {A : Type} (body : A → outcome bool) (l : list A) :
  (∀ x, x ∈ l → ∃ b, body x = Done b) → ∃ b, forallO body l = Done b.
Proof.
  induction l as [|x l IH]; intros Hall; simpl; [by eexists|].
  destruct (Hall x) as [[] Hx]; [by left| |]; rewrite Hx; simpl; [|by eexists].
  apply IH. intros y Hy. apply Hall. by right.
Qed.

(** What the strict logger makes of a result. *)
Definition strictly (r : outcome bool) : outcome bool :=
  match r with
  | Done false => Fatal
  | _ => r
  end.

Lemma strictly_bind {A : Type} (m : outcome A) (k k' : A → outcome bool) :
  (∀ a, k' a = strictly (k a)) → obind m k' = strictly (obind m k).
Proof. intros Hk. destruct m; simpl; auto. Qed.

Lemma forallO_strictly {A : Type} (body body' : A → outcome bool) (l : list A) :
  (∀ x, body' x = strictly (body x)) →
  forallO body' l = strictly (forallO body l).
Proof.
  intros Hb. induction l as [|x l IH]; simpl; [done|].
  rewrite Hb. destruct (body x) as [[]| | |]; simpl; done.
Qed.

Lemma strictly_guard (r r' : outcome bool) (k k' : outcome bool) :
  r' = strictly r → k' = strictly k →
  (b ←! r'; if negb b then Done false else k') =
  strictly (b ←! r; if negb b then Done false else k).
Proof. intros -> ->. destruct r as [[]| | |]; simpl; done. Qed.

(** *** The pointer-or-struct check *)

Definition isStructEdge (E : Link) : bool := isInheritanceEdge E || isInstanceEdge E.

Lemma isPointerEdge_not_struct (E : Link) :
  isPointerEdge E = true → isStructEdge E = false.
Proof.
  unfold isPointerEdge, isStructEdge, isInheritanceEdge, isInstanceEdge, hasLinkKind.
  intros HP%bool_decide_eq_true. rewrite HP.
  by rewrite !bool_decide_eq_false_2.
Qed.

Lemma pointerOrStruct_loop_spec (strict : bool) (l : list Link) (n : N) (isP : bool) :
  (N.of_nat (length l) + n ≤ UINT_MAX)%N →
  isP && (0 <? n)%N = false →
  pointerOrStruct_loop strict l n isP =
    if (isP || existsb isPointerEdge l) && ((0 <? n)%N || existsb isStructEdge l)
    then failed strict else Done true.
Proof.
  revert n isP. induction l as [|e l IH]; intros n isP Hlen Hinv.
  - cbn [pointerOrStruct_loop existsb]. rewrite !orb_false_r. by rewrite Hinv.
  - cbn [pointerOrStruct_loop existsb length] in *.
    destruct (isPointerEdge e) eqn:HP.
    + rewrite (isPointerEdge_not_struct e HP). cbn [orb andb].
      rewrite orb_true_r. cbn [andb].
      destruct (0 <? n)%N eqn:Hn; [done|].
      rewrite IH; [by rewrite Hn | lia | by rewrite Hn].
    + fold (isStructEdge e). destruct (isStructEdge e) eqn:HS.
      * assert (Hmod : ((n + 1) mod (UINT_MAX + 1) = n + 1)%N).
        { apply N.mod_small. lia. }
        rewrite Hmod.
        assert (Hpos : (0 <? n + 1)%N = true) by (apply N.ltb_lt; lia).
        rewrite Hpos, andb_true_r. cbn [orb]. rewrite orb_true_r, andb_true_r.
        destruct isP; [done|].
        rewrite IH; [|lia|done]. rewrite Hpos. cbn [orb]. by rewrite andb_true_r.
      * rewrite Hinv. cbn [orb]. apply IH; [lia | done].
Qed.

(** A node is used as a pointer and as a struct: it has a pointer edge and
    an inheritance or instance edge. *)
Definition pointerAndStruct (N : LayoutTypeSystemNode) : Prop :=
  ∃ e1 e2, e1 ∈ Successors N ∧ e2 ∈ Successors N ∧
           getKind e1.2 = LK_Pointer ∧
           (getKind e2.2 = LK_Inheritance ∨ getKind e2.2 = LK_Instance).

Lemma existsb_elements (P : Link → bool) (S : gset Link) :
  existsb P (elements S) = true ↔ ∃ e, e ∈ S ∧ P e = true.
Proof.
  rewrite existsb_exists. split; intros (e & He & HPe); exists e.
  - split; [|done]. by apply elem_of_elements, list_elem_of_In.
  - split; [|done]. by apply list_elem_of_In, elem_of_elements.
Qed.

Lemma isStructEdge_true (E : Link) :
  isStructEdge E = true ↔ getKind E.2 = LK_Inheritance ∨ getKind E.2 = LK_Instance.
Proof.
  unfold isStructEdge, isInheritanceEdge, isInstanceEdge, hasLinkKind.
  rewrite orb_true_iff, !bool_decide_eq_true. done.
Qed.

Lemma isPointerEdge_true (E : Link) : isPointerEdge E = true ↔ getKind E.2 = LK_Pointer.
Proof. unfold isPointerEdge, hasLinkKind. by rewrite bool_decide_eq_true. Qed.

Lemma pointerOrStruct_spec (strict : bool) (N : LayoutTypeSystemNode) :
  (N.of_nat (size (Successors N)) ≤ UINT_MAX)%N →
  (pointerAndStruct N ∧
   pointerOrStruct_loop strict (elements (Successors N)) 0 false = failed strict) ∨
  (¬ pointerAndStruct N ∧
   pointerOrStruct_loop strict (elements (Successors N)) 0 false = Done true).
Proof.
  intros Hsz. rewrite pointerOrStruct_loop_spec; [|unfold size, set_size in Hsz; simpl in Hsz; lia|done].
  cbn [orb]. change (0 <? 0)%N with false. cbn [orb].
  destruct (existsb isPointerEdge (elements (Successors N))) eqn:HP;
    destruct (existsb isStructEdge (elements (Successors N))) eqn:HS; cbn [andb].
  - left. split; [|done].
    apply existsb_elements in HP as (e1 & H1 & HP).
    apply existsb_elements in HS as (e2 & H2 & HS).
    exists e1, e2. split_and!; try done.
    + by apply isPointerEdge_true.
    + by apply isStructEdge_true.
  - right. split; [|done]. intros (e1 & e2 & H1 & H2 & HP1 & HS2).
    apply not_true_iff_false in HS. apply HS, existsb_elements.
    exists e2. split; [done|]. by apply isStructEdge_true.
  - right. split; [|done]. intros (e1 & e2 & H1 & H2 & HP1 & HS2).
    apply not_true_iff_false in HP. apply HP, existsb_elements.
    exists e1. split; [done|]. by apply isPointerEdge_true.
  - right. split; [|done]. intros (e1 & e2 & H1 & H2 & HP1 & HS2).
    apply not_true_iff_false in HP. apply HP, existsb_elements.
    exists e1. split; [done|]. by apply isPointerEdge_true.
Qed.

(** *** [verifyConsistency] *)

Lemma guard_true (m k : outcome bool) :
  (b ←! m; if negb b then Done false else k) = Done true ↔
  m = Done true ∧ k = Done true.
Proof.
  destruct m as [[]| | |]; simpl; split; try done; try (by intros [? ?]).
Qed.

Lemma guard_returns (m k : outcome bool) :
  (∃ b, m = Done b) → (∃ b, k = Done b) →
  ∃ b, (b ←! m; if negb b then Done false else k) = Done b.
Proof. intros [[] ->] [b ->]; simpl; by eexists. Qed.

(** What [verifyConsistency] checks at the node [N] that [p] points to. *)
Definition nodeConsistent (H : Heap) (p : nat) (N : LayoutTypeSystemNode) : Prop :=
  (∀ q T, (q, T) ∈ Predecessors N → ∃ Q, H !! q = Some Q ∧ (p, T) ∈ Successors Q) ∧
  (∀ q T, (q, T) ∈ Successors N → ∃ Q, H !! q = Some Q ∧ (p, T) ∈ Predecessors Q) ∧
  (∀ T, (p, T) ∉ Predecessors N) ∧
  (∀ T, (p, T) ∉ Successors N) ∧
  ¬ pointerAndStruct N.

Lemma mirror_check_true (strict : bool) (H : Heap) (p : nat)
    (side : LayoutTypeSystemNode → gset Link) (P : Link) :
  (Q ←! load H P.1;
   if bool_decide ((p, P.2) ∈ side Q) then Done true else failed strict) = Done true ↔
  ∃ Q, H !! P.1 = Some Q ∧ (p, P.2) ∈ side Q.
Proof.
  rewrite obind_Done. setoid_rewrite load_Done. split.
  - intros (Q & HQ & Hc). exists Q. split; [done|]. case_bool_decide; [done|].
    by apply failed_not_true in Hc.
  - intros (Q & HQ & Hin). exists Q. split; [done|]. by rewrite bool_decide_eq_true_2.
Qed.

Lemma self_check_true (strict : bool) (p : nat) (P : Link) :
  (if bool_decide (P.1 = p) then failed strict else Done true) = Done true ↔ P.1 ≠ p.
Proof.
  case_bool_decide; split; try done. intros Hc. by apply failed_not_true in Hc.
Qed.

Lemma verifyNode_true (strict : bool) (H : Heap) (p : nat) (N : LayoutTypeSystemNode) :
  (N.of_nat (size (Successors N)) ≤ UINT_MAX)%N →
  verifyNode strict H p N = Done true ↔ nodeConsistent H p N.
Proof.
  intros Hsz. unfold verifyNode, nodeConsistent.
  rewrite !guard_true, !forallO_true.
  setoid_rewrite mirror_check_true. setoid_rewrite self_check_true.
  setoid_rewrite elem_of_elements.
  destruct (pointerOrStruct_spec strict N Hsz) as [[Hps ->] | [Hps ->]].
  - split; [intros (_ & _ & _ & _ & Hc); by apply failed_not_true in Hc|].
    intros (_ & _ & _ & _ & Hno). done.
  - split.
    + intros (H1 & H2 & H3 & H4 & _). split_and!; try done.
      * intros q T Hin. apply (H1 (q, T) Hin).
      * intros q T Hin. apply (H2 (q, T) Hin).
      * intros T Hin. by apply (H3 (p, T) Hin).
      * intros T Hin. by apply (H4 (p, T) Hin).
    + intros (H1 & H2 & H3 & H4 & _). split_and!; try done.
      * intros [q T] Hin. by apply H1.
      * intros [q T] Hin. by apply H2.
      * intros [q T] Hin Heq. simpl in Heq. subst q. by apply (H3 T).
      * intros [q T] Hin Heq. simpl in Heq. subst q. by apply (H4 T).
Qed.

Lemma failed_strictly : failed true = strictly (failed false).
Proof. done. Qed.

Lemma pointerOrStruct_loop_strictly (l : list Link) (n : N) (isP : bool) :
  pointerOrStruct_loop true l n isP = strictly (pointerOrStruct_loop false l n isP).
Proof.
  revert n isP. induction l as [|e l IH]; intros n isP; [done|].
  cbn [pointerOrStruct_loop].
  match goal with |- (if ?c then _ else _) = _ => destruct c end; [done | apply IH].
Qed.

Lemma verifyNode_strictly (H : Heap) (p : nat) (N : LayoutTypeSystemNode) :
  verifyNode true H p N = strictly (verifyNode false H p N).
Proof.
  unfold verifyNode.
  repeat (apply strictly_guard;
          [apply forallO_strictly; intros P;
           first [ apply strictly_bind; intros Q; by case_bool_decide
                 | by case_bool_decide ] |]).
  apply pointerOrStruct_loop_strictly.
Qed.

Lemma verifyNode_returns (H : Heap) (p : nat) (N : LayoutTypeSystemNode) :
  (N.of_nat (size (Successors N)) ≤ UINT_MAX)%N →
  (∀ q T, (q, T) ∈ Predecessors N ∨ (q, T) ∈ Successors N → is_Some (H !! q)) →
  ∃ b, verifyNode false H p N = Done b.
Proof.
  intros Hsz Hcl. unfold verifyNode.
  repeat apply guard_returns.
  - apply forallO_returns. intros [q T] Hin%elem_of_elements.
    destruct (Hcl q T) as [Q HQ]; [by left|].
    cbn [fst snd]. rewrite (load_Some _ _ _ HQ). simpl. case_bool_decide; by eexists.
  - apply forallO_returns. intros [q T] Hin%elem_of_elements.
    destruct (Hcl q T) as [Q HQ]; [by right|].
    cbn [fst snd]. rewrite (load_Some _ _ _ HQ). simpl. case_bool_decide; by eexists.
  - apply forallO_returns. intros P _. case_bool_decide; by eexists.
  - apply forallO_returns. intros P _. case_bool_decide; by eexists.
  - destruct (pointerOrStruct_spec false N Hsz) as [[_ ->] | [_ ->]]; by eexists.
Qed.

(** No node has [2^32] successor entries or more, so that the [unsigned]
    counter [NonPtrChildren] does not wrap. *)
Definition smallDegree (TS : LayoutTypeSystem) : Prop :=
  map_Forall (fun _ N => (N.of_nat (size (Successors N)) ≤ UINT_MAX)%N) (Layouts TS).

#[global] Instance smallDegree_dec (TS : LayoutTypeSystem) : Decision (smallDegree TS).
Proof. unfold smallDegree. apply _. Defined.

(** Every entry names a live node. *)
Definition closed (TS : LayoutTypeSystem) : Prop :=
  ∀ p N q T, Layouts TS !! p = Some N →
    (q, T) ∈ Predecessors N ∨ (q, T) ∈ Successors N → is_Some (Layouts TS !! q).

Definition noPointerAndStruct (TS : LayoutTypeSystem) : Prop :=
  ∀ p N, Layouts TS !! p = Some N → ¬ pointerAndStruct N.

Definition consistent (TS : LayoutTypeSystem) : Prop :=
  mirrored TS ∧ noSelfEdges TS ∧ noPointerAndStruct TS.

Lemma consistent_nodes (TS : LayoutTypeSystem) :
  consistent TS ↔ ∀ p N, Layouts TS !! p = Some N → nodeConsistent (Layouts TS) p N.
Proof.
  unfold consistent, mirrored, noSelfEdges, noPointerAndStruct, nodeConsistent,
    live, succs, preds.
  split.
  - intros (Hm & Hs & Hps) p N HN.
    pose proof (Hm p) as Hm'. pose proof (Hs p) as Hs'.
    rewrite HN in Hm', Hs'. simpl in Hm', Hs'.
    split_and!.
    + intros q T Hin. destruct (Hm' q T) as [_ H2]; [by eexists|].
      destruct (H2 Hin) as [[Q HQ] HinQ]. rewrite HQ in HinQ. by exists Q.
    + intros q T Hin. destruct (Hm' q T) as [H1 _]; [by eexists|].
      destruct (H1 Hin) as [[Q HQ] HinQ]. rewrite HQ in HinQ. by exists Q.
    + intros T. destruct (Hs' T) as [_ H2]; [by eexists|done].
    + intros T. destruct (Hs' T) as [H1 _]; [by eexists|done].
    + by apply (Hps p).
  - intros Hall. split_and!.
    + intros a b T [A HA]. rewrite HA. simpl.
      destruct (Hall a A HA) as (H1 & H2 & _). split; intros Hin.
      * destruct (H2 b T Hin) as (Q & HQ & HinQ). rewrite HQ. split; [by eexists|done].
      * destruct (H1 b T Hin) as (Q & HQ & HinQ). rewrite HQ. split; [by eexists|done].
    + intros a T [A HA]. rewrite HA. simpl.
      destruct (Hall a A HA) as (_ & _ & H3 & H4 & _). split; [apply H4 | apply H3].
    + intros p N HN. by destruct (Hall p N HN) as (_ & _ & _ & _ & H5).
Qed.

Lemma verifyConsistency_true (strict : bool) (TS : LayoutTypeSystem) :
  smallDegree TS →
  verifyConsistency strict TS = Done true ↔ consistent TS.
Proof.
  intros Hsm. unfold verifyConsistency. rewrite forallO_true, consistent_nodes. split.
  - intros Hall p N HN. apply (verifyNode_true strict); [by apply (Hsm p)|].
    apply (Hall (p, N)). by apply elem_of_map_to_list.
  - intros Hall [p N] HN%elem_of_map_to_list.
    apply verifyNode_true; [by apply (Hsm p) | by apply Hall].
Qed.

Lemma verifyConsistency_strictly (TS : LayoutTypeSystem) :
  verifyConsistency true TS = strictly (verifyConsistency false TS).
Proof.
  unfold verifyConsistency. apply forallO_strictly. intros [p N].
  apply verifyNode_strictly.
Qed.

Lemma verifyConsistency_returns (TS : LayoutTypeSystem) :
  smallDegree TS → closed TS → ∃ b, verifyConsistency false TS = Done b.
Proof.
  intros Hsm Hcl. unfold verifyConsistency. apply forallO_returns.
  intros [p N] HN%elem_of_map_to_list.
  apply verifyNode_returns; [by apply (Hsm p)|]. intros q T. by apply (Hcl p N).
Qed.

(** [verifyConsistency] returns true exactly on the graphs whose adjacency
    is mirrored, that have no self-edge, and in which no node has a pointer
    edge together with an inheritance or instance edge.  On any other graph
    whose entries name live nodes it returns false, and aborts instead when
    the strict logger is enabled. *)
Theorem verifyConsistency_spec (TS : LayoutTypeSystem) :
  smallDegree TS →
  (∀ strict, verifyConsistency strict TS = Done true ↔ consistent TS) ∧
  (closed TS → ¬ consistent TS →
   verifyConsistency false TS = Done false ∧ verifyConsistency true TS = Fatal).
Proof.
  intros Hsm. split; [intros strict; by apply verifyConsistency_true|].
  intros Hcl Hno.
  destruct (verifyConsistency_returns TS Hsm Hcl) as [b Hb].
  assert (b = false) as ->.
  { destruct b; [|done]. by apply verifyConsistency_true in Hb. }
  split; [done|]. by rewrite verifyConsistency_strictly, Hb.
Qed.

(** Node 0 points to node 1 and has an instance of node 2 at offset 0. *)
Definition pointerAndInstance : list Op :=
  [OpCreate; OpCreate; OpCreate; OpAddPointerLink (Some 0) (Some 1);
   OpAddInstanceLink (Some 0) (Some 2) (OffsetExpression_of 0)].

Lemma verifyConsistency_spec_witness :
  let TS := stateAfter pointerAndInstance in
  (∀ strict, verifyConsistency strict TS = Done true ↔ consistent TS) ∧
  (closed TS → ¬ consistent TS →
   verifyConsistency false TS = Done false ∧ verifyConsistency true TS = Fatal).
Proof.
  intros TS. apply (verifyConsistency_spec TS).
  apply (bool_decide_unpack _). vm_compute. exact I.
Defined.

(** *** [verifyConsistency] along sequences of calls *)

Lemma reachableBy_impl (ok ok' : Op → LayoutTypeSystem → Prop) (TS : LayoutTypeSystem) :
  (∀ o TS0, ok o TS0 → ok' o TS0) → reachableBy ok TS → reachableBy ok' TS.
Proof.
  intros Himp Hreach. induction Hreach as [|o TS TS' _ IH Hok Hrun]; [apply reach_empty|].
  apply (reach_step _ o TS TS'); auto.
Qed.

(** The calls of [moveEdge] that neither lose a predecessor entry nor make
    a self-edge. *)
Definition soundMove (o : Op) (TS : LayoutTypeSystem) : Prop :=
  noMoveOntoItself o TS ∧ noMoveOntoTarget o TS.

Lemma mirrored_closed (TS : LayoutTypeSystem) : mirrored TS → closed TS.
Proof.
  intros Hm p N q T HN Hin.
  assert (Hl : live p TS) by by eexists.
  destruct (Hm p q T Hl) as [H1 H2]. unfold succs, preds in H1, H2.
  rewrite HN in H1, H2. simpl in H1, H2.
  destruct Hin as [Hin | Hin]; [by destruct (H2 Hin) | by destruct (H1 Hin)].
Qed.

(** In a state reached by calls of the API among which [moveEdge] is sound,
    [verifyConsistency] returns true exactly when no node has a pointer
    edge together with an inheritance or instance edge; otherwise it
    returns false, or aborts under the strict logger. *)
Theorem verifyConsistency_reachable (TS : LayoutTypeSystem) :
  reachableBy soundMove TS → smallDegree TS →
  (noPointerAndStruct TS → ∀ strict, verifyConsistency strict TS = Done true) ∧
  (¬ noPointerAndStruct TS →
   verifyConsistency false TS = Done false ∧ verifyConsistency true TS = Fatal).
Proof.
  intros Hreach Hsm.
  assert (Hm : mirrored TS).
  { apply reachable_mirrored. eapply reachableBy_impl; [|done]. by intros o TS0 [? ?]. }
  assert (Hs : noSelfEdges TS).
  { apply reachable_noSelfEdges. eapply reachableBy_impl; [|done]. by intros o TS0 [? ?]. }
  split.
  - intros Hps strict. by apply verifyConsistency_true.
  - intros Hps.
    destruct (verifyConsistency_returns TS Hsm (mirrored_closed TS Hm)) as [b Hb].
    assert (b = false) as ->.
    { destruct b; [|done]. apply verifyConsistency_true in Hb as (_ & _ & ?); done. }
    split; [done|]. by rewrite verifyConsistency_strictly, Hb.
Qed.

Lemma verifyConsistency_reachable_witness :
  let TS := stateAfter pointerAndInstance in
  (noPointerAndStruct TS → ∀ strict, verifyConsistency strict TS = Done true) ∧
  (¬ noPointerAndStruct TS →
   verifyConsistency false TS = Done false ∧ verifyConsistency true TS = Fatal).
Proof.
  intros TS. apply (verifyConsistency_reachable TS).
  - apply reachableBy_stateAfter. intros o TS0 Hin. unfold pointerAndInstance in Hin.
    repeat (apply elem_of_cons in Hin as [-> | Hin]; [by split|]).
    by apply elem_of_nil in Hin.
  - apply (bool_decide_unpack _). vm_compute. exact I.
Defined.

(** *** [removeNode] and [verifyConsistency] *)

Lemma eraseIf_subseteq (c : Prop) `{Decision c} (r : nat) (S : gset Link) :
  eraseIf c r S ⊆ S.
Proof.
  unfold eraseIf. case_decide; [|done]. intros [b T]. rewrite elem_of_eraseEntriesOf. tauto.
Qed.

Lemma removeNode_successors (P : NodePtr) (TS TS' : LayoutTypeSystem)
    (x : nat) (N' : LayoutTypeSystemNode) :
  removeNode P TS = Done TS' → Layouts TS' !! x = Some N' →
  ∃ N, Layouts TS !! x = Some N ∧ Successors N' ⊆ Successors N ∧
       Size N' = Size N ∧ InterferingInfo N' = InterferingInfo N.
Proof.
  intros Hrun HN'.
  apply removeNode_spec in Hrun as (r & R & C & -> & HR & _ & _ & _ & _ & Hgone & Hoth).
  destruct (decide (x = r)) as [-> | Hx]; [congruence|].
  rewrite (Hoth x Hx) in HN'. destruct (Layouts TS !! x) as [N|]; [|done].
  injection HN' as <-. exists N. split_and!; try done. apply eraseIf_subseteq.
Qed.

(** [removeNode] keeps a graph consistent: when [verifyConsistency] returns
    true before the call, it returns true after it. *)
Theorem removeNode_keeps_consistency (strict : bool) (TS TS' : LayoutTypeSystem)
    (P : NodePtr) :
  smallDegree TS →
  verifyConsistency strict TS = Done true →
  removeNode P TS = Done TS' →
  smallDegree TS' ∧ verifyConsistency strict TS' = Done true.
Proof.
  intros Hsm Hv Hrun.
  apply (verifyConsistency_true strict TS Hsm) in Hv as (Hm & Hs & Hps).
  assert (Hsm' : smallDegree TS').
  { intros x N' HN'. simpl.
    destruct (removeNode_successors _ _ _ _ _ Hrun HN') as (N & HN & Hsub & _).
    pose proof (Hsm x N HN) as Hle. simpl in Hle.
    pose proof (subseteq_size _ _ Hsub). lia. }
  split; [done|]. apply verifyConsistency_true; [done|]. split_and!.
  - apply mirrored_iff. intros T. eapply removeNode_mirroredOn; [done|].
    by apply mirrored_iff.
  - apply noSelfEdges_iff. eapply removeNode_selfFree; [done|]. by apply noSelfEdges_iff.
  - intros x N' HN' (e1 & e2 & H1 & H2 & Hk1 & Hk2).
    destruct (removeNode_successors _ _ _ _ _ Hrun HN') as (N & HN & Hsub & _).
    apply (Hps x N HN). exists e1, e2. split_and!; try done; by apply Hsub.
Qed.

(** Node 0 inherits from node 1, which inherits from node 2. *)
Definition inheritanceChain : list Op :=
  [OpCreate; OpCreate; OpCreate;
   OpAddInheritanceLink (Some 0) (Some 1); OpAddInheritanceLink (Some 1) (Some 2)].

Lemma removeNode_keeps_consistency_witness :
  let TS := stateAfter inheritanceChain in
  let TS' := stateAfter (inheritanceChain ++ [OpRemoveNode (Some 1)]) in
  smallDegree TS' ∧ verifyConsistency false TS' = Done true.
Proof.
  intros TS TS'. apply (removeNode_keeps_consistency false TS TS' (Some 1)).
  - apply (bool_decide_unpack _). vm_compute. exact I.
  - vm_compute. reflexivity.
  - vm_compute. reflexivity.
Defined.

(** ** The checks that read one node at a time *)

Lemma forallO_check {A : Type} (strict : bool) (ok : A → bool) (l : list A) :
  forallO (fun x => if ok x then Done true else failed strict) l =
  if forallb ok l then Done true else failed strict.
Proof.
  induction l as [|x l IH]; simpl; [done|].
  destruct (ok x); simpl; [exact IH | by destruct strict].
Qed.

Lemma forallO_ext {A : Type} (body body' : A → outcome bool) (l : list A) :
  (∀ x, body x = body' x) → forallO body l = forallO body' l.
Proof. intros Hb. induction l as [|x l IH]; simpl; [done|]. by rewrite Hb, IH. Qed.

(** A check of the nodes one by one: it passes when [ok] holds of every
    node, returns false otherwise, and aborts instead under the strict
    logger. *)
Lemma nodes_check (strict : bool) (ok : LayoutTypeSystemNode → bool)
    (body : nat * LayoutTypeSystemNode → outcome bool) (TS : LayoutTypeSystem) :
  (∀ p N, body (p, N) = if ok N then Done true else failed strict) →
  (forallO body (map_to_list (Layouts TS)) = Done true ↔
     ∀ p N, Layouts TS !! p = Some N → ok N = true) ∧
  ((∃ p N, Layouts TS !! p = Some N ∧ ok N = false) →
     forallO body (map_to_list (Layouts TS)) = if strict then Fatal else Done false).
Proof.
  intros Hbody.
  rewrite (forallO_ext body (fun x => if ok x.2 then Done true else failed strict)).
  2: { intros [p N]. apply Hbody. }
  rewrite (forallO_check strict (fun x => ok x.2)).
  destruct (forallb (λ x, ok x.2) (map_to_list (Layouts TS))) eqn:Hall.
  - rewrite forallb_forall in Hall. split.
    + split; [|done]. intros _ p N HN.
      apply (Hall (p, N)). by apply list_elem_of_In, elem_of_map_to_list.
    + intros (p & N & HN & Hno).
      specialize (Hall (p, N)). simpl in Hall. rewrite Hall in Hno; [done|].
      by apply list_elem_of_In, elem_of_map_to_list.
  - split; [|by destruct strict]. split; [intros Hc; by apply failed_not_true in Hc|].
    intros Hok. apply not_true_iff_false in Hall. destruct Hall.
    apply forallb_forall. intros [p N] Hin. simpl. apply (Hok p).
    by apply elem_of_map_to_list, list_elem_of_In.
Qed.

(** *** [verifyUnions] *)

(** [verifyUnions] returns true exactly when every node marked
    [AllChildrenAreInterfering] has at least two successor entries; it
    returns false (aborts under the strict logger) when some such node has
    one or none. *)
Theorem verifyUnions_spec (strict : bool) (TS : LayoutTypeSystem) :
  (verifyUnions strict TS = Done true ↔
     ∀ p N, Layouts TS !! p = Some N →
            InterferingInfo N = AllChildrenAreInterfering → 2 ≤ size (Successors N)) ∧
  ((∃ p N, Layouts TS !! p = Some N ∧
           InterferingInfo N = AllChildrenAreInterfering ∧ size (Successors N) ≤ 1) →
     verifyUnions strict TS = if strict then Fatal else Done false).
Proof.
  unfold verifyUnions.
  destruct (nodes_check strict
    (fun N => negb (bool_decide (InterferingInfo N = AllChildrenAreInterfering)
                    && (size (Successors N) <=? 1)))
    (fun '(_, Node) =>
       if bool_decide (InterferingInfo Node = AllChildrenAreInterfering)
          && (size (Successors Node) <=? 1)
       then failed strict else Done true) TS) as [Htrue Hfalse].
  { intros p N. by destruct (_ && _). }
  split.
  - rewrite Htrue. split; intros Hall p N HN.
    + intros Hint. specialize (Hall p N HN).
      rewrite negb_true_iff, andb_false_iff, bool_decide_eq_false, Nat.leb_gt in Hall.
      destruct Hall; [done | lia].
    + rewrite negb_true_iff, andb_false_iff, bool_decide_eq_false, Nat.leb_gt.
      destruct (decide (InterferingInfo N = AllChildrenAreInterfering)) as [Hint|];
        [|by left].
      right. specialize (Hall p N HN Hint). lia.
  - intros (p & N & HN & Hint & Hsz). apply Hfalse. exists p, N. split; [done|].
    rewrite negb_false_iff, andb_true_iff, bool_decide_eq_true, Nat.leb_le. done.
Qed.

(** *** [verifyInheritanceTree] *)

Lemma at_most_one {A : Type} (l : list A) :
  NoDup l →
  (match l with _ :: _ :: _ => false | _ => true end = true ↔
   ∀ x y, x ∈ l → y ∈ l → x = y).
Proof.
  intros Hnd. destruct l as [|a [|b l]].
  - split; [|done]. intros _ x y Hx. by apply elem_of_nil in Hx.
  - split; [|done]. intros _ x y ->%list_elem_of_singleton ->%list_elem_of_singleton.
    done.
  - split; [done|]. intros Hall.
    assert (a = b) as -> by (apply Hall; [by left | right; by left]).
    apply NoDup_cons in Hnd as [Hnot _]. destruct Hnot. by left.
Qed.

(** [verifyInheritanceTree] returns true exactly when no node has two
    inheritance edges, that is when no node inherits from two nodes; it
    returns false (aborts under the strict logger) otherwise. *)
Theorem verifyInheritanceTree_spec (strict : bool) (TS : LayoutTypeSystem) :
  let single (N : LayoutTypeSystemNode) :=
    ∀ e1 e2, e1 ∈ Successors N → e2 ∈ Successors N →
             getKind e1.2 = LK_Inheritance → getKind e2.2 = LK_Inheritance → e1 = e2 in
  (verifyInheritanceTree strict TS = Done true ↔
     ∀ p N, Layouts TS !! p = Some N → single N) ∧
  ((∃ p N, Layouts TS !! p = Some N ∧ ¬ single N) →
     verifyInheritanceTree strict TS = if strict then Fatal else Done false).
Proof.
  intros single. unfold verifyInheritanceTree.
  set (ok := fun N : LayoutTypeSystemNode =>
               match filteredChildren isInheritanceEdge N with
               | _ :: _ :: _ => false | _ => true end).
  assert (Hok : ∀ N, ok N = true ↔ single N).
  { intros N. unfold ok. rewrite at_most_one.
    2: { apply NoDup_filter, NoDup_elements. }
    unfold single, filteredChildren. split.
    - intros Hall e1 e2 H1 H2 Hk1 Hk2.
      apply Hall; apply list_elem_of_filter; (split; [|by apply elem_of_elements]);
        unfold isInheritanceEdge, hasLinkKind; by apply bool_decide_eq_true.
    - intros Hall e1 e2 [Hk1 H1%elem_of_elements]%list_elem_of_filter
        [Hk2 H2%elem_of_elements]%list_elem_of_filter.
      unfold isInheritanceEdge, hasLinkKind in Hk1, Hk2.
      apply bool_decide_eq_true in Hk1, Hk2. by apply Hall. }
  destruct (nodes_check strict ok
    (fun '(_, Node) =>
       match filteredChildren isInheritanceEdge Node with
       | _ :: _ :: _ => failed strict
       | _ => Done true
       end) TS) as [Htrue Hfalse].
  { intros p N. unfold ok. by destruct (filteredChildren _ N) as [|a [|b l]]. }
  split.
  - rewrite Htrue. split; intros Hall p N HN; apply Hok; by apply (Hall p).
  - intros (p & N & HN & Hno). apply Hfalse. exists p, N. split; [done|].
    apply not_true_iff_false. by rewrite Hok.
Qed.

(** *** [isInstanceOff0] and [verifyConflicts] *)

Lemma isInstanceOff0_Done (E : Link) :
  isInstanceOff0 E = Done (bool_decide (E.2 = instance0)).
Proof.
  unfold isInstanceOff0, isInstanceEdge, hasLinkKind, getOffsetExpr.
  destruct E as [b [[off str tc] k]]. cbn [fst snd getKind Kind OE].
  case_bool_decide as Hk; cbn [negb revng_assert obind].
  - subst k. cbn [Offset Strides TripCounts]. f_equal.
    unfold instance0, instanceTag, OffsetExpression_of.
    destruct (Z.eqb_spec off 0) as [-> | Hoff]; cbn [andb].
    + repeat case_bool_decide; subst; try done; congruence.
    + symmetry. apply bool_decide_eq_false. congruence.
  - f_equal. symmetry. apply bool_decide_eq_false.
    unfold instance0, instanceTag. congruence.
Qed.

(** [isInstanceOff0] and [isInstanceOffNon0] never trip the assertion of
    [getOffsetExpr]: they return on every link, the first one true exactly
    on the links whose tag is the instance tag of offset 0 without strides
    and trip counts, the second one true exactly on the other instance
    links. *)
Theorem isInstanceOff0_spec (E : Link) :
  isInstanceOff0 E = Done (bool_decide (E.2 = instance0)) ∧
  isInstanceOffNon0 E =
    Done (bool_decide (getKind E.2 = LK_Instance ∧ E.2 ≠ instance0)).
Proof.
  split; [apply isInstanceOff0_Done|].
  unfold isInstanceOffNon0. rewrite isInstanceOff0_Done.
  unfold isInstanceEdge, hasLinkKind.
  case_bool_decide as Hk; cbn [obind]; f_equal.
  - repeat case_bool_decide; try done; tauto.
  - symmetry. apply bool_decide_eq_false. tauto.
Qed.

Lemma any_ofO_pure (P : Link → outcome bool) (f : Link → bool) (l : list Link) :
  (∀ x, P x = Done (f x)) → any_ofO P l = Done (existsb f l).
Proof.
  intros HP. induction l as [|x l IH]; simpl; [done|].
  rewrite HP. simpl. destruct (f x); [done | exact IH].
Qed.

(** [verifyConflicts] returns true exactly when no node has an inheritance
    edge and an instance edge at offset 0 to the same successor; it returns
    false (aborts under the strict logger) otherwise. *)
Theorem verifyConflicts_spec (strict : bool) (TS : LayoutTypeSystem) :
  let conflict (N : LayoutTypeSystemNode) :=
    ∃ b T, (b, T) ∈ Successors N ∧ getKind T = LK_Inheritance ∧
           (b, instance0) ∈ Successors N in
  (verifyConflicts strict TS = Done true ↔
     ∀ p N, Layouts TS !! p = Some N → ¬ conflict N) ∧
  ((∃ p N, Layouts TS !! p = Some N ∧ conflict N) →
     verifyConflicts strict TS = if strict then Fatal else Done false).
Proof.
  intros conflict. unfold verifyConflicts.
  set (hit := fun (N : LayoutTypeSystemNode) (Succ : Link) =>
         isInheritanceEdge Succ &&
         existsb (fun L2 : Link => bool_decide (L2.2 = instance0)
                                   && bool_decide (Succ.1 = L2.1))
                 (elements (Successors N))).
  set (ok := fun N : LayoutTypeSystemNode =>
         forallb (fun Succ => negb (hit N Succ)) (elements (Successors N))).
  assert (Hok : ∀ N, ok N = true ↔ ¬ conflict N).
  { intros N. unfold ok, conflict. rewrite forallb_forall. split.
    - intros Hall (b & T & Hin & Hk & Hin0).
      specialize (Hall (b, T)). rewrite <- list_elem_of_In, elem_of_elements in Hall.
      specialize (Hall Hin). apply negb_true_iff in Hall.
      apply not_true_iff_false in Hall. apply Hall. unfold hit.
      apply andb_true_iff. split.
      + unfold isInheritanceEdge, hasLinkKind. by apply bool_decide_eq_true.
      + apply existsb_elements. exists (b, instance0). split; [done|].
        apply andb_true_iff. split; by apply bool_decide_eq_true.
    - intros Hno [b T] Hin. rewrite <- list_elem_of_In, elem_of_elements in Hin.
      apply negb_true_iff, not_true_iff_false. unfold hit.
      intros [Hk Hex]%andb_true_iff. apply Hno.
      apply existsb_elements in Hex as ([b' T'] & Hin' & Hc).
      apply andb_true_iff in Hc as [HT' Hb']. apply bool_decide_eq_true in HT', Hb'.
      simpl in HT', Hb'. subst. exists b', T. split_and!; try done.
      unfold isInheritanceEdge, hasLinkKind in Hk. by apply bool_decide_eq_true in Hk. }
  destruct (nodes_check strict ok
    (fun '(_, Node) =>
       forallO (fun Succ : Link =>
                  let HasSameSuccAtOffset0 (L2 : Link) :=
                    b ←! isInstanceOff0 L2;
                    Done (b && bool_decide (Succ.1 = L2.1)) in
                  if isInheritanceEdge Succ then
                    c ←! any_ofO HasSameSuccAtOffset0 (elements (Successors Node));
                    if c then failed strict else Done true
                  else Done true)
               (elements (Successors Node))) TS) as [Htrue Hfalse].
  { intros p N. unfold ok.
    rewrite <- (forallO_check strict (fun Succ => negb (hit N Succ))).
    apply forallO_ext. intros Succ. unfold hit.
    destruct (isInheritanceEdge Succ); [|done]. cbn [andb].
    rewrite (any_ofO_pure _ (fun L2 : Link => bool_decide (L2.2 = instance0)
                                             && bool_decide (Succ.1 = L2.1))).
    2: { intros L2. by rewrite isInstanceOff0_Done. }
    cbn [obind]. by destruct (existsb _ _). }
  split.
  - rewrite Htrue. split; intros Hall p N HN; apply Hok; by apply (Hall p).
  - intros (p & N & HN & Hc). apply Hfalse. exists p, N. split; [done|].
    apply not_true_iff_false. rewrite Hok. tauto.
Qed.

(** *** [verifyNoEquality] *)

Definition noEqualityEdge (TS : LayoutTypeSystem) : Prop :=
  ∀ p N e, Layouts TS !! p = Some N → e ∈ Successors N → getKind e.2 ≠ LK_Equality.

Lemma verifyNoEquality_cases (strict : bool) (TS : LayoutTypeSystem) :
  let body := fun '((_, Node) : nat * LayoutTypeSystemNode) =>
    forallO (fun Edge : Link =>
               if isEqualityEdge Edge then failed strict else Done true)
            (elements (Successors Node)) in
  (forallO body (map_to_list (Layouts TS)) = Done true ↔ noEqualityEdge TS) ∧
  (¬ noEqualityEdge TS →
   forallO body (map_to_list (Layouts TS)) = if strict then Fatal else Done false).
Proof.
  intros body.
  set (ok := fun N : LayoutTypeSystemNode =>
               forallb (fun Edge => negb (isEqualityEdge Edge)) (elements (Successors N))).
  assert (Hok : (∀ p N, Layouts TS !! p = Some N → ok N = true) ↔ noEqualityEdge TS).
  { unfold ok, noEqualityEdge. split.
    - intros Hall p N e HN Hin Hk. specialize (Hall p N HN).
      rewrite forallb_forall in Hall. specialize (Hall e).
      rewrite <- list_elem_of_In, elem_of_elements in Hall. specialize (Hall Hin).
      apply negb_true_iff, bool_decide_eq_false in Hall. done.
    - intros Hall p N HN. apply forallb_forall. intros e Hin.
      rewrite <- list_elem_of_In, elem_of_elements in Hin.
      apply negb_true_iff, bool_decide_eq_false. by apply (Hall p N). }
  destruct (nodes_check strict ok body TS) as [Htrue Hfalse].
  { intros p N. unfold ok, body.
    rewrite <- (forallO_check strict (fun Edge => negb (isEqualityEdge Edge))).
    apply forallO_ext. intros Edge. by destruct (isEqualityEdge Edge). }
  split; [by rewrite Htrue, Hok|].
  intros Hno. apply Hfalse.
  destruct (decide (map_Forall (fun _ N => ok N = true) (Layouts TS))) as [Hall | Hnall].
  - destruct Hno. by apply Hok.
  - apply map_not_Forall in Hnall; [|apply _].
    destruct Hnall as (p & N & HN & HokN). exists p, N. split; [done|].
    by apply not_true_iff_false.
Qed.

(** [verifyNoEquality] returns true exactly on the consistent graphs in
    which no successor entry is an equality edge.  On a consistent graph
    with an equality edge it returns false, and aborts instead under the
    strict logger. *)
Theorem verifyNoEquality_spec (strict : bool) (TS : LayoutTypeSystem) :
  smallDegree TS →
  (verifyNoEquality strict TS = Done true ↔ consistent TS ∧ noEqualityEdge TS) ∧
  (consistent TS → ¬ noEqualityEdge TS →
   verifyNoEquality strict TS = if strict then Fatal else Done false).
Proof.
  intros Hsm. unfold verifyNoEquality.
  destruct (verifyNoEquality_cases strict TS) as [Htrue Hfalse]. split.
  - by rewrite guard_true, (verifyConsistency_true strict TS Hsm), Htrue.
  - intros Hc Hno. rewrite (proj2 (verifyConsistency_true strict TS Hsm) Hc).
    cbn [obind negb]. by apply Hfalse.
Qed.

Lemma verifyNoEquality_spec_witness :
  let TS := stateAfter [OpCreate; OpCreate; OpAddEqualityLink (Some 0) (Some 1)] in
  (verifyNoEquality false TS = Done true ↔ consistent TS ∧ noEqualityEdge TS) ∧
  (consistent TS → ¬ noEqualityEdge TS →
   verifyNoEquality false TS = if false then Fatal else Done false).
Proof.
  intros TS. apply (verifyNoEquality_spec false TS).
  apply (bool_decide_unpack _). vm_compute. exact I.
Defined.

(** ** The tags of the edges *)

(** The tag [T] is on some entry of the graph. *)
Definition usedTag (T : TypeLinkTag) (TS : LayoutTypeSystem) : Prop :=
  ∃ a b, hasSucc T (Layouts TS) a b ∨ hasPred T (Layouts TS) a b.

(** The tags that [equalityTag], [inheritanceTag], [instanceTag] and
    [pointerTag] build: only an instance tag has an offset expression of its
    own, and no tag is of kind [LK_All]. *)
Definition builtTag (T : TypeLinkTag) : Prop :=
  match getKind T with
  | LK_All => False
  | LK_Instance => True
  | _ => OE T = OffsetExpression_default
  end.

Definition tagsKnown (TS : LayoutTypeSystem) : Prop :=
  ∀ T, usedTag T TS → T ∈ LinkTags TS ∧ builtTag T.

(** What a call does to the tags: [LinkTags] only grows, and a tag that is
    on an entry after the call was on one before, or is a built tag that
    [LinkTags] holds. *)
Definition tagStep (TS TS' : LayoutTypeSystem) : Prop :=
  LinkTags TS ⊆ LinkTags TS' ∧
  ∀ T, usedTag T TS' → usedTag T TS ∨ (T ∈ LinkTags TS' ∧ builtTag T).

Lemma tagStep_refl (TS : LayoutTypeSystem) : tagStep TS TS.
Proof. split; [done|]. intros T HT. by left. Qed.

Lemma tagStep_trans (TS1 TS2 TS3 : LayoutTypeSystem) :
  tagStep TS1 TS2 → tagStep TS2 TS3 → tagStep TS1 TS3.
Proof.
  intros [Hs1 Hu1] [Hs2 Hu2]. split; [set_solver|].
  intros T HT. destruct (Hu2 T HT) as [H2 | H2]; [|by right].
  destruct (Hu1 T H2) as [H1 | [H1 Hb]]; [by left|]. right. split; [set_solver|done].
Qed.

Lemma tagStep_sameEdges (TS TS' : LayoutTypeSystem) :
  LinkTags TS' = LinkTags TS →
  (∀ T a b, (hasSucc T (Layouts TS') a b → usedTag T TS) ∧
            (hasPred T (Layouts TS') a b → usedTag T TS)) →
  tagStep TS TS'.
Proof.
  intros Htags He. split; [by rewrite Htags|].
  intros T (a & b & [H | H]); left; destruct (He T a b) as [H1 H2]; auto.
Qed.

Lemma tagStep_tagsKnown (TS TS' : LayoutTypeSystem) :
  tagStep TS TS' → tagsKnown TS → tagsKnown TS'.
Proof.
  intros [Hs Hu] Hk T HT. destruct (Hu T HT) as [H | H]; [|done].
  destruct (Hk T H) as [Hin Hb]. split; [set_solver|done].
Qed.

Lemma addLink_tagStep (Src Tgt : NodePtr) (Tag : TypeLinkTag)
    (TS TS' : LayoutTypeSystem) (res : option TypeLinkTag * bool) :
  builtTag Tag →
  addLink Src Tgt Tag TS = Done (TS', res) → tagStep TS TS'.
Proof.
  intros Hb Hrun. pose proof (addLink_edges) as He.
  destruct (addLink_spec _ _ _ _ _ _ Hrun)
    as [(-> & _ & _) | (src & tgt & S & Tn & -> & -> & Hne & _ & _ & _ & _ & Htags & _)];
    [apply tagStep_refl|].
  split; [rewrite Htags; set_solver|].
  intros T (a & b & Hab).
  destruct (He T _ _ _ _ _ _ Hrun a b) as [HS HP].
  destruct Hab as [Hab | Hab].
  - apply HS in Hab as [Hab | (-> & _)]; [left; exists a, b; by left|].
    right. split; [rewrite Htags; set_solver | done].
  - apply HP in Hab as [Hab | (-> & _)]; [left; exists a, b; by right|].
    right. split; [rewrite Htags; set_solver | done].
Qed.

Lemma rebasedTag_built (T T' : TypeLinkTag) (d : Z) :
  rebasedTag T d = Some T' → builtTag T'.
Proof.
  unfold rebasedTag. destruct (getKind T); try done; intros [= <-]; [|done].
  by destruct (0 <? d)%Z.
Qed.

Lemma moveEdge_tagStep (OldSrc NewSrc : NodePtr) (e : Link) (d : Z)
    (TS TS' : LayoutTypeSystem) :
  moveEdge OldSrc NewSrc e d TS = Done TS' → tagStep TS TS'.
Proof.
  intros Hrun.
  destruct OldSrc as [o|]; [|injection Hrun as <-; apply tagStep_refl].
  destruct NewSrc as [n|]; [|injection Hrun as <-; apply tagStep_refl].
  destruct (decide (d = 0%Z)) as [-> | Hd].
  - unfold moveEdge in Hrun. simpl in Hrun. osplit Hrun. injection Hrun as <-.
    apply moveEdgeWithoutSumming_edges in E as (Hs & Hp & _ & He).
    apply tagStep_sameEdges; [done|]. intros T a b. simpl. split; intros Hab.
    + apply He in Hab as [[Hab _] | [_ Heq]]; [exists a, b; by left|].
      destruct e as [t Te]. injection Heq as -> ->. exists o, t. by left.
    + apply He in Hab as [[Hab _] | [_ Heq]]; [exists a, b; by right|].
      injection Heq as -> ->. exists o, e.1. by left.
  - pose proof (moveEdge_summing_edges o n e d TS TS' Hd Hrun) as (T' & HT' & Hs & He).
    assert (Htags : LinkTags TS ⊆ LinkTags TS' ∧ (n ≠ e.1 → T' ∈ LinkTags TS')).
    { unfold moveEdge in Hrun. rewrite (proj2 (Z.eqb_neq d 0) Hd) in Hrun.
      osplit Hrun. destruct v2 as [TS2 res]. osplit Hrun. injection Hrun as <-.
      cbn [LinkTags setLayouts].
      assert (Hadd : addLink (Some n) (Some e.1) T' (setLayouts v1 TS) = Done (TS2, res)).
      { unfold rebasedTag in HT'. destruct (getKind e.2) eqn:Hk; try done.
        - injection HT' as <-. by destruct (0 <? d)%Z.
        - injection HT' as <-. osplit E2. unfold getOffsetExpr in E4. osplit E4.
          injection E4 as <-. exact E2. }
      destruct (addLink_spec _ _ _ _ _ _ Hadd)
        as [(-> & _ & [? | [? | Heq]]) |
            (src & tgt & S & Tn & _ & _ & _ & _ & _ & _ & _ & Htags & _)]; try done.
      - injection Heq as Heq. split; [done|]. by intros ?.
      - rewrite Htags. cbn [LinkTags setLayouts]. split; [set_solver|]. intros _. set_solver. }
    destruct Htags as [Hsub Hnew]. split; [done|].
    intros T (a & b & [Hab | Hab]).
    + apply He in Hab as [[Hab _] | (Hne & _ & _ & ->)]; [left; exists a, b; by left|].
      right. split; [by apply Hnew | by eapply rebasedTag_built].
    + apply He in Hab as [[Hab | (Hne & _ & _ & ->)] _]; [left; exists a, b; by right|].
      right. split; [by apply Hnew | by eapply rebasedTag_built].
Qed.

Lemma mergeStep_tagStep (i : nat) (From : NodePtr) (TS TS' : LayoutTypeSystem) :
  mergeStep i From TS = Done TS' → tagStep TS TS'.
Proof.
  intros Hrun.
  apply mergeStep_spec in Hrun
    as (f & F & I & C & r & _ & Hne & HF & HI & _ & _ & _ & Htags & _ & Hmerged).
  apply tagStep_sameEdges; [done|]. intros T a b.
  destruct (mergedHeap_edges_weak T f i F I _ _ Hne HF HI Hmerged a b) as [HS HP].
  split; intros Hab.
  - apply HS in Hab as (_ & [(_ & _ & _ & [H | H]) | (_ & [H | [_ H]])]);
      eexists _, _; by left.
  - apply HP in Hab as (_ & [(_ & _ & _ & [H | H]) | (_ & [H | [_ H]])]);
      eexists _, _; by right.
Qed.

Lemma removeNode_tagStep (P : NodePtr) (TS TS' : LayoutTypeSystem) :
  removeNode P TS = Done TS' → tagStep TS TS'.
Proof.
  intros Hrun.
  apply removeNode_spec in Hrun as (r & R & C & _ & _ & _ & _ & Htags & _ & Hrem).
  apply tagStep_sameEdges; [done|]. intros T a b.
  destruct (removedHeap_edges_weak T r R _ _ Hrem a b) as [HS HP].
  split; intros Hab.
  - apply HS in Hab as [_ H]. exists a, b. by left.
  - apply HP in Hab as [_ H]. exists a, b. by right.
Qed.

Lemma forEach_tagStep {A : Type} (l : list A)
    (body : A → LayoutTypeSystem → outcome LayoutTypeSystem) (TS TS' : LayoutTypeSystem) :
  (∀ x t t', body x t = Done t' → tagStep t t') →
  forEach l body TS = Done TS' → tagStep TS TS'.
Proof.
  intros Hbody. revert TS. induction l as [|x l IH]; intros TS Hrun; simpl in Hrun.
  - injection Hrun as <-. apply tagStep_refl.
  - apply obind_Done in Hrun as (t & Hx & Hrun).
    eapply tagStep_trans; [by eapply Hbody | by apply IH].
Qed.

Lemma run_tagStep (o : Op) (TS TS' : LayoutTypeSystem) :
  run o TS = Done TS' → tagStep TS TS'.
Proof.
  intros Hrun. destruct o; simpl in Hrun.
  - unfold fstO in Hrun. osplit Hrun. destruct v as [TS1 New]. injection Hrun as <-.
    apply tagStep_sameEdges.
    + unfold createArtificialLayoutType in E. osplit E. destruct v0 as [C r].
      osplit E. by injection E as <- <-.
    + intros T a b. destruct (create_edges _ _ _ T a b E) as [HS HP].
      split; intros Hab; [apply HS in Hab | apply HP in Hab]; exists a, b; tauto.
  - apply tagStep_sameEdges.
    + unfold setField in Hrun. osplit Hrun. by injection Hrun as <-.
    + intros T a b. destruct (setField_edges P (setSize s) TS TS' T a b
                                (fun _ => eq_refl) (fun _ => eq_refl) Hrun) as [HS HP].
      split; intros Hab; [apply HS in Hab | apply HP in Hab]; exists a, b; tauto.
  - apply tagStep_sameEdges.
    + unfold setField in Hrun. osplit Hrun. by injection Hrun as <-.
    + intros T a b. destruct (setField_edges P (setInterferingInfo i) TS TS' T a b
                                (fun _ => eq_refl) (fun _ => eq_refl) Hrun) as [HS HP].
      split; intros Hab; [apply HS in Hab | apply HP in Hab]; exists a, b; tauto.
  - unfold fstO, addEqualityLink in Hrun. osplit Hrun. destruct v as [TS2 r].
    osplit E. destruct v as [TS1 Fwd]. osplit E. destruct v as [TS3 Bwd]. osplit E.
    injection E as <- <-. injection Hrun as <-.
    eapply tagStep_trans;
      [apply (addLink_tagStep _ _ equalityTag _ _ _ eq_refl E0)
      |apply (addLink_tagStep _ _ equalityTag _ _ _ eq_refl E1)].
  - unfold fstO in Hrun. osplit Hrun. destruct v as [TS1 r]. injection Hrun as <-.
    apply (addLink_tagStep _ _ inheritanceTag _ _ _ eq_refl E).
  - unfold fstO in Hrun. osplit Hrun. destruct v as [TS1 r]. injection Hrun as <-.
    apply (addLink_tagStep _ _ (instanceTag Off) _ _ _ I E).
  - unfold fstO in Hrun. osplit Hrun. destruct v as [TS1 r]. injection Hrun as <-.
    apply (addLink_tagStep _ _ pointerTag _ _ _ eq_refl E).
  - unfold mergeNodes in Hrun. osplit Hrun. destruct ToMerge as [|Into Rest]; [done|].
    osplit Hrun. eapply forEach_tagStep; [|done].
    intros x t t'. apply mergeStep_tagStep.
  - by eapply removeNode_tagStep.
  - by eapply moveEdge_tagStep.
  - osplit Hrun. injection Hrun as <-. apply tagStep_sameEdges; [done|].
    intros T a b. split; intros Hab; exists a, b; [by left | by right].
Qed.

Lemma reachable_tagsKnown (TS : LayoutTypeSystem) : reachable TS → tagsKnown TS.
Proof.
  intros Hreach. induction Hreach as [|o TS TS' _ IH _ Hrun].
  - intros T (a & b & Hab). destruct (emptyTS_no_edges T a b). tauto.
  - eapply tagStep_tagsKnown; [by eapply run_tagStep | done].
Qed.

(** In every state reached through the API, the tag of every successor and
    predecessor entry is held by the deduplicated set [LinkTags], which the
    calls never shrink, and is one that [equalityTag], [inheritanceTag],
    [instanceTag] or [pointerTag] builds: no entry has a tag of kind
    [LK_All], and only instance tags carry an offset expression. *)
Theorem reachable_tags_in_LinkTags (TS : LayoutTypeSystem) :
  reachable TS →
  (∀ p e, live p TS → e ∈ succs p TS ∨ e ∈ preds p TS →
          e.2 ∈ LinkTags TS ∧
          (e.2 = equalityTag ∨ e.2 = inheritanceTag ∨ e.2 = pointerTag ∨
           ∃ Off, e.2 = instanceTag Off)) ∧
  (∀ o TS', run o TS = Done TS' → LinkTags TS ⊆ LinkTags TS').
Proof.
  intros Hreach. split.
  - intros p [b T] [N HN] Hin. unfold succs, preds in Hin. rewrite HN in Hin.
    simpl in Hin. cbn [snd].
    destruct (reachable_tagsKnown TS Hreach T) as [HT Hb].
    { exists p, b. destruct Hin as [Hin | Hin]; [left | right]; by exists N. }
    split; [done|]. unfold builtTag, getKind in Hb.
    destruct T as [oe k]. cbn [Kind OE] in Hb.
    destruct k; try done; subst; auto.
    right. right. right. by exists oe.
  - intros o TS' Hrun. by destruct (run_tagStep _ _ _ Hrun).
Qed.

Lemma reachable_tags_in_LinkTags_witness :
  let TS := stateAfter pointerAndInstance in
  (∀ p e, live p TS → e ∈ succs p TS ∨ e ∈ preds p TS →
          e.2 ∈ LinkTags TS ∧
          (e.2 = equalityTag ∨ e.2 = inheritanceTag ∨ e.2 = pointerTag ∨
           ∃ Off, e.2 = instanceTag Off)) ∧
  (∀ o TS', run o TS = Done TS' → LinkTags TS ⊆ LinkTags TS').
Proof.
  intros TS. apply (reachable_tags_in_LinkTags TS). apply reachable_stateAfter.
Defined.

(** *** Pointer nodes and struct nodes *)

(** In a state reached through the API on which [verifyNoEquality] returns
    true, and in which no node has [2^32] successor entries or more, no
    node is a pointer node and a struct node at once. *)
Theorem pointer_node_is_no_struct (strict : bool) (TS : LayoutTypeSystem)
    (p : nat) (N : LayoutTypeSystemNode) :
  reachable TS → smallDegree TS →
  verifyNoEquality strict TS = Done true →
  Layouts TS !! p = Some N →
  isPointerNode N && isStructNode N = false.
Proof.
  intros Hreach Hsm Hv HN.
  unfold verifyNoEquality in Hv. apply guard_true in Hv as [Hc Hne].
  apply (verifyConsistency_true strict TS Hsm) in Hc as (_ & _ & Hps).
  apply (proj1 (verifyNoEquality_cases strict TS)) in Hne.
  apply not_true_iff_false. intros [HP HS]%andb_true_iff.
  unfold isPointerNode, any_of in HP. apply existsb_elements in HP as (e1 & H1 & HP1).
  unfold isStructNode in HS. apply andb_true_iff in HS as [_ HS].
  unfold any_of in HS. apply existsb_elements in HS as (e2 & H2 & HP2).
  apply (Hps p N HN). exists e1, e2. split_and!; try done.
  { by apply isPointerEdge_true. }
  destruct (reachable_tagsKnown TS Hreach e2.2) as [_ Hb].
  { exists p, e2.1. left. exists N. split; [done|]. by destruct e2. }
  pose proof (Hne p N e2 HN H2) as Hneq.
  unfold isNotPointerEdge in HP2. apply negb_true_iff in HP2.
  apply not_true_iff_false in HP2. rewrite isPointerEdge_true in HP2.
  unfold builtTag in Hb. destruct (getKind e2.2); try done; auto.
Qed.

(** Node 0 points to node 1; node 2, whose children do not interfere, has
    an instance of node 3 at offset 0. *)
Definition pointerAndStructNodes : list Op :=
  [OpCreate; OpCreate; OpCreate; OpCreate;
   OpAddPointerLink (Some 0) (Some 1);
   OpAddInstanceLink (Some 2) (Some 3) (OffsetExpression_of 0);
   OpSetInterferingInfo (Some 2) AllChildrenAreNonInterfering].

Lemma pointer_node_is_no_struct_witness :
  let TS := stateAfter pointerAndStructNodes in
  let Pointer := mkNode {[ (1, pointerTag) ]} ∅ 0 Unknown in
  let Struct := mkNode {[ (3, instanceTag (OffsetExpression_of 0)) ]} ∅ 0
                       AllChildrenAreNonInterfering in
  (Layouts TS !! 0 = Some Pointer ∧ isPointerNode Pointer = true ∧
   isPointerNode Pointer && isStructNode Pointer = false) ∧
  (Layouts TS !! 2 = Some Struct ∧ isStructNode Struct = true ∧
   isPointerNode Struct && isStructNode Struct = false).
Proof.
  intros TS Pointer Struct.
  assert (Hreach : reachable TS) by apply reachable_stateAfter.
  assert (Hsm : smallDegree TS) by (apply (bool_decide_unpack _); vm_compute; exact I).
  assert (Hv : verifyNoEquality false TS = Done true) by (vm_compute; reflexivity).
  split; (split; [vm_compute; reflexivity|]); (split; [vm_compute; reflexivity|]).
  - apply (pointer_node_is_no_struct false TS 0 Pointer Hreach Hsm Hv).
    vm_compute. reflexivity.
  - apply (pointer_node_is_no_struct false TS 2 Struct Hreach Hsm Hv).
    vm_compute. reflexivity.
Defined.

(** ** Roots and leaves *)

Lemma filter_nil_iff {A : Type} (P : A → bool) (l : list A) :
  filter (fun x => P x = true) l = [] ↔ ∀ x, x ∈ l → P x = false.
Proof.
  induction l as [|a l IH].
  - split; [by intros _ x Hx%elem_of_nil | done].
  - rewrite filter_cons. destruct (decide (P a = true)) as [Ha | Ha].
    + split; [done|]. intros Hall. specialize (Hall a (list_elem_of_here a l)). congruence.
    + rewrite IH. split.
      * intros Hall x [-> | Hin]%elem_of_cons; [by apply not_true_iff_false | by apply Hall].
      * intros Hall x Hin. apply Hall. by right.
Qed.

Lemma isRoot_spec (K : LinkKind) (Node : LayoutTypeSystemNode) :
  isRoot K Node = true ↔
  ∀ L, L ∈ Predecessors Node → hasNonPointerLinkKind K L = false.
Proof.
  unfold isRoot, filteredParents. rewrite bool_decide_eq_true, filter_nil_iff.
  by setoid_rewrite elem_of_elements.
Qed.

Lemma isLeaf_spec (K : LinkKind) (Node : LayoutTypeSystemNode) :
  isLeaf K Node = true ↔
  ∀ L, L ∈ Successors Node → hasNonPointerLinkKind K L = false.
Proof.
  unfold isLeaf. rewrite forallb_forall. split.
  - intros Hall L HL. apply negb_true_iff, Hall.
    by rewrite <- list_elem_of_In, elem_of_elements.
  - intros Hall L HL. apply negb_true_iff, Hall.
    by rewrite <- list_elem_of_In, elem_of_elements in HL.
Qed.

(** The roots and leaves, which the code reads off a node's own
    [Predecessors] and [Successors], are the nodes without incoming and
    without outgoing edges of the kind in the graph: in a state reached
    through the API without a [moveEdge] onto the source itself, a live
    node is a root for [K] exactly if no node has a successor entry of that
    kind to it, and a leaf exactly if no node has a predecessor entry of
    that kind to it; and [hasInheritanceParent] is the negation of
    [isInheritanceRoot]. *)
Theorem roots_have_no_incoming_edge (K : LinkKind) (TS : LayoutTypeSystem)
    (n : nat) (Node : LayoutTypeSystemNode) :
  K ≠ LK_Pointer →
  reachableBy noMoveOntoItself TS →
  Layouts TS !! n = Some Node →
  (isRoot K Node = true ↔
   ∀ p T, (n, T) ∈ succs p TS → hasNonPointerLinkKind K (p, T) = false) ∧
  (isLeaf K Node = true ↔
   ∀ p T, (n, T) ∈ preds p TS → hasNonPointerLinkKind K (p, T) = false) ∧
  hasInheritanceParent Node = negb (isInheritanceRoot Node).
Proof.
  intros _ Hreach HN. pose proof (reachable_mirrored TS Hreach) as Hm.
  assert (Hlive : live n TS) by by eexists.
  assert (Hsucc : ∀ p T, (n, T) ∈ succs p TS ↔ (p, T) ∈ Predecessors Node).
  { intros p T. split.
    - intros Hin. assert (Hp : live p TS).
      { unfold succs, live in *. destruct (Layouts TS !! p); [by eexists | set_solver]. }
      destruct (Hm p n T Hp) as [Hs _]. destruct (Hs Hin) as [_ Hpre].
      unfold preds in Hpre. by rewrite HN in Hpre.
    - intros Hin. destruct (Hm n p T Hlive) as [_ Hp]. apply Hp.
      unfold preds. by rewrite HN. }
  assert (Hpred : ∀ p T, (n, T) ∈ preds p TS ↔ (p, T) ∈ Successors Node).
  { intros p T. split.
    - intros Hin. assert (Hp : live p TS).
      { unfold preds, live in *. destruct (Layouts TS !! p); [by eexists | set_solver]. }
      destruct (Hm p n T Hp) as [_ Hs]. destruct (Hs Hin) as [_ Hsu].
      unfold succs in Hsu. by rewrite HN in Hsu.
    - intros Hin. destruct (Hm n p T Hlive) as [Hp _]. apply Hp.
      unfold succs. by rewrite HN. }
  split_and!.
  - rewrite isRoot_spec. split.
    + intros Hall p T Hin. apply (Hall (p, T)). by apply Hsucc.
    + intros Hall [p T] Hin. apply Hall. by apply Hsucc.
  - rewrite isLeaf_spec. split.
    + intros Hall p T Hin. apply (Hall (p, T)). by apply Hpred.
    + intros Hall [p T] Hin. apply Hall. by apply Hpred.
  - unfold hasInheritanceParent, isInheritanceRoot, any_of.
    destruct (isRoot LK_Inheritance Node) eqn:Hr; cbn [negb].
    + apply not_true_iff_false. intros (L & HL & HK)%existsb_exists.
      rewrite <- list_elem_of_In, elem_of_elements in HL.
      rewrite isRoot_spec in Hr. specialize (Hr L HL).
      unfold isInheritanceEdge, hasLinkKind in HK. unfold hasNonPointerLinkKind in Hr.
      congruence.
    + apply not_true_iff_false in Hr. rewrite isRoot_spec in Hr.
      destruct (existsb isInheritanceEdge (elements (Predecessors Node))) eqn:Hex; [done|].
      destruct Hr. intros L HL. apply not_true_iff_false. intros HK.
      apply not_true_iff_false in Hex. destruct Hex. apply existsb_exists. exists L.
      by rewrite <- list_elem_of_In, elem_of_elements.
Qed.

Lemma roots_have_no_incoming_edge_witness :
  let TS := stateAfter inheritanceChain in
  (isRoot LK_Inheritance (mkNode {[ (2, inheritanceTag) ]} {[ (0, inheritanceTag) ]} 0 Unknown)
     = true ↔
   ∀ p T, (1, T) ∈ succs p TS → hasNonPointerLinkKind LK_Inheritance (p, T) = false) ∧
  (isLeaf LK_Inheritance (mkNode {[ (2, inheritanceTag) ]} {[ (0, inheritanceTag) ]} 0 Unknown)
     = true ↔
   ∀ p T, (1, T) ∈ preds p TS → hasNonPointerLinkKind LK_Inheritance (p, T) = false) ∧
  hasInheritanceParent (mkNode {[ (2, inheritanceTag) ]} {[ (0, inheritanceTag) ]} 0 Unknown)
    = negb (isInheritanceRoot
              (mkNode {[ (2, inheritanceTag) ]} {[ (0, inheritanceTag) ]} 0 Unknown)).
Proof.
  intros TS. apply (roots_have_no_incoming_edge LK_Inheritance TS 1).
  - discriminate.
  - apply reachableBy_stateAfter. intros o TS0 Hin. unfold inheritanceChain in Hin.
    repeat (apply elem_of_cons in Hin as [-> | Hin]; [exact I|]).
    by apply elem_of_nil in Hin.
  - vm_compute. reflexivity.
Defined.

(** * The queries on the equivalence classes *)

Definition haveSameEqClass (ID1 ID2 : nat) (C : VectEqClasses) : outcome bool :=
  if getNumClasses C =? 0 then
    x ←! findLeader ID1 C;
    y ←! findLeader ID2 C;
    Done (x =? y)
  else
    x ←! lookupEqClass ID1 C;
    y ←! lookupEqClass ID2 C;
    Done (x =? y).

(** [std::optional<unsigned> getEqClassID(ID)] *)
Definition getEqClassID (ID : nat) (C : VectEqClasses) : outcome (option nat) :=
  EqID ←! lookupEqClass ID C;
  IsRemoved ←! match RemovedID C with
               | Some R => r ←! lookupEqClass R C; Done (r =? EqID)
               | None => Done false
               end;
  if IsRemoved : bool then Done None else Done (Some EqID).

(** The loop of [computeEqClass] over [OtherID], which pushes the
    identifiers of the class to the back of the vector. *)
Fixpoint computeEqClass_loop (ElemID : nat) (C : VectEqClasses) (ids : list nat)
    (EqClass : list nat) : outcome (list nat) :=
  match ids with
  | [] => Done EqClass
  | OtherID :: rest =>
      b ←! haveSameEqClass ElemID OtherID C;
      computeEqClass_loop ElemID C rest (if b then EqClass ++ [OtherID] else EqClass)
  end.

Definition computeEqClass (ElemID : nat) (C : VectEqClasses) : outcome (list nat) :=
  computeEqClass_loop ElemID C (seq 0 (NElems C)) [].

(** ** The classes *)

(** [x] and [y] are identifiers of one class: joined by the parent pointers
    before compression, of one class number after it. *)
Definition sameClass (C : VectEqClasses) (x y : nat) : Prop :=
  x < length (EC C) ∧ y < length (EC C) ∧
  if NumClasses C =? 0 then conn (edge (EC C)) x y else EC C !! x = EC C !! y.

Lemma sameClass_refl (C : VectEqClasses) (x : nat) :
  x < length (EC C) → sameClass C x x.
Proof. intros Hx. split_and!; try done. destruct (_ =? _); [apply conn_refl | done]. Qed.

Lemma sameClass_sym (C : VectEqClasses) (x y : nat) : sameClass C x y → sameClass C y x.
Proof.
  intros (Hx & Hy & Hc). split_and!; try done.
  destruct (_ =? _); [by apply conn_sym | done].
Qed.

Lemma sameClass_trans (C : VectEqClasses) (x y z : nat) :
  sameClass C x y → sameClass C y z → sameClass C x z.
Proof.
  intros (Hx & Hy & Hc) (_ & Hz & Hc'). split_and!; try done.
  destruct (_ =? _); [by eapply conn_trans | congruence].
Qed.

Lemma inRemoved_sameClass (X : nat) (C : VectEqClasses) :
  inRemoved X C ↔ ∃ R, RemovedID C = Some R ∧ sameClass C X R.
Proof. unfold inRemoved, sameClass. naive_solver. Qed.

Lemma findLeader_Done (C : VectEqClasses) (x : nat) :
  NumClasses C = 0 → wfEC (EC C) → x < length (EC C) →
  ∃ r, findLeader x C = Done r ∧ leader (EC C) x r.
Proof.
  intros HNC Hwf Hx. destruct (leader_exists _ _ Hwf Hx) as (r & Hr & _).
  exists r. split; [|done]. unfold findLeader. rewrite HNC.
  cbn [Nat.eqb revng_assert obind]. apply findLeader_loop_leader; [done|done|lia].
Qed.

Lemma haveSameEqClass_Done (C : VectEqClasses) (x y : nat) :
  (NumClasses C = 0 → wfEC (EC C)) → x < length (EC C) → y < length (EC C) →
  ∃ b, haveSameEqClass x y C = Done b ∧ (b = true ↔ sameClass C x y).
Proof.
  intros Hwf Hx Hy. unfold haveSameEqClass, sameClass, getNumClasses.
  destruct (Nat.eqb_spec (NumClasses C) 0) as [HNC | HNC].
  - destruct (findLeader_Done C x HNC (Hwf HNC) Hx) as (rx & -> & Hrx).
    destruct (findLeader_Done C y HNC (Hwf HNC) Hy) as (ry & -> & Hry).
    cbn [obind]. eexists. split; [done|]. rewrite Nat.eqb_eq. split.
    + intros ->. split_and!; try done.
      eapply conn_trans; [by apply leader_conn | by apply conn_sym, leader_conn].
    + intros (_ & _ & Hc). apply (conn_leader _ _ _ Hc) in Hrx.
      by eapply leader_det.
  - unfold lookupEqClass. rewrite (proj2 (Nat.eqb_neq _ _) HNC).
    cbn [negb revng_assert obind].
    destruct (lookup_lt_is_Some_2 _ _ Hx) as [vx Hvx].
    destruct (lookup_lt_is_Some_2 _ _ Hy) as [vy Hvy].
    unfold rd. rewrite Hvx, Hvy. cbn [obind]. eexists. split; [done|].
    rewrite Nat.eqb_eq. split; [intros ->; by split_and! | intros (_ & _ & [= ->]); done].
Qed.

(** ** Compression keeps the classes *)

Lemma classOf_mono (E : list nat) (n m : nat) : n ≤ m → classOf E n ≤ classOf E m.
Proof.
  induction 1 as [|m _ IH]; [done|]. simpl. lia.
Qed.

Lemma classOf_root_lt (E : list nat) (r n : nat) :
  E !! r = Some r → r < n → classOf E r < classOf E n.
Proof.
  intros Hr Hn. pose proof (classOf_mono E (S r) n Hn) as Hm. simpl in Hm.
  rewrite decide_True in Hm by done. lia.
Qed.

Lemma classOf_root_inj (E : list nat) (r1 r2 : nat) :
  E !! r1 = Some r1 → E !! r2 = Some r2 → classOf E r1 = classOf E r2 → r1 = r2.
Proof.
  intros H1 H2 Heq. destruct (Nat.lt_trichotomy r1 r2) as [Hlt | [-> | Hlt]]; [|done|].
  - pose proof (classOf_root_lt E r1 r2 H1 Hlt). lia.
  - pose proof (classOf_root_lt E r2 r1 H2 Hlt). lia.
Qed.

(** Every class number below [classOf E n] is the number of a leader
    below [n]. *)
Lemma classOf_onto (E : list nat) (n k : nat) :
  k < classOf E n → ∃ r, r < n ∧ E !! r = Some r ∧ classOf E r = k.
Proof.
  induction n as [|n IH]; simpl; [lia|]. intros Hk.
  destruct (decide (E !! n = Some n)) as [Hn | Hn].
  - destruct (decide (k = classOf E n)) as [-> | Hne].
    + exists n. split_and!; [lia | done | done].
    + destruct IH as (r & Hr & Hroot & Hc); [lia|]. exists r. split_and!; [lia|done|done].
  - destruct IH as (r & Hr & Hroot & Hc); [lia|]. exists r. split_and!; [lia|done|done].
Qed.

(** What [compress] makes of well-formed parent pointers: every identifier
    gets the number of its leader, the numbers are the naturals below
    [NumClasses], and two identifiers get one number exactly when they were
    joined. *)
Lemma compress_Done (C : VectEqClasses) :
  NumClasses C = 0 → wfEC (EC C) →
  ∃ E', compress C = Done (mkVEC E' (classOf (EC C) (length (EC C)))
                                 (RemovedID C) (NElems C)) ∧
        length E' = length (EC C) ∧
        (∀ x r, leader (EC C) x r → E' !! x = Some (classOf (EC C) r)) ∧
        (∀ x y, x < length (EC C) → y < length (EC C) →
                (E' !! x = E' !! y ↔ conn (edge (EC C)) x y)).
Proof.
  intros HNC Hwf.
  destruct (compress_loop_spec (EC C) (length (EC C)) 0 (EC C) 0 Hwf)
    as (E' & NC' & Hrun & Hlen & -> & _ & Hlo);
    [lia | split_and!; try done; intros j r Hj; lia |].
  exists E'. unfold compress. rewrite HNC. cbn [Nat.eqb]. rewrite Hrun. cbn [obind].
  split_and!; try done.
  - intros x r Hl. apply Hlo; [|done].
    assert (E := leader_conn _ _ _ Hl). clear E.
    induction Hl as [a Ha | a v r Ha _ _ _]; by eapply lookup_lt_Some.
  - intros x y Hx Hy.
    destruct (leader_exists _ _ Hwf Hx) as (rx & Hrx & _).
    destruct (leader_exists _ _ Hwf Hy) as (ry & Hry & _).
    rewrite (Hlo x rx Hx Hrx), (Hlo y ry Hy Hry). split.
    + intros [= Heq].
      apply classOf_root_inj in Heq; [|by eapply leader_is_root..]. subst ry.
      eapply conn_trans; [by apply leader_conn | by apply conn_sym, leader_conn].
    + intros Hc. apply (conn_leader _ _ _ Hc) in Hrx.
      by rewrite (leader_det _ _ _ _ Hrx Hry).
Qed.

Lemma compress_sameClass (C C' : VectEqClasses) (x y : nat) :
  (NumClasses C = 0 → wfEC (EC C)) →
  compress C = Done C' →
  sameClass C' x y ↔ sameClass C x y.
Proof.
  intros Hwf Hrun. destruct (Nat.eqb_spec (NumClasses C) 0) as [HNC | HNC].
  - destruct (compress_Done C HNC (Hwf HNC)) as (E' & Hrun' & Hlen & Hlead & Hiff).
    rewrite Hrun' in Hrun. injection Hrun as <-.
    unfold sameClass. cbn [EC NumClasses]. rewrite Hlen, HNC. cbn [Nat.eqb].
    split; intros (Hx & Hy & Hc); (split_and!; [done|done|]).
    + assert (Hpos : 0 < classOf (EC C) (length (EC C))).
      { apply classOf_pos; [by apply Hwf | lia | done]. }
      destruct (Nat.eqb_spec (classOf (EC C) (length (EC C))) 0); [lia|].
      by apply Hiff.
    + assert (Hpos : 0 < classOf (EC C) (length (EC C))).
      { apply classOf_pos; [by apply Hwf | lia | done]. }
      destruct (Nat.eqb_spec (classOf (EC C) (length (EC C))) 0); [lia|].
      by apply Hiff.
  - unfold compress in Hrun. rewrite (proj2 (Nat.eqb_neq _ _) HNC) in Hrun.
    by injection Hrun as <-.
Qed.

(** ** The classes after [grow] and [join] *)

Lemma conn_snoc_inv (E : list nat) (x y : nat) :
  wfEC E → conn (edge (E ++ [length E])) x y →
  x = y ∨ (x < length E ∧ y < length E ∧ conn (edge E) x y).
Proof.
  intros Hwf Hc.
  induction Hc as [x y Hxy | x | x y _ IH | x y z _ IH1 _ IH2].
  - unfold edge in Hxy. destruct (decide (x < length E)) as [Hx | Hx].
    + rewrite lookup_app_l in Hxy by done. right.
      pose proof (Hwf x y Hxy). split_and!; [done | lia | by apply conn_base].
    + apply lookup_lt_Some in Hxy as Hlt. rewrite length_app in Hlt. simpl in Hlt.
      assert (x = length E) as -> by lia.
      rewrite lookup_app_r in Hxy by lia. rewrite Nat.sub_diag in Hxy.
      injection Hxy as <-. by left.
  - by left.
  - destruct IH as [-> | (? & ? & ?)]; [by left|]. right. split_and!; try done.
    by apply conn_sym.
  - destruct IH1 as [-> | (? & ? & ?)]; [done|].
    destruct IH2 as [<- | (? & ? & ?)]; [right; by split_and!|].
    right. split_and!; try done. by eapply conn_trans.
Qed.

(** The classes after [join(a, b)]: the class of [a] and the class of [b]
    are one, the others are as they were. *)
Lemma conn_edgePlus_inv (E : list nat) (a b x y : nat) :
  conn (edgePlus E a b) x y ↔
  conn (edge E) x y ∨
  (conn (edge E) x a ∧ conn (edge E) b y) ∨
  (conn (edge E) x b ∧ conn (edge E) a y).
Proof.
  split.
  - intros Hc. induction Hc as [x y Hxy | x | x y _ IH | x y z _ IH1 _ IH2].
    + destruct Hxy as [Hxy | [-> ->]]; [left; by apply conn_base|].
      right. left. split; apply conn_refl.
    + left. apply conn_refl.
    + destruct IH as [H | [[H1 H2] | [H1 H2]]].
      * left. by apply conn_sym.
      * right. right. split; by apply conn_sym.
      * right. left. split; by apply conn_sym.
    + destruct IH1 as [H | [[H1 H2] | [H1 H2]]];
        destruct IH2 as [H' | [[H1' H2'] | [H1' H2']]].
      * left. by eapply conn_trans.
      * right. left. split; [by eapply conn_trans | done].
      * right. right. split; [by eapply conn_trans | done].
      * right. left. split; [done | by eapply conn_trans].
      * right. left. by split.
      * left. by eapply conn_trans.
      * right. right. split; [done | by eapply conn_trans].
      * left. by eapply conn_trans.
      * right. right. by split.
  - intros [H | [[H1 H2] | [H1 H2]]].
    + by apply conn_edgePlus.
    + eapply conn_trans; [by apply conn_edgePlus|].
      eapply conn_trans; [|by apply conn_edgePlus]. apply conn_base. by right.
    + eapply conn_trans; [by apply conn_edgePlus|].
      eapply conn_trans; [|by apply conn_edgePlus]. apply conn_sym, conn_base. by right.
Qed.

Lemma join_sameClass (a b : nat) (C C' : VectEqClasses) (r : nat) :
  (NumClasses C = 0 → wfEC (EC C)) →
  join a b C = Done (C', r) →
  sameClass C a a ∧ sameClass C b b ∧
  ∀ x y, sameClass C' x y ↔
         sameClass C x y ∨ (sameClass C x a ∧ sameClass C b y) ∨
         (sameClass C x b ∧ sameClass C a y).
Proof.
  intros Hwf Hrun.
  destruct (join_classes a b C C' r Hwf Hrun)
    as (HNC & Ha & Hb & HNC' & _ & _ & _ & Hlen & Hconn).
  split; [by apply sameClass_refl|]. split; [by apply sameClass_refl|].
  intros x y. unfold sameClass. rewrite HNC, HNC', Hlen. cbn [Nat.eqb].
  rewrite Hconn, conn_edgePlus_inv. naive_solver.
Qed.

(** ** Live nodes and classes *)

(** Two live nodes are never of one class, and no live node is of the
    removed class. *)
Definition liveClasses (TS : LayoutTypeSystem) : Prop :=
  (∀ x y, live x TS → live y TS → sameClass (EqClasses TS) x y → x = y) ∧
  (∀ x, live x TS → ¬ inRemoved x (EqClasses TS)).

Lemma liveClasses_keepsNodes (TS TS' : LayoutTypeSystem) :
  keepsNodes TS TS' → liveClasses TS → liveClasses TS'.
Proof.
  intros (HC & _ & HL) [H1 H2]. unfold liveClasses. rewrite HC.
  split; [intros x y Hx%HL Hy%HL; by apply H1 | intros x Hx%HL; by apply H2].
Qed.

(** How [join(a, b)] acts on [liveClasses]: of the classes of [a] and [b],
    whose only live members are [keep] and [gone], the node [gone] goes. *)
Lemma liveClasses_join (TS TS' : LayoutTypeSystem) (a b : nat) (r : nat) :
  (NumClasses (EqClasses TS) = 0 → wfEC (EC (EqClasses TS))) →
  join a b (EqClasses TS) = Done (EqClasses TS', r) →
  liveClasses TS →
  (∀ x, live x TS' → live x TS) →
  ((live a TS ∧ live b TS ∧ a ≠ b ∧ (¬ live a TS' ∨ ¬ live b TS')) ∨
   (live a TS ∧ ¬ live a TS' ∧ RemovedID (EqClasses TS) = Some b)) →
  liveClasses TS'.
Proof.
  intros Hwf Hjoin [H1 H2] Hsub Hcase.
  destruct (join_sameClass a b _ _ r Hwf Hjoin) as (Haa & Hbb & Hsame).
  assert (HR : RemovedID (EqClasses TS') = RemovedID (EqClasses TS)).
  { by destruct (join_classes a b _ _ r Hwf Hjoin) as (_ & _ & _ & _ & ? & _). }
  assert (Hrem : ∀ x, inRemoved x (EqClasses TS) ↔
                      ∃ R, RemovedID (EqClasses TS) = Some R ∧ sameClass (EqClasses TS) x R)
    by (intros x; apply inRemoved_sameClass).
  split.
  - intros x y Hx Hy Hxy. apply Hsame in Hxy.
    pose proof (Hsub x Hx) as Hx0. pose proof (Hsub y Hy) as Hy0.
    destruct Hcase as [(Hla & Hlb & Hab & Hgone) | (Hla & Hgone & HRb)].
    + destruct Hxy as [Hxy | [[Hxa Hby] | [Hxb Hay]]]; [by apply H1| |].
      * apply H1 in Hxa; [|done..]. apply sameClass_sym, H1 in Hby; [|done..].
        subst. tauto.
      * apply H1 in Hxb; [|done..]. apply sameClass_sym, H1 in Hay; [|done..].
        subst. tauto.
    + destruct Hxy as [Hxy | [[Hxa Hby] | [Hxb Hay]]]; [by apply H1| |].
      * apply H1 in Hxa; [|done..]. by subst.
      * destruct (H2 x Hx0). apply Hrem. by exists b.
  - intros x Hx. pose proof (Hsub x Hx) as Hx0.
    rewrite inRemoved_sameClass, HR. intros (R & HRR & HxR). apply Hsame in HxR.
    destruct Hcase as [(Hla & Hlb & Hab & Hgone) | (Hla & Hgone & HRb)].
    + destruct HxR as [HxR | [[Hxa HbR] | [Hxb HaR]]].
      * destruct (H2 x Hx0). apply Hrem. by exists R.
      * destruct (H2 b Hlb). apply Hrem. by exists R.
      * destruct (H2 a Hla). apply Hrem. by exists R.
    + assert (R = b) as -> by congruence.
      destruct HxR as [HxR | [[Hxa HbR] | [Hxb HaR]]].
      * destruct (H2 x Hx0). apply Hrem. by exists b.
      * apply H1 in Hxa; [|done..]. by subst.
      * destruct (H2 x Hx0). apply Hrem. by exists b.
Qed.

Lemma mergeStep_liveClasses (i : nat) (From : NodePtr) (TS TS' : LayoutTypeSystem) :
  mergeStep i From TS = Done TS' →
  classesFit TS ∧ liveClasses TS → classesFit TS' ∧ liveClasses TS'.
Proof.
  intros Hrun [Hfit Hlc]. split; [by destruct (mergeStep_classes _ _ _ _ Hrun Hfit)|].
  apply mergeStep_spec in Hrun
    as (f & F & I & C & r & _ & Hne & HF & HI & Hjoin & _ & _ & _ & <- & Hf' & Hi' & Hoth).
  destruct Hfit as (_ & _ & _ & _ & Hwf).
  apply (liveClasses_join TS TS' i f r Hwf Hjoin Hlc).
  - intros x [N' HN']. destruct (decide (x = i)) as [-> | Hxi]; [by eexists|].
    destruct (decide (x = f)) as [-> | Hxf]; [congruence|].
    rewrite (Hoth x Hxi Hxf) in HN'. unfold live.
    destruct (Layouts TS !! x); [by eexists | done].
  - left. split_and!; [by eexists | by eexists | congruence |].
    right. intros [N HN]. congruence.
Qed.

Lemma removeNode_liveClasses (P : NodePtr) (TS TS' : LayoutTypeSystem) :
  removeNode P TS = Done TS' → classesFit TS → liveClasses TS → liveClasses TS'.
Proof.
  intros Hrun Hfit Hlc.
  apply removeNode_spec in Hrun as (r & R & C & _ & HR & Hrem & _ & _ & <- & Hgone & Hoth).
  assert (Hsub : ∀ x, live x TS' → live x TS ∧ x ≠ r).
  { intros x [N' HN']. destruct (decide (x = r)) as [-> | Hx]; [congruence|].
    rewrite (Hoth x Hx) in HN'. split; [|done]. unfold live.
    destruct (Layouts TS !! x); [by eexists | done]. }
  destruct Hfit as (_ & _ & _ & _ & Hwf).
  unfold remove in Hrem. destruct (RemovedID (EqClasses TS)) as [R0|] eqn:HR0.
  - osplit Hrem. destruct v as [C1 r1]. injection Hrem as Heq. subst C1.
    apply (liveClasses_join TS TS' r R0 r1 Hwf E Hlc); [intros x Hx; by apply Hsub|].
    right. split_and!; [by eexists | intros [N HN]; congruence | done].
  - injection Hrem as Heq. destruct Hlc as [H1 H2].
    assert (Hsame : ∀ x y, sameClass (EqClasses TS') x y ↔ sameClass (EqClasses TS) x y).
    { intros x y. by rewrite <- Heq. }
    split.
    + intros x y [Hx _]%Hsub [Hy _]%Hsub Hxy%Hsame. by apply H1.
    + intros x [Hx Hxr]%Hsub. rewrite inRemoved_sameClass. intros (R1 & HR1 & HxR).
      rewrite <- Heq in HR1. cbn [RemovedID] in HR1. injection HR1 as <-.
      apply Hsame in HxR. apply Hxr, H1; [done | by eexists | done].
Qed.

Lemma run_liveClasses (o : Op) (TS TS' : LayoutTypeSystem) :
  run o TS = Done TS' → classesFit TS → liveClasses TS → liveClasses TS'.
Proof.
  intros Hrun Hfit Hlc. destruct o; simpl in Hrun.
  - unfold fstO in Hrun. osplit Hrun. destruct v as [TS1 New]. injection Hrun as <-.
    destruct (createArtificialLayoutType_spec _ _ _ Hfit E)
      as (-> & _ & HL & _ & HNC & HC).
    destruct Hfit as (Hlen & _ & Hlt & HRlt & Hwf). destruct Hlc as [H1 H2].
    assert (Hlive : ∀ x, live x TS1 → x = NID TS ∨ live x TS).
    { intros x [N HN]. rewrite HL in HN. rewrite lookup_insert in HN.
      case_decide; [by left | right; by eexists]. }
    assert (Hsame : ∀ x y, sameClass (EqClasses TS1) x y →
                           x = y ∨ sameClass (EqClasses TS) x y).
    { intros x y (_ & _ & Hc). rewrite HC in Hc. cbn [NumClasses EC Nat.eqb] in Hc.
      apply conn_snoc_inv in Hc as [-> | (Hx & Hy & Hc)]; [by left | | by apply Hwf].
      right. unfold sameClass. rewrite HNC. by split_and!. }
    split.
    + intros x y Hx Hy Hxy. destruct (Hsame x y Hxy) as [-> | Hs]; [done|].
      pose proof Hs as (Hxl & Hyl & _).
      destruct (Hlive x Hx) as [-> | Hx0]; [lia|].
      destruct (Hlive y Hy) as [-> | Hy0]; [lia|]. by apply H1.
    + intros x Hx. rewrite inRemoved_sameClass. intros (R & HR & HxR).
      rewrite HC in HR. cbn [RemovedID] in HR.
      assert (HxR0 : sameClass (EqClasses TS) x R).
      { destruct (Hsame x R HxR) as [-> | Hs]; [|done].
        apply sameClass_refl. rewrite Hlen. by apply HRlt. }
      pose proof HxR0 as (Hxl & _).
      destruct (Hlive x Hx) as [-> | Hx0]; [lia|].
      apply (H2 x Hx0). apply inRemoved_sameClass. by exists R.
  - eapply liveClasses_keepsNodes; [|done]. by eapply setField_keepsNodes.
  - eapply liveClasses_keepsNodes; [|done]. by eapply setField_keepsNodes.
  - eapply liveClasses_keepsNodes; [|done].
    unfold fstO, addEqualityLink in Hrun. osplit Hrun. destruct v as [TS2 r].
    osplit E. destruct v as [TS1 Fwd]. osplit E. destruct v as [TS3 Bwd]. osplit E.
    injection E as <- <-. injection Hrun as <-.
    eapply keepsNodes_trans; by eapply addLink_keepsNodes.
  - eapply liveClasses_keepsNodes; [|done].
    unfold fstO in Hrun. osplit Hrun. destruct v as [TS1 r]. injection Hrun as <-.
    by eapply addLink_keepsNodes.
  - eapply liveClasses_keepsNodes; [|done].
    unfold fstO in Hrun. osplit Hrun. destruct v as [TS1 r]. injection Hrun as <-.
    by eapply addLink_keepsNodes.
  - eapply liveClasses_keepsNodes; [|done].
    unfold fstO in Hrun. osplit Hrun. destruct v as [TS1 r]. injection Hrun as <-.
    by eapply addLink_keepsNodes.
  - unfold mergeNodes in Hrun. osplit Hrun. destruct ToMerge as [|Into Rest]; [done|].
    osplit Hrun.
    eapply (forEach_preserves (fun TS => classesFit TS ∧ liveClasses TS)); [|done|done].
    intros From t t'. apply mergeStep_liveClasses.
  - by eapply removeNode_liveClasses.
  - eapply liveClasses_keepsNodes; [|done]. by eapply moveEdge_keepsNodes.
  - osplit Hrun. injection Hrun as <-. destruct Hfit as (_ & _ & _ & _ & Hwf).
    destruct Hlc as [H1 H2].
    assert (HR : RemovedID v = RemovedID (EqClasses TS))
      by by destruct (compress_classes _ _ Hwf E).
    split.
    + intros x y Hx Hy Hxy. cbn [EqClasses setEqClasses] in Hxy.
      apply (compress_sameClass _ _ x y Hwf E) in Hxy. by apply H1.
    + intros x Hx. rewrite inRemoved_sameClass. cbn [EqClasses setEqClasses].
      rewrite HR. intros (R & HRR & HxR).
      apply (compress_sameClass _ _ x R Hwf E) in HxR.
      apply (H2 x Hx). apply inRemoved_sameClass. by exists R.
Qed.

Lemma reachable_liveClasses (TS : LayoutTypeSystem) : reachable TS → liveClasses TS.
Proof.
  intros Hreach. induction Hreach as [|o TS TS' Hreach IH _ Hrun].
  - split; [intros x y [N HN]|intros x [N HN]]; simpl in HN; by rewrite lookup_empty in HN.
  - eapply run_liveClasses; [done | by apply reachable_classesFit | done].
Qed.

(** ** What the queries answer *)

Lemma isRemoved_haveSameEqClass (x : nat) (C : VectEqClasses) :
  isRemoved x C = match RemovedID C with
                  | Some R => haveSameEqClass x R C
                  | None => Done false
                  end.
Proof. unfold isRemoved, haveSameEqClass. by destruct (RemovedID C). Qed.

Lemma haveSameEqClass_decides (C : VectEqClasses) (x y : nat) (b : bool) :
  (NumClasses C = 0 → wfEC (EC C)) → x < length (EC C) → y < length (EC C) →
  (b = true ↔ sameClass C x y) → haveSameEqClass x y C = Done b.
Proof.
  intros Hwf Hx Hy Hb. destruct (haveSameEqClass_Done C x y Hwf Hx Hy) as (b' & -> & Hb').
  f_equal. destruct b, b'; try done.
  - apply Hb', Hb. done.
  - symmetry. apply Hb, Hb'. done.
Qed.

(** In a state reached through the API, [haveSameEqClass] returns on the
    identifiers handed out so far, and is an equivalence relation on
    them. *)
Theorem haveSameEqClass_equivalence (TS : LayoutTypeSystem) :
  reachable TS →
  let same x y := haveSameEqClass x y (EqClasses TS) = Done true in
  (∀ x y, x < NID TS → y < NID TS →
          ∃ b, haveSameEqClass x y (EqClasses TS) = Done b) ∧
  (∀ x, x < NID TS → same x x) ∧
  (∀ x y, x < NID TS → y < NID TS → same x y → same y x) ∧
  (∀ x y z, x < NID TS → y < NID TS → z < NID TS → same x y → same y z → same x z).
Proof.
  intros Hreach same.
  destruct (reachable_classesFit TS Hreach) as (Hlen & _ & _ & _ & Hwf).
  assert (Hsame : ∀ x y, x < NID TS → y < NID TS →
                         (same x y ↔ sameClass (EqClasses TS) x y)).
  { intros x y Hx Hy. unfold same.
    destruct (haveSameEqClass_Done (EqClasses TS) x y Hwf) as (b & -> & Hb); [lia..|].
    rewrite <- Hb. split; congruence. }
  split_and!.
  - intros x y Hx Hy.
    destruct (haveSameEqClass_Done (EqClasses TS) x y Hwf) as (b & -> & _); [lia..|].
    by eexists.
  - intros x Hx. apply Hsame; [done..|]. apply sameClass_refl. lia.
  - intros x y Hx Hy Hxy%Hsame; [|done..]. apply Hsame; [done..|]. by apply sameClass_sym.
  - intros x y z Hx Hy Hz Hxy%Hsame Hyz%Hsame; [|done..]. apply Hsame; [done..|].
    by eapply sameClass_trans.
Qed.

(** Nodes 0, 1, 2 and 3: node 1 is merged into node 0, and node 2 is
    removed. *)
Definition mergedAndRemoved : list Op :=
  [OpCreate; OpCreate; OpCreate; OpCreate;
   OpMergeNodes [Some 0; Some 1]; OpRemoveNode (Some 2)].

Lemma haveSameEqClass_equivalence_witness :
  let TS := stateAfter mergedAndRemoved in
  let same x y := haveSameEqClass x y (EqClasses TS) = Done true in
  (∀ x y, x < NID TS → y < NID TS →
          ∃ b, haveSameEqClass x y (EqClasses TS) = Done b) ∧
  (∀ x, x < NID TS → same x x) ∧
  (∀ x y, x < NID TS → y < NID TS → same x y → same y x) ∧
  (∀ x y z, x < NID TS → y < NID TS → z < NID TS → same x y → same y z → same x z).
Proof.
  intros TS. apply (haveSameEqClass_equivalence TS). apply reachable_stateAfter.
Defined.

Lemma compress_keeps_classes_aux (TS : LayoutTypeSystem) :
  reachable TS →
  ∃ C', compress (EqClasses TS) = Done C' ∧
        ∀ x y, x < NID TS → y < NID TS →
               haveSameEqClass x y C' = haveSameEqClass x y (EqClasses TS) ∧
               isRemoved x C' = isRemoved x (EqClasses TS).
Proof.
  intros Hreach.
  destruct (reachable_classesFit TS Hreach) as (Hlen & _ & _ & HRlt & Hwf).
  assert (∃ C', compress (EqClasses TS) = Done C') as [C' HC'].
  { destruct (Nat.eqb_spec (NumClasses (EqClasses TS)) 0) as [HNC | HNC].
    - destruct (compress_Done _ HNC (Hwf HNC)) as (E' & -> & _). by eexists.
    - unfold compress. rewrite (proj2 (Nat.eqb_neq _ _) HNC). by eexists. }
  destruct (compress_classes _ _ Hwf HC') as (HR' & _ & Hlen' & Hwf' & _).
  exists C'. split; [done|].
  assert (Hsame : ∀ x y, x < NID TS → y < NID TS →
                         haveSameEqClass x y C' = haveSameEqClass x y (EqClasses TS)).
  { intros x y Hx Hy.
    destruct (haveSameEqClass_Done (EqClasses TS) x y Hwf) as (b & -> & Hb); [lia..|].
    apply haveSameEqClass_decides; [done | lia | lia |].
    by rewrite (compress_sameClass _ _ x y Hwf HC'). }
  intros x y Hx Hy. split; [by apply Hsame|].
  rewrite !isRemoved_haveSameEqClass, HR'.
  destruct (RemovedID (EqClasses TS)) as [R|] eqn:HR; [|done].
  apply Hsame; [done|]. by apply HRlt.
Qed.

(** In a state reached through the API, the compression of the classes
    returns and keeps the classes: [haveSameEqClass] and [isRemoved] answer
    after it what they answered before it, on all identifiers handed out;
    and a second compression changes nothing. *)
Theorem compress_keeps_classes (TS : LayoutTypeSystem) :
  reachable TS →
  ∃ C', compress (EqClasses TS) = Done C' ∧
        compress C' = Done C' ∧
        ∀ x y, x < NID TS → y < NID TS →
               haveSameEqClass x y C' = haveSameEqClass x y (EqClasses TS) ∧
               isRemoved x C' = isRemoved x (EqClasses TS).
Proof.
  intros Hreach.
  destruct (reachable_classesFit TS Hreach) as (Hlen & _ & _ & HRlt & Hwf).
  destruct (compress_keeps_classes_aux TS Hreach) as (C' & HC' & Hkeep).
  exists C'. split_and!; [done| |done].
  destruct (Nat.eqb_spec (NumClasses (EqClasses TS)) 0) as [HNC | HNC].
  - destruct (compress_Done _ HNC (Hwf HNC)) as (E' & HC'' & Hl & _).
    rewrite HC'' in HC'. injection HC' as <-. unfold compress. cbn [NumClasses].
    destruct (decide (length (EC (EqClasses TS)) = 0)) as [Hz | Hnz].
    + destruct E'; [|simpl in Hl; lia].
      rewrite Hz. by destruct (EC (EqClasses TS)).
    + assert (0 < classOf (EC (EqClasses TS)) (length (EC (EqClasses TS)))).
      { apply classOf_pos; [by apply Hwf | lia | done]. }
      by destruct (Nat.eqb_spec (classOf (EC (EqClasses TS))
                                         (length (EC (EqClasses TS)))) 0); [lia|].
  - unfold compress in HC'. rewrite (proj2 (Nat.eqb_neq _ _) HNC) in HC'.
    injection HC' as <-. unfold compress. by rewrite (proj2 (Nat.eqb_neq _ _) HNC).
Qed.

Lemma compress_keeps_classes_witness :
  let TS := stateAfter mergedAndRemoved in
  ∃ C', compress (EqClasses TS) = Done C' ∧
        compress C' = Done C' ∧
        ∀ x y, x < NID TS → y < NID TS →
               haveSameEqClass x y C' = haveSameEqClass x y (EqClasses TS) ∧
               isRemoved x C' = isRemoved x (EqClasses TS).
Proof.
  intros TS. apply (compress_keeps_classes TS). apply reachable_stateAfter.
Defined.

(** *** Live nodes *)

(** In a state reached through the API, no live node is removed, and two
    live nodes are never of one class: [isRemoved] returns false on every
    live node, and [haveSameEqClass] returns false on every two of them. *)
Theorem live_nodes_classes (TS : LayoutTypeSystem) (x y : nat) :
  reachable TS → live x TS → live y TS →
  isRemoved x (EqClasses TS) = Done false ∧
  (x ≠ y → haveSameEqClass x y (EqClasses TS) = Done false).
Proof.
  intros Hreach Hx Hy.
  destruct (reachable_classesFit TS Hreach) as (Hlen & _ & Hlt & HRlt & Hwf).
  destruct (reachable_liveClasses TS Hreach) as [H1 H2].
  pose proof (Hlt x Hx) as Hxl. pose proof (Hlt y Hy) as Hyl. split.
  - rewrite isRemoved_haveSameEqClass.
    destruct (RemovedID (EqClasses TS)) as [R|] eqn:HR; [|done].
    apply haveSameEqClass_decides; [done | lia | rewrite Hlen; by apply HRlt |].
    split; [done|]. intros Hs. destruct (H2 x Hx). apply inRemoved_sameClass. by exists R.
  - intros Hne. apply haveSameEqClass_decides; [done | lia | lia |].
    split; [done|]. intros Hs. destruct Hne. by apply H1.
Qed.

Lemma live_nodes_classes_witness :
  let TS := stateAfter mergedAndRemoved in
  isRemoved 0 (EqClasses TS) = Done false ∧
  (0 ≠ 3 → haveSameEqClass 0 3 (EqClasses TS) = Done false).
Proof.
  intros TS. apply (live_nodes_classes TS 0 3).
  - apply reachable_stateAfter.
  - vm_compute. eexists. reflexivity.
  - vm_compute. eexists. reflexivity.
Defined.

(** *** [mergeNodes] and the classes *)

Lemma mergeStep_sameClass (i : nat) (From : NodePtr) (TS TS' : LayoutTypeSystem) :
  mergeStep i From TS = Done TS' → classesFit TS →
  (∀ f, From = Some f → sameClass (EqClasses TS') i f ∧ ¬ live f TS') ∧
  (∀ x y, sameClass (EqClasses TS) x y → sameClass (EqClasses TS') x y) ∧
  (∀ x, live x TS' → live x TS) ∧ (live i TS').
Proof.
  intros Hrun Hfit. destruct Hfit as (_ & _ & _ & _ & Hwf).
  apply mergeStep_spec in Hrun
    as (f & F & I & C & r & -> & Hne & HF & HI & Hjoin & _ & _ & _ & <- & Hf' & Hi' & Hoth).
  destruct (join_sameClass i f _ _ r Hwf Hjoin) as (Hii & Hff & Hsame).
  split_and!.
  - intros f' [= <-]. split; [|intros [N HN]; congruence].
    apply Hsame. right. left. by split.
  - intros x y Hxy. apply Hsame. by left.
  - intros x [N' HN']. destruct (decide (x = i)) as [-> | Hxi]; [by eexists|].
    destruct (decide (x = f)) as [-> | Hxf]; [congruence|].
    rewrite (Hoth x Hxi Hxf) in HN'. unfold live.
    destruct (Layouts TS !! x); [by eexists | done].
  - by eexists.
Qed.

(** After [mergeNodes] in a state reached through the API, every node that
    was merged away is gone from the graph while its identifier is of the
    class of the surviving node, which is live. *)
Theorem mergeNodes_joins_classes (TS TS' : LayoutTypeSystem) (i : nat)
    (Rest : list NodePtr) :
  reachable TS →
  mergeNodes (Some i :: Rest) TS = Done TS' →
  live i TS' ∧
  ∀ f, Some f ∈ Rest →
       ¬ live f TS' ∧ haveSameEqClass i f (EqClasses TS') = Done true.
Proof.
  intros Hreach Hrun.
  assert (Hfit' : classesFit TS').
  { apply reachable_classesFit. by apply (reach_step _ (OpMergeNodes (Some i :: Rest)) TS). }
  pose proof (reachable_classesFit TS Hreach) as Hfit.
  unfold mergeNodes in Hrun. osplit Hrun. cbn [deref] in E0. injection E0 as <-.
  apply load_Done in E1.
  assert (Hgen : ∀ Rest TS, classesFit TS → live i TS → forEach Rest (mergeStep i) TS = Done TS' →
            live i TS' ∧
            (∀ x y, sameClass (EqClasses TS) x y → sameClass (EqClasses TS') x y) ∧
            (∀ x, live x TS' → live x TS) ∧
            ∀ f, Some f ∈ Rest → ¬ live f TS' ∧ sameClass (EqClasses TS') i f).
  { clear. intros Rest. induction Rest as [|F Rest IH]; intros TS Hfit Hi Hrun;
      simpl in Hrun.
    - injection Hrun as <-. split_and!; try done. intros f Hf. by apply elem_of_nil in Hf.
    - apply obind_Done in Hrun as (TS1 & Hstep & Hrun).
      destruct (mergeStep_classes _ _ _ _ Hstep Hfit) as [Hfit1 _].
      destruct (mergeStep_sameClass _ _ _ _ Hstep Hfit) as (Hnew & Hmono & Hsub & Hi1).
      destruct (IH TS1 Hfit1 Hi1 Hrun) as (Hi' & Hmono' & Hsub' & Hrest).
      split_and!; try done; [by auto | by auto |].
      intros f [Heq | Hin]%elem_of_cons; [|by apply Hrest].
      destruct (Hnew f (eq_sym Heq)) as [Hs Hgone]. split; [|by apply Hmono'].
      intros Hl. by apply Hgone, Hsub'. }
  destruct (Hgen Rest TS Hfit) as (Hi' & _ & _ & Hrest); [by eexists | done |].
  split; [done|]. intros f Hf. destruct (Hrest f Hf) as [Hgone Hs]. split; [done|].
  destruct Hfit' as (Hlen' & _ & _ & _ & Hwf').
  pose proof Hs as (Hil & Hfl & _).
  by apply haveSameEqClass_decides.
Qed.

Lemma mergeNodes_joins_classes_witness :
  let TS' := stateAfter [OpCreate; OpCreate; OpCreate;
                         OpMergeNodes [Some 0; Some 1; Some 2]] in
  live 0 TS' ∧
  ∀ f, Some f ∈ [Some 1; Some 2] →
       ¬ live f TS' ∧ haveSameEqClass 0 f (EqClasses TS') = Done true.
Proof.
  intros TS'.
  apply (mergeNodes_joins_classes (stateAfter [OpCreate; OpCreate; OpCreate]) TS' 0).
  - apply reachable_stateAfter.
  - vm_compute. reflexivity.
Defined.

(** *** [getEqClassID] *)

Lemma getEqClassID_isRemoved (x : nat) (C : VectEqClasses) :
  NumClasses C ≠ 0 →
  getEqClassID x C =
    (c ←! lookupEqClass x C; b ←! isRemoved x C;
     Done (if b : bool then None else Some c)).
Proof.
  intros HNC. unfold getEqClassID, isRemoved, getNumClasses.
  rewrite (proj2 (Nat.eqb_neq _ _) HNC).
  destruct (lookupEqClass x C) as [c| | |] eqn:Hc; cbn [obind]; try done.
  destruct (RemovedID C) as [R|]; [|done].
  destruct (lookupEqClass R C) as [r| | |]; cbn [obind]; try done.
  rewrite (Nat.eqb_sym r c). by destruct (c =? r).
Qed.

(** [getEqClassID] needs compressed classes: on the classes of a state
    reached through the API that are not compressed it trips the assertion
    of [operator[]].  After their compression it returns no class for the
    removed identifiers and, for the others, a class number below
    [getNumClasses()]; and every number below [getNumClasses()] is the class
    of some identifier. *)
Theorem getEqClassID_after_compress (TS : LayoutTypeSystem) (x : nat) :
  reachable TS → NumClasses (EqClasses TS) = 0 → x < NID TS →
  getEqClassID x (EqClasses TS) = Fatal ∧
  ∃ C' b c,
    compress (EqClasses TS) = Done C' ∧
    isRemoved x (EqClasses TS) = Done b ∧
    lookupEqClass x C' = Done c ∧ c < getNumClasses C' ∧
    getEqClassID x C' = Done (if b then None else Some c) ∧
    ∀ k, k < getNumClasses C' → ∃ y, y < NID TS ∧ lookupEqClass y C' = Done k.
Proof.
  intros Hreach HNC Hx.
  destruct (reachable_classesFit TS Hreach) as (Hlen & _ & _ & HRlt & Hwf).
  split.
  { unfold getEqClassID, lookupEqClass. by rewrite HNC. }
  destruct (compress_keeps_classes_aux TS Hreach) as (C' & HC' & Hkeep).
  destruct (compress_Done _ HNC (Hwf HNC)) as (E' & HC'' & Hl & Hlead & _).
  rewrite HC'' in HC'. injection HC' as <-.
  set (C' := mkVEC E' _ _ _) in *.
  assert (Hpos : NumClasses C' ≠ 0).
  { cbn [NumClasses C']. pose proof (classOf_pos (EC (EqClasses TS))
      (length (EC (EqClasses TS))) (Hwf HNC)). lia. }
  assert (∃ b, isRemoved x (EqClasses TS) = Done b) as [b Hb].
  { rewrite isRemoved_haveSameEqClass.
    destruct (RemovedID (EqClasses TS)) as [R|] eqn:HR; [|by eexists].
    destruct (haveSameEqClass_Done (EqClasses TS) x R Hwf) as (b & -> & _);
      [lia | rewrite Hlen; by apply HRlt | by eexists]. }
  destruct (leader_exists _ x (Hwf HNC)) as (r & Hr & Hrx); [lia|].
  assert (Hc : lookupEqClass x C' = Done (classOf (EC (EqClasses TS)) r)).
  { unfold lookupEqClass. rewrite (proj2 (Nat.eqb_neq _ _) Hpos).
    cbn [negb revng_assert obind]. apply rd_Done. cbn [EC C']. by apply Hlead. }
  exists C', b, (classOf (EC (EqClasses TS)) r). split_and!; try done.
  - unfold getNumClasses. cbn [NumClasses C'].
    apply classOf_root_lt; [by eapply leader_is_root | lia].
  - rewrite (getEqClassID_isRemoved x C' Hpos), Hc. cbn [obind].
    destruct (Hkeep x x Hx Hx) as [_ ->]. by rewrite Hb.
  - intros k Hk. unfold getNumClasses in Hk. cbn [NumClasses C'] in Hk.
    destruct (classOf_onto _ _ _ Hk) as (y & Hy & Hroot & <-).
    exists y. split; [lia|]. unfold lookupEqClass.
    rewrite (proj2 (Nat.eqb_neq _ _) Hpos). cbn [negb revng_assert obind].
    apply rd_Done. cbn [EC C']. apply Hlead. by apply leader_root.
Qed.

Lemma getEqClassID_after_compress_witness :
  let TS := stateAfter mergedAndRemoved in
  getEqClassID 3 (EqClasses TS) = Fatal ∧
  ∃ C' b c,
    compress (EqClasses TS) = Done C' ∧
    isRemoved 3 (EqClasses TS) = Done b ∧
    lookupEqClass 3 C' = Done c ∧ c < getNumClasses C' ∧
    getEqClassID 3 C' = Done (if b then None else Some c) ∧
    ∀ k, k < getNumClasses C' → ∃ y, y < NID TS ∧ lookupEqClass y C' = Done k.
Proof.
  intros TS. apply (getEqClassID_after_compress TS 3).
  - apply reachable_stateAfter.
  - vm_compute. reflexivity.
  - vm_compute. lia.
Defined.

(** *** [computeEqClass] *)

Lemma computeEqClass_loop_spec (x : nat) (C : VectEqClasses) (k i : nat) (acc : list nat) :
  (NumClasses C = 0 → wfEC (EC C)) → x < length (EC C) → i + k ≤ length (EC C) →
  ∃ l, computeEqClass_loop x C (seq i k) acc = Done (acc ++ l) ∧
       StronglySorted lt l ∧
       ∀ y, y ∈ l ↔ (i ≤ y < i + k ∧ haveSameEqClass x y C = Done true).
Proof.
  intros Hwf Hx. revert i acc. induction k as [|k IH]; intros i acc Hik.
  - exists []. simpl. rewrite app_nil_r. split_and!; [done | constructor |].
    intros y. split; [by intros ?%elem_of_nil | lia].
  - cbn [seq computeEqClass_loop].
    destruct (haveSameEqClass_Done C x i Hwf Hx) as (b & Hb & _); [lia|].
    rewrite Hb. cbn [obind].
    destruct (IH (S i) (if b then acc ++ [i] else acc)) as (l & Hrun & Hsort & Hl); [lia|].
    rewrite Hrun. destruct b.
    + exists (i :: l). rewrite <- app_assoc. split_and!; [done| |].
      * constructor; [done|]. apply Forall_forall. intros y Hy%Hl. lia.
      * intros y. rewrite elem_of_cons, Hl. split.
        -- intros [-> | [? ?]]; [split; [lia|done] | split; [lia|done]].
        -- intros [Hy Hs]. destruct (decide (y = i)) as [-> | Hne]; [by left|].
           right. split; [lia|done].
    + exists l. split_and!; [done | done |].
      intros y. rewrite Hl. split.
      * intros [? ?]. split; [lia|done].
      * intros [Hy Hs]. split; [|done].
        destruct (decide (y = i)) as [-> | Hne]; [congruence | lia].
Qed.

(** In a state reached through the API, [computeEqClass] returns, for an
    identifier handed out, the identifiers of its class in increasing
    order: the identifier itself is among them, and an identifier is among
    them exactly when [haveSameEqClass] says so. *)
Theorem computeEqClass_spec (TS : LayoutTypeSystem) (x : nat) :
  reachable TS → x < NID TS →
  ∃ l, computeEqClass x (EqClasses TS) = Done l ∧
       StronglySorted lt l ∧ x ∈ l ∧
       ∀ y, y ∈ l ↔ (y < NID TS ∧ haveSameEqClass x y (EqClasses TS) = Done true).
Proof.
  intros Hreach Hx.
  destruct (reachable_classesFit TS Hreach) as (Hlen & HNE & _ & _ & Hwf).
  destruct (computeEqClass_loop_spec x (EqClasses TS) (NElems (EqClasses TS)) 0 [] Hwf)
    as (l & Hrun & Hsort & Hl); [lia | lia |].
  exists l. unfold computeEqClass. rewrite Hrun. split_and!; try done.
  - apply Hl. split; [lia|].
    apply haveSameEqClass_decides; [done | lia | lia |].
    split; [|done]. intros _. apply sameClass_refl. lia.
  - intros y. rewrite Hl. split; intros [? ?]; (split; [lia|done]).
Qed.

Lemma computeEqClass_spec_witness :
  let TS := stateAfter mergedAndRemoved in
  ∃ l, computeEqClass 1 (EqClasses TS) = Done l ∧
       StronglySorted lt l ∧ 1 ∈ l ∧
       ∀ y, y ∈ l ↔ (y < NID TS ∧ haveSameEqClass 1 y (EqClasses TS) = Done true).
Proof.
  intros TS. apply (computeEqClass_spec TS 1).
  - apply reachable_stateAfter.
  - vm_compute. lia.
Defined.

(** * More on the mutation primitives *)

(** ** [createArtificialLayoutType] *)

(** In a state reached through the API whose classes are not compressed,
    [createArtificialLayoutType] returns (as long as identifiers fit
    [unsigned]): the node it returns has the identifier [NID], which no live
    node has, it has no edges and Size 0, [NID] goes up by one, and the
    other nodes are as they were.  Once the classes are compressed the call
    trips the assertion of [grow]. *)
Theorem createArtificialLayoutType_fresh (TS : LayoutTypeSystem) :
  reachable TS → (N.of_nat (NID TS) < 4294967295)%N →
  if decide (NumClasses (EqClasses TS) = 0) then
    ∃ TS', createArtificialLayoutType TS = Done (TS', NID TS) ∧
           ¬ live (NID TS) TS ∧
           Layouts TS' = <[NID TS := newNode]> (Layouts TS) ∧
           NID TS' = S (NID TS) ∧ NElems (EqClasses TS') = NID TS' ∧
           LinkTags TS' = LinkTags TS
  else createArtificialLayoutType TS = Fatal.
Proof.
  intros Hreach Hbound.
  destruct (reachable_classesFit TS Hreach) as (Hlen & HNE & Hlt & _ & _).
  assert (Hfresh : ¬ live (NID TS) TS) by (intros Hl%Hlt; lia).
  unfold createArtificialLayoutType, growBy1, grow.
  rewrite (bool_decide_eq_true_2 _ Hbound). cbn [defined obind NumClasses].
  case_decide as HNC.
  - rewrite HNC. cbn [Nat.eqb revng_assert obind].
    rewrite bool_decide_eq_true_2.
    2: { unfold live in Hfresh. by destruct (Layouts TS !! NID TS); [destruct Hfresh|]. }
    cbn [revng_assert obind]. eexists. split_and!; try done.
    cbn [EqClasses setEC NElems]. by rewrite HNE.
  - by rewrite (proj2 (Nat.eqb_neq _ _) HNC).
Qed.

Lemma createArtificialLayoutType_fresh_witness :
  let TS := stateAfter [OpCreate; OpCreate] in
  if decide (NumClasses (EqClasses TS) = 0) then
    ∃ TS', createArtificialLayoutType TS = Done (TS', NID TS) ∧
           ¬ live (NID TS) TS ∧
           Layouts TS' = <[NID TS := newNode]> (Layouts TS) ∧
           NID TS' = S (NID TS) ∧ NElems (EqClasses TS') = NID TS' ∧
           LinkTags TS' = LinkTags TS
  else createArtificialLayoutType TS = Fatal.
Proof.
  intros TS. apply (createArtificialLayoutType_fresh TS).
  - apply reachable_stateAfter.
  - vm_compute. reflexivity.
Defined.

(** A node that [createArtificialLayoutType] has just returned is a leaf
    without Size: [verifyLeafs] returns false on the graph, and aborts under
    the strict logger. *)
Theorem verifyLeafs_after_create (TS TS' : LayoutTypeSystem) (New : nat) :
  createArtificialLayoutType TS = Done (TS', New) →
  verifyLeafs false TS' = Done false ∧ verifyLeafs true TS' = Fatal.
Proof.
  intros Hrun.
  assert (Hleaf : sizelessLeaf TS').
  { unfold createArtificialLayoutType in Hrun. osplit Hrun. destruct v0 as [C r].
    osplit Hrun. injection Hrun as <- <-.
    exists (NID TS), newNode. cbn [Layouts]. rewrite lookup_insert_eq.
    split_and!; done. }
  split.
  - by destruct (verifyLeafs_cases false TS') as [[_ ->] | [? _]].
  - by destruct (verifyLeafs_cases true TS') as [[_ ->] | [? _]].
Qed.

Lemma verifyLeafs_after_create_witness :
  verifyLeafs false (stateAfter [OpCreate]) = Done false ∧
  verifyLeafs true (stateAfter [OpCreate]) = Fatal.
Proof.
  apply (verifyLeafs_after_create emptyTS (stateAfter [OpCreate]) 0).
  vm_compute. reflexivity.
Defined.

(** ** [mergeNodes] *)

Lemma mergeStep_live (i : nat) (From : NodePtr) (TS TS' : LayoutTypeSystem) :
  mergeStep i From TS = Done TS' →
  ∃ f F I, From = Some f ∧ f ≠ i ∧
    Layouts TS !! f = Some F ∧ Layouts TS !! i = Some I ∧
    (Size I = 0 ∨ Size F ≤ Size I)%N ∧
    ¬ live f TS' ∧
    (∃ I', Layouts TS' !! i = Some I' ∧ Size I' = N.max (Size I) (Size F) ∧
           InterferingInfo I' = Unknown) ∧
    ∀ x, x ≠ i → x ≠ f →
         (live x TS' ↔ live x TS) ∧ sizeOf x TS' = sizeOf x TS ∧
         InterferingInfo <$> Layouts TS' !! x = InterferingInfo <$> Layouts TS !! x.
Proof.
  intros Hrun.
  apply mergeStep_spec in Hrun
    as (f & F & I & C & r & -> & Hne & HF & HI & _ & Hsz & _ & _ & _ & Hf' & Hi' & Hoth).
  exists f, F, I. split_and!; try done.
  - intros [N HN]. congruence.
  - eexists. split; [exact Hi'|]. done.
  - intros x Hxi Hxf. unfold live, sizeOf. rewrite (Hoth x Hxi Hxf).
    destruct (Layouts TS !! x); split_and!; try done; simpl;
      split; by first [eexists | intros [? ?]].
Qed.

Lemma forEach_mergeStep_nodes (i : nat) (Rest : list NodePtr) (TS TS' : LayoutTypeSystem) :
  forEach Rest (mergeStep i) TS = Done TS' →
  NoDup Rest ∧ (Some i ∉ Rest) ∧
  (∀ P, P ∈ Rest → ∃ p, P = Some p ∧ live p TS ∧ ¬ live p TS') ∧
  (∀ x, Some x ∉ Rest → x ≠ i → (live x TS' ↔ live x TS) ∧ sizeOf x TS' = sizeOf x TS).
Proof.
  revert TS. induction Rest as [|F Rest IH]; intros TS Hrun; simpl in Hrun.
  - injection Hrun as <-. split_and!; [constructor | by intros ?%elem_of_nil | |done].
    intros P HP. by apply elem_of_nil in HP.
  - apply obind_Done in Hrun as (TS1 & Hstep & Hrun).
    destruct (mergeStep_live _ _ _ _ Hstep)
      as (f & F0 & I & -> & Hne & HF & HI & _ & Hgone & _ & Hoth).
    destruct (IH TS1 Hrun) as (Hnd & Hi & Hrest & Hframe).
    assert (HfRest : Some f ∉ Rest).
    { intros Hin. destruct (Hrest _ Hin) as (p & [= <-] & Hl & _). by apply Hgone. }
    split_and!.
    + by constructor.
    + intros [[= ->] | Hin]%elem_of_cons; [done | by apply Hi].
    + intros P [-> | Hin]%elem_of_cons.
      * exists f. split_and!; [done | by eexists |].
        destruct (Hframe f HfRest Hne) as [Hl _]. by rewrite Hl.
      * destruct (Hrest P Hin) as (p & -> & Hl & Hg). exists p. split_and!; try done.
        apply (Hoth p); [|intros ->; by apply HfRest|done]. intros ->. by apply Hi.
    + intros x Hx Hxi.
      assert (Hxf : x ≠ f) by (intros ->; apply Hx; by left).
      destruct (Hframe x) as [Hl Hs]; [intros Hin; apply Hx; by right | done |].
      destruct (Hoth x Hxi Hxf) as (Hl' & Hs' & _). split; [by rewrite Hl | congruence].
Qed.

(** [mergeNodes] returns only when it is given at least two nodes, none of
    them null, all of them live and no two of them the same; the nodes
    after the first are gone from the graph when it returns. *)
Theorem mergeNodes_needs_distinct_live_nodes (ToMerge : list NodePtr)
    (TS TS' : LayoutTypeSystem) :
  mergeNodes ToMerge TS = Done TS' →
  2 ≤ length ToMerge ∧ NoDup ToMerge ∧
  (∀ P, P ∈ ToMerge → ∃ p, P = Some p ∧ live p TS) ∧
  (∀ P, P ∈ tail ToMerge → ∃ p, P = Some p ∧ ¬ live p TS') ∧
  (∀ p, head ToMerge = Some (Some p) → live p TS').
Proof.
  unfold mergeNodes. intros Hrun. osplit Hrun.
  apply revng_assert_Done, Nat.ltb_lt in E.
  destruct ToMerge as [|Into Rest]; [done|]. osplit Hrun.
  apply deref_Done in E0 as ->. apply load_Done in E1.
  destruct (forEach_mergeStep_nodes _ _ _ _ Hrun) as (Hnd & Hi & Hrest & Hframe).
  split_and!.
  - lia.
  - by constructor.
  - intros P [-> | Hin]%elem_of_cons; [exists v0; split; [done | by eexists]|].
    destruct (Hrest P Hin) as (p & -> & Hl & _). by exists p.
  - intros P Hin. destruct (Hrest P Hin) as (p & -> & _ & Hg). by exists p.
  - intros p [= <-]. clear E Hnd Hrest Hframe Hi.
    assert (Hl : live v0 TS) by by eexists. clear E1. revert TS Hrun Hl.
    induction Rest as [|F Rest IH]; intros TS Hrun Hl; simpl in Hrun.
    + by injection Hrun as <-.
    + apply obind_Done in Hrun as (TS1 & Hstep & Hrun). apply (IH TS1 Hrun).
      destruct (mergeStep_live _ _ _ _ Hstep)
        as (f & F0 & I & _ & _ & _ & _ & _ & _ & (I' & HI' & _) & _).
      by eexists.
Qed.

Lemma mergeNodes_needs_distinct_live_nodes_witness :
  let TS := stateAfter [OpCreate; OpCreate; OpCreate] in
  let TS' := stateAfter [OpCreate; OpCreate; OpCreate; OpMergeNodes [Some 2; Some 0]] in
  2 ≤ length [Some 2; Some 0] ∧ NoDup [Some 2; Some 0] ∧
  (∀ P, P ∈ [Some 2; Some 0] → ∃ p, P = Some p ∧ live p TS) ∧
  (∀ P, P ∈ tail [Some 2; Some 0] → ∃ p, P = Some p ∧ ¬ live p TS') ∧
  (∀ p, head [Some 2; Some 0] = Some (Some p) → live p TS').
Proof.
  intros TS TS'. apply (mergeNodes_needs_distinct_live_nodes [Some 2; Some 0] TS TS').
  vm_compute. reflexivity.
Defined.

(** The sizes, in the graph [TS], of the nodes of a list. *)
Definition sizesIn (TS : LayoutTypeSystem) (l : list NodePtr) : list N :=
  omap (fun P : NodePtr => P ≫= fun p => sizeOf p TS) l.

Lemma foldr_max_shift (a b : N) (l : list N) :
  foldr N.max (N.max a b) l = N.max b (foldr N.max a l).
Proof. induction l as [|c l IH]; simpl; [lia | rewrite IH; lia]. Qed.

Lemma sizesIn_ext (TS TS' : LayoutTypeSystem) (l : list NodePtr) :
  (∀ p, Some p ∈ l → sizeOf p TS' = sizeOf p TS) → sizesIn TS' l = sizesIn TS l.
Proof.
  intros Hext. unfold sizesIn. apply list_omap_ext.
  induction l as [|P l IH]; constructor.
  - destruct P as [p|]; [|done]. simpl. apply Hext. by left.
  - apply IH. intros p Hp. apply Hext. by right.
Qed.

Lemma forEach_mergeStep_size (i : nat) (Rest : list NodePtr) (TS TS' : LayoutTypeSystem)
    (I : LayoutTypeSystemNode) :
  forEach Rest (mergeStep i) TS = Done TS' → Layouts TS !! i = Some I →
  ∃ I', Layouts TS' !! i = Some I' ∧
        Size I' = foldr N.max (Size I) (sizesIn TS Rest) ∧
        (Size I ≠ 0%N → Size I' = Size I) ∧
        (Rest ≠ [] → InterferingInfo I' = Unknown).
Proof.
  revert TS I. induction Rest as [|F Rest IH]; intros TS I Hrun HI; simpl in Hrun.
  - injection Hrun as <-. exists I. by split_and!.
  - apply obind_Done in Hrun as (TS1 & Hstep & Hrun).
    destruct (mergeStep_live _ _ _ _ Hstep)
      as (f & F0 & I0 & -> & Hne & HF & HI0 & Hsz & Hgone & (I1 & HI1 & Hs1 & Hu1) & Hoth).
    assert (I0 = I) as -> by congruence.
    destruct (forEach_mergeStep_nodes _ _ _ _ Hrun) as (_ & Hi & Hrest & _).
    destruct (IH TS1 I1 Hrun HI1) as (I' & HI' & Hsize & Hkeep & Hinfo).
    exists I'. split_and!; [done| | |].
    + rewrite Hsize, Hs1.
      rewrite (sizesIn_ext TS TS1 Rest).
      2: { intros p Hp. destruct (Hrest _ Hp) as (p' & [= <-] & Hl & _).
           apply Hoth; [intros ->; by apply Hi | intros ->; by apply Hgone]. }
      assert (Hcons : sizesIn TS (@cons NodePtr (Some f) Rest) = Size F0 :: sizesIn TS Rest).
      { unfold sizesIn. cbn [omap list_omap mbind option_bind]. unfold sizeOf at 1.
        by rewrite HF. }
      rewrite Hcons. cbn [foldr]. apply foldr_max_shift.
    + intros Hnz. destruct Hsz as [Hz | Hle]; [done|].
      rewrite Hkeep; rewrite Hs1; lia.
    + intros _. destruct Rest as [|F' Rest']; [|by apply Hinfo].
      simpl in Hrun. injection Hrun as <-. congruence.
Qed.

(** When [mergeNodes] returns, the surviving node has the largest of the
    sizes that the merged nodes had; its [InterferingInfo] is [Unknown];
    and a Size of the first node that was not 0 is its Size still, no merged
    node being larger. *)
Theorem mergeNodes_size (i : nat) (Rest : list NodePtr) (TS TS' : LayoutTypeSystem)
    (I : LayoutTypeSystemNode) :
  Layouts TS !! i = Some I →
  mergeNodes (Some i :: Rest) TS = Done TS' →
  ∃ I', Layouts TS' !! i = Some I' ∧
        Size I' = foldr N.max (Size I) (sizesIn TS Rest) ∧
        (Size I ≠ 0%N → Size I' = Size I) ∧
        InterferingInfo I' = Unknown.
Proof.
  intros HI Hrun. unfold mergeNodes in Hrun. osplit Hrun.
  apply revng_assert_Done, Nat.ltb_lt in E. cbn [deref] in E0. injection E0 as <-.
  destruct (forEach_mergeStep_size _ _ _ _ I Hrun HI) as (I' & HI' & Hs & Hk & Hinfo).
  exists I'. split_and!; try done. apply Hinfo. intros ->. simpl in E. lia.
Qed.

Lemma mergeNodes_size_witness :
  let TS := stateAfter [OpCreate; OpCreate; OpSetSize (Some 0) 8; OpSetSize (Some 1) 4] in
  let TS' := stateAfter [OpCreate; OpCreate; OpSetSize (Some 0) 8; OpSetSize (Some 1) 4;
                         OpMergeNodes [Some 0; Some 1]] in
  ∃ I', Layouts TS' !! 0 = Some I' ∧
        Size I' = foldr N.max 8%N (sizesIn TS [Some 1]) ∧
        (8%N ≠ 0%N → Size I' = 8%N) ∧
        InterferingInfo I' = Unknown.
Proof.
  intros TS TS'.
  apply (mergeNodes_size 0 [Some 1] TS TS' (mkNode ∅ ∅ 8 Unknown)).
  - vm_compute. reflexivity.
  - vm_compute. reflexivity.
Defined.

(** ** Heaps by their edges *)

(** The part of a node that is not its edges. *)
Definition fields (Node : LayoutTypeSystemNode) : N * InterferingChildrenInfo :=
  (Size Node, InterferingInfo Node).

Lemma heap_ext (H H' : Heap) :
  (∀ x, fields <$> H' !! x = fields <$> H !! x) →
  (∀ T a b, (hasSucc T H' a b ↔ hasSucc T H a b) ∧
            (hasPred T H' a b ↔ hasPred T H a b)) →
  H' = H.
Proof.
  intros Hf He. apply map_eq. intros x. specialize (Hf x).
  destruct (H' !! x) as [N'|] eqn:HN'; destruct (H !! x) as [N|] eqn:HN; try done.
  f_equal. injection Hf as Hsz Hinfo.
  destruct N' as [S' P' s' i'], N as [S P s i]. simpl in *. subst. f_equal.
  - apply set_eq. intros [b T]. destruct (He T x b) as [HS _].
    unfold hasSucc in HS. rewrite HN', HN in HS. split; intros Hin.
    + destruct HS as [HS _]. destruct HS as (A & [= <-] & HA); [by eexists|]. done.
    + destruct HS as [_ HS]. destruct HS as (A & [= <-] & HA); [by eexists|]. done.
  - apply set_eq. intros [b T]. destruct (He T x b) as [_ HP].
    unfold hasPred in HP. rewrite HN', HN in HP. split; intros Hin.
    + destruct HP as [HP _]. destruct HP as (A & [= <-] & HA); [by eexists|]. done.
    + destruct HP as [_ HP]. destruct HP as (A & [= <-] & HA); [by eexists|]. done.
Qed.

Lemma modify_fields (p : nat) (f : LayoutTypeSystemNode → LayoutTypeSystemNode)
    (H H' : Heap) :
  (∀ N, fields (f N) = fields N) →
  modify p f H = Done H' →
  (∀ x, fields <$> H' !! x = fields <$> H !! x) ∧
  (∀ x, x ≠ p → H' !! x = H !! x).
Proof.
  intros Hf Hrun. apply modify_Done in Hrun as (N & HN & ->). split.
  - intros x. rewrite lookup_insert. case_decide; [|done]. subst. rewrite HN. simpl.
    by rewrite Hf.
  - intros x Hx. by rewrite lookup_insert_ne.
Qed.

(** What a call leaves of the nodes: their number, sizes and
    [InterferingInfo], and whole the nodes that are not among [ps]. *)
Definition sameFields (ps : list nat) (H H' : Heap) : Prop :=
  (∀ x, fields <$> H' !! x = fields <$> H !! x) ∧
  (∀ x, x ∉ ps → H' !! x = H !! x).

Lemma sameFields_refl (ps : list nat) (H : Heap) : sameFields ps H H.
Proof. by split. Qed.

Lemma sameFields_trans (ps : list nat) (H1 H2 H3 : Heap) :
  sameFields ps H1 H2 → sameFields ps H2 H3 → sameFields ps H1 H3.
Proof.
  intros [Hf1 Ho1] [Hf2 Ho2]. split.
  - intros x. by rewrite Hf2.
  - intros x Hx. by rewrite Ho2, Ho1.
Qed.

Lemma modify_sameFields (ps : list nat) (p : nat)
    (f : LayoutTypeSystemNode → LayoutTypeSystemNode) (H H' : Heap) :
  p ∈ ps → (∀ N, fields (f N) = fields N) →
  modify p f H = Done H' → sameFields ps H H'.
Proof.
  intros Hp Hf Hrun. destruct (modify_fields p f H H' Hf Hrun) as [H1 H2].
  split; [done|]. intros x Hx. apply H2. intros ->. done.
Qed.

Lemma addLink_sameFields (ps : list nat) (src tgt : nat) (Tag : TypeLinkTag)
    (TS TS' : LayoutTypeSystem) (res : option TypeLinkTag * bool) :
  src ∈ ps → tgt ∈ ps →
  addLink (Some src) (Some tgt) Tag TS = Done (TS', res) →
  sameFields ps (Layouts TS) (Layouts TS').
Proof.
  intros Hs Ht Hrun.
  destruct (addLink_spec _ _ _ _ _ _ Hrun)
    as [(-> & _) | (s & t & S & Tn & [= <-] & [= <-] & Hne & HS & HT & _ & _ & _ & HL & _)];
    [apply sameFields_refl|].
  rewrite HL. split.
  - intros x. rewrite !lookup_insert. repeat case_decide; subst; try done.
    + by rewrite HT.
    + by rewrite HS.
  - intros x Hx. rewrite !lookup_insert_ne; [done|intros ->; done..].
Qed.

Lemma moveEdge_sameFields (o n : nat) (e : Link) (d : Z) (TS TS' : LayoutTypeSystem) :
  moveEdge (Some o) (Some n) e d TS = Done TS' →
  sameFields [o; n; e.1] (Layouts TS) (Layouts TS').
Proof.
  assert (Ho : o ∈ [o; n; e.1]) by set_solver.
  assert (Hn : n ∈ [o; n; e.1]) by set_solver.
  assert (Ht : e.1 ∈ [o; n; e.1]) by set_solver.
  unfold moveEdge. intros Hrun. destruct (d =? 0)%Z.
  - osplit Hrun. injection Hrun as <-. cbn [Layouts setLayouts].
    unfold moveEdgeWithoutSumming in E. osplit E.
    eapply sameFields_trans; [by refine (modify_sameFields _ o _ _ _ Ho _ E2)|].
    eapply sameFields_trans; [by refine (modify_sameFields _ n _ _ _ Hn _ E5)|].
    by refine (modify_sameFields _ e.1 _ _ _ Ht _ E).
  - osplit Hrun. destruct v2 as [TS2 res]. osplit Hrun. injection Hrun as <-.
    cbn [Layouts setLayouts].
    eapply sameFields_trans; [by refine (modify_sameFields _ o _ _ _ Ho _ E1)|].
    eapply sameFields_trans; [|by refine (modify_sameFields _ e.1 _ _ _ Ht _ E3)].
    assert (Hadd : ∃ Tag, addLink (Some n) (Some e.1) Tag (setLayouts v1 TS)
                          = Done (TS2, res)).
    { destruct (getKind e.2); try done.
      - destruct (0 <? d)%Z; by eexists.
      - osplit E2. by eexists. }
    destruct Hadd as [Tag Hadd].
    apply (addLink_sameFields [o; n; e.1]) in Hadd; done.
Qed.

(** ** The frame of [moveEdge] *)

(** [moveEdge] touches edges only: when it returns, the nodes of the graph
    are the nodes it had, with the Size and [InterferingInfo] they had; the
    nodes other than the old source, the new source and the target are
    as they were; the identifier counter and the classes are as they were;
    and [LinkTags] has lost no tag. *)
Theorem moveEdge_frame (OldSrc NewSrc : NodePtr) (e : Link) (d : Z)
    (TS TS' : LayoutTypeSystem) :
  moveEdge OldSrc NewSrc e d TS = Done TS' →
  NID TS' = NID TS ∧ EqClasses TS' = EqClasses TS ∧ LinkTags TS ⊆ LinkTags TS' ∧
  (∀ x, (live x TS' ↔ live x TS) ∧ sizeOf x TS' = sizeOf x TS ∧
        InterferingInfo <$> Layouts TS' !! x = InterferingInfo <$> Layouts TS !! x) ∧
  (∀ x, Some x ≠ OldSrc → Some x ≠ NewSrc → x ≠ e.1 →
        Layouts TS' !! x = Layouts TS !! x).
Proof.
  intros Hrun.
  destruct (moveEdge_keepsNodes _ _ _ _ _ _ Hrun) as (HC & HN & HL).
  assert (Hsame : sameFields (match OldSrc, NewSrc with
                              | Some o, Some n => [o; n; e.1]
                              | _, _ => []
                              end) (Layouts TS) (Layouts TS')).
  { destruct OldSrc as [o|]; [|injection Hrun as <-; apply sameFields_refl].
    destruct NewSrc as [n|]; [|injection Hrun as <-; apply sameFields_refl].
    by apply moveEdge_sameFields in Hrun. }
  assert (Htags : LinkTags TS ⊆ LinkTags TS').
  { destruct OldSrc as [o|]; [|by injection Hrun as <-].
    destruct NewSrc as [n|]; [|by injection Hrun as <-].
    unfold moveEdge in Hrun. destruct (d =? 0)%Z.
    - osplit Hrun. by injection Hrun as <-.
    - osplit Hrun. destruct v2 as [TS2 res]. osplit Hrun. injection Hrun as <-.
      cbn [LinkTags setLayouts].
      assert (Hadd : ∃ Tag, addLink (Some n) (Some e.1) Tag (setLayouts v1 TS)
                            = Done (TS2, res)).
      { destruct (getKind e.2); try done.
        - destruct (0 <? d)%Z; by eexists.
        - osplit E2. by eexists. }
      destruct Hadd as [Tag Hadd].
      destruct (addLink_spec _ _ _ _ _ _ Hadd)
        as [(-> & _) | (s & t & S & Tn & _ & _ & _ & _ & _ & _ & _ & -> & _)]; [done|].
      cbn [LinkTags setLayouts]. set_solver. }
  destruct Hsame as [Hf Hoth]. split_and!; try done.
  - intros x. specialize (Hf x). split_and!; [apply HL | |].
    + unfold sizeOf. destruct (Layouts TS' !! x), (Layouts TS !! x); try done.
      simpl in *. injection Hf as Hs _. by rewrite Hs.
    + destruct (Layouts TS' !! x), (Layouts TS !! x); try done.
      simpl in *. injection Hf as _ Hi. by rewrite Hi.
  - intros x Ho Hn Ht. apply Hoth.
    destruct OldSrc as [o|]; [|set_solver]. destruct NewSrc as [n|]; [|set_solver].
    intros Hin. set_unfold in Hin. destruct Hin as [-> | [-> | [-> | []]]]; done.
Qed.

Lemma moveEdge_frame_witness :
  let TS := stateAfter [OpCreate; OpCreate; OpCreate;
                        OpAddInstanceLink (Some 0) (Some 1) (OffsetExpression_of 4)] in
  let e : Link := (1, instanceTag (OffsetExpression_of 4)) in
  let TS' := stateAfter [OpCreate; OpCreate; OpCreate;
                         OpAddInstanceLink (Some 0) (Some 1) (OffsetExpression_of 4);
                         OpMoveEdge (Some 0) (Some 2) e 8] in
  NID TS' = NID TS ∧ EqClasses TS' = EqClasses TS ∧ LinkTags TS ⊆ LinkTags TS' ∧
  (∀ x, (live x TS' ↔ live x TS) ∧ sizeOf x TS' = sizeOf x TS ∧
        InterferingInfo <$> Layouts TS' !! x = InterferingInfo <$> Layouts TS !! x) ∧
  (∀ x, Some x ≠ Some 0 → Some x ≠ Some 2 → x ≠ e.1 →
        Layouts TS' !! x = Layouts TS !! x).
Proof.
  intros TS e TS'. apply (moveEdge_frame (Some 0) (Some 2) e 8 TS TS').
  vm_compute. reflexivity.
Defined.

(** ** Moving an edge there and back *)

(** An edge moved with offset 0 to a source that does not have it yet, and
    moved back with offset 0, leaves the graph as it was. *)
Theorem moveEdge_there_and_back (o n : nat) (e : Link) (TS : LayoutTypeSystem) :
  live n TS →
  e ∈ succs o TS → (o, e.2) ∈ preds e.1 TS →
  e ∉ succs n TS → (n, e.2) ∉ preds e.1 TS →
  ∃ TS1, moveEdge (Some o) (Some n) e 0 TS = Done TS1 ∧
         e ∈ succs n TS1 ∧ (e ∉ succs o TS1) ∧
         moveEdge (Some n) (Some o) e 0 TS1 = Done TS.
Proof.
  intros Hn He HeP Hne HneP. destruct e as [t T]. cbn [fst snd] in *.
  apply succs_hasSucc in He as HeS. apply preds_hasPred in HeP as HePS.
  rewrite succs_hasSucc in Hne. rewrite preds_hasPred in HneP.
  destruct HeS as (O & HO & HinO). destruct HePS as (Tn & HTn & HinT).
  destruct (moveEdgeWithoutSumming_returns o n (t, T) (Layouts TS) O Tn)
    as [H1 Hrun1]; try done.
  pose proof (moveEdgeWithoutSumming_edges _ _ _ _ _ Hrun1) as (_ & _ & _ & He1).
  cbn [fst snd] in He1.
  assert (Hf1 : sameFields [o; n; t] (Layouts TS) H1).
  { apply (moveEdge_sameFields o n (t, T) 0 TS (setLayouts H1 TS)).
    unfold moveEdge. cbn [Z.eqb]. by rewrite Hrun1. }
  (* the way back *)
  assert (HS1 : hasSucc T H1 n t) by (apply He1; by right).
  assert (HP1 : hasPred T H1 t n) by (apply He1; by right).
  destruct HS1 as (N1 & HN1 & HinN1). destruct HP1 as (T1 & HT1 & HinT1).
  destruct (moveEdgeWithoutSumming_returns n o (t, T) H1 N1 T1)
    as [H2 Hrun2]; try done.
  { destruct Hf1 as [Hf _]. specialize (Hf o). rewrite HO in Hf.
    destruct (H1 !! o); [by eexists | done]. }
  { intros Hon Hs. apply He1 in Hs as [[_ Hno] | [-> _]]; [by apply Hno | done]. }
  pose proof (moveEdgeWithoutSumming_edges _ _ _ _ _ Hrun2) as (_ & _ & _ & He2).
  cbn [fst snd] in He2.
  assert (Hf2 : sameFields [n; o; t] H1 H2).
  { apply (moveEdge_sameFields n o (t, T) 0 (setLayouts H1 TS) (setLayouts H2 TS)).
    unfold moveEdge. cbn [Z.eqb Layouts setLayouts]. by rewrite Hrun2. }
  assert (Heq : H2 = Layouts TS).
  { apply heap_ext.
    - intros x. destruct Hf1 as [Hf1 _], Hf2 as [Hf2 _]. by rewrite Hf2, Hf1.
    - intros T' a b. destruct (He2 T' a b) as [HS2 HP2]. destruct (He1 T' a b) as [HS1 HP1].
      rewrite HS2, HP2, HS1, HP1.
      assert (HSo : hasSucc T (Layouts TS) o t) by by exists O.
      assert (HPo : hasPred T (Layouts TS) t o) by by exists Tn.
      clear -HSo HPo Hne HneP.
      destruct (decide (a = o)); destruct (decide (a = n)); destruct (decide (a = t));
        destruct (decide ((b, T') = (t, T))); destruct (decide ((b, T') = (o, T)));
        destruct (decide ((b, T') = (n, T))); naive_solver. }
  exists (setLayouts H1 TS). split_and!.
  - unfold moveEdge. cbn [Z.eqb]. by rewrite Hrun1.
  - apply succs_hasSucc. cbn [Layouts setLayouts]. apply He1. by right.
  - rewrite succs_hasSucc. cbn [Layouts setLayouts]. intros Hin.
    apply He1 in Hin as [[_ Hno] | [-> _]]; [by apply Hno|].
    apply Hne. by exists O.
  - unfold moveEdge. cbn [Z.eqb Layouts setLayouts]. rewrite Hrun2. cbn [obind].
    rewrite Heq. by destruct TS.
Qed.

Lemma moveEdge_there_and_back_witness :
  let TS := stateAfter [OpCreate; OpCreate; OpCreate;
                        OpAddPointerLink (Some 0) (Some 1)] in
  let e : Link := (1, pointerTag) in
  ∃ TS1, moveEdge (Some 0) (Some 2) e 0 TS = Done TS1 ∧
         e ∈ succs 2 TS1 ∧ (e ∉ succs 0 TS1) ∧
         moveEdge (Some 2) (Some 0) e 0 TS1 = Done TS.
Proof.
  intros TS e. apply (moveEdge_there_and_back 0 2 e TS).
  - vm_compute. eexists. reflexivity.
  - apply (bool_decide_unpack _). vm_compute. exact I.
  - apply (bool_decide_unpack _). vm_compute. exact I.
  - apply (bool_decide_unpack _). vm_compute. exact I.
  - apply (bool_decide_unpack _). vm_compute. exact I.
Defined.

(** ** Adding a link twice *)

(** [addLink] between two distinct live nodes puts the tag on both ends;
    the flag it returns is false exactly when both entries were there
    already; and adding the same link again changes nothing and returns the
    same tag with the flag false. *)
Theorem addLink_again (s t : nat) (Tag : TypeLinkTag) (TS TS1 : LayoutTypeSystem)
    (r : option TypeLinkTag * bool) :
  s ≠ t →
  addLink (Some s) (Some t) Tag TS = Done (TS1, r) →
  r.1 = Some Tag ∧ Tag ∈ LinkTags TS1 ∧
  (t, Tag) ∈ succs s TS1 ∧ (s, Tag) ∈ preds t TS1 ∧
  (r.2 = false ↔ (t, Tag) ∈ succs s TS ∧ (s, Tag) ∈ preds t TS) ∧
  addLink (Some s) (Some t) Tag TS1 = Done (TS1, (Some Tag, false)).
Proof.
  intros Hne Hrun.
  pose proof (addLink_edges) as Hedges.
  destruct (addLink_spec _ _ _ _ _ _ Hrun)
    as [(_ & _ & [? | [? | ?]]) |
        (s' & t' & S & Tn & [= <-] & [= <-] & _ & HS & HT & HNID & HC & Htags & HL & ->)];
    try congruence.
  assert (Hin1 : (t, Tag) ∈ succs s TS1).
  { apply succs_hasSucc. apply (Hedges Tag _ _ _ _ _ _ Hrun). right. by split_and!. }
  assert (Hin2 : (s, Tag) ∈ preds t TS1).
  { apply preds_hasPred. apply (Hedges Tag _ _ _ _ _ _ Hrun). right. by split_and!. }
  split_and!; try done.
  - rewrite Htags. set_solver.
  - cbn [snd]. unfold succs, preds. rewrite HS, HT. cbn [from_option].
    rewrite orb_false_iff, !bool_decide_eq_false. split.
    + intros [H1 H2]. split; by apply dec_stable.
    + intros [H1 H2]. split; by intros ?.
  - destruct (addLink_returns s t Tag TS1) as (TS2 & r2 & Hrun2 & _).
    { apply (proj2 (proj2 (proj2 (addLink_keepsNodes _ _ _ _ _ _ Hrun)) s)). by eexists. }
    { apply (proj2 (proj2 (proj2 (addLink_keepsNodes _ _ _ _ _ _ Hrun)) t)). by eexists. }
    rewrite Hrun2. f_equal.
    destruct (addLink_spec _ _ _ _ _ _ Hrun2)
      as [(_ & _ & [? | [? | ?]]) |
          (s' & t' & S1 & T1 & [= <-] & [= <-] & _ & HS1 & HT1 & HNID2 & HC2 & Htags2
             & HL2 & ->)];
      try congruence.
    f_equal.
    + assert (Hheap : Layouts TS2 = Layouts TS1).
      { apply heap_ext.
        - intros x.
          assert (Hs : s ∈ [s; t]) by set_solver. assert (Ht : t ∈ [s; t]) by set_solver.
          destruct (addLink_sameFields [s; t] s t Tag TS1 TS2 _ Hs Ht Hrun2) as [Hf _].
          apply Hf.
        - intros T a b. destruct (Hedges T _ _ _ _ _ _ Hrun2 a b) as [HS2 HP2].
          rewrite HS2, HP2.
          apply succs_hasSucc in Hin1. apply preds_hasPred in Hin2.
          split; split; try (by left); intros [? | (-> & [= <-] & [= <-] & _)]; done. }
      assert (Htags' : LinkTags TS2 = LinkTags TS1) by (rewrite Htags2, Htags; set_solver).
      clear -HNID2 HC2 Htags' Hheap.
      destruct TS2 as [nid2 H2 tags2 C2], TS1 as [nid1 H1 tags1 C1].
      cbn [NID Layouts LinkTags EqClasses] in *. by subst.
    + f_equal. unfold succs in Hin1. unfold preds in Hin2.
      rewrite HS1 in Hin1. rewrite HT1 in Hin2. cbn [from_option] in Hin1, Hin2.
      rewrite (bool_decide_eq_false_2 _ (fun Hc => Hc Hin1)).
      by rewrite (bool_decide_eq_false_2 _ (fun Hc => Hc Hin2)).
Qed.

Lemma addLink_again_witness :
  let TS := stateAfter [OpCreate; OpCreate] in
  let TS1 := stateAfter [OpCreate; OpCreate; OpAddPointerLink (Some 0) (Some 1)] in
  (Some pointerTag, true).1 = Some pointerTag ∧ pointerTag ∈ LinkTags TS1 ∧
  (1, pointerTag) ∈ succs 0 TS1 ∧ (0, pointerTag) ∈ preds 1 TS1 ∧
  ((Some pointerTag, true).2 = false ↔
     (1, pointerTag) ∈ succs 0 TS ∧ (0, pointerTag) ∈ preds 1 TS) ∧
  addLink (Some 0) (Some 1) pointerTag TS1 = Done (TS1, (Some pointerTag, false)).
Proof.
  intros TS TS1. apply (addLink_again 0 1 pointerTag TS TS1 (Some pointerTag, true)).
  - lia.
  - vm_compute. reflexivity.
Defined.

(** ** The edges after a merge *)

(** [mergeNodes([Into, From])] on a graph with mirrored adjacency: the
    edges of [From] become edges of [Into], the edges to [From] become edges
    to [Into], the edges between the two are dropped, and all other edges
    are as they were. *)
Theorem mergeNodes_redirects_edges (i f : nat) (TS TS' : LayoutTypeSystem) :
  mirrored TS →
  mergeNodes [Some i; Some f] TS = Done TS' →
  ∀ a b T,
    ((b, T) ∈ succs a TS' ↔ a ≠ f ∧ b ≠ f ∧
       ((a = i ∧ b ≠ i ∧ ((b, T) ∈ succs i TS ∨ (b, T) ∈ succs f TS)) ∨
        (a ≠ i ∧ ((b, T) ∈ succs a TS ∨ (b = i ∧ (f, T) ∈ succs a TS))))) ∧
    ((b, T) ∈ preds a TS' ↔ a ≠ f ∧ b ≠ f ∧
       ((a = i ∧ b ≠ i ∧ ((b, T) ∈ preds i TS ∨ (b, T) ∈ preds f TS)) ∨
        (a ≠ i ∧ ((b, T) ∈ preds a TS ∨ (b = i ∧ (f, T) ∈ preds a TS))))).
Proof.
  intros Hm Hrun a b T. unfold mergeNodes in Hrun. osplit Hrun.
  cbn [deref] in E0. injection E0 as <-. cbn [forEach] in Hrun. osplit Hrun.
  injection Hrun as <-. rename E0 into Hstep.
  apply mergeStep_spec in Hstep
    as (f' & F & I & C & r & [= <-] & Hne & HF & HI & _ & _ & _ & _ & _ & Hmerged).
  rewrite !succs_hasSucc, !preds_hasPred.
  apply (mergedHeap_edges T f i F I (Layouts TS) (Layouts v0)); try done.
  by apply mirrored_iff.
Qed.

Lemma mergeNodes_redirects_edges_witness :
  let TS := stateAfter inheritanceChain in
  let TS' := stateAfter (inheritanceChain ++ [OpMergeNodes [Some 0; Some 1]]) in
  let a := 0 in
  let b := 2 in
  let T := inheritanceTag in
  ((b, T) ∈ succs a TS' ↔ a ≠ 1 ∧ b ≠ 1 ∧
     ((a = 0 ∧ b ≠ 0 ∧ ((b, T) ∈ succs 0 TS ∨ (b, T) ∈ succs 1 TS)) ∨
      (a ≠ 0 ∧ ((b, T) ∈ succs a TS ∨ (b = 0 ∧ (1, T) ∈ succs a TS))))) ∧
  ((b, T) ∈ preds a TS' ↔ a ≠ 1 ∧ b ≠ 1 ∧
     ((a = 0 ∧ b ≠ 0 ∧ ((b, T) ∈ preds 0 TS ∨ (b, T) ∈ preds 1 TS)) ∨
      (a ≠ 0 ∧ ((b, T) ∈ preds a TS ∨ (b = 0 ∧ (1, T) ∈ preds a TS))))).
Proof.
  intros TS TS' a b T. apply (mergeNodes_redirects_edges 0 1 TS TS').
  - apply reachable_mirrored, reachableBy_stateAfter.
    intros o TS0 Hin. unfold inheritanceChain in Hin.
    repeat (apply elem_of_cons in Hin as [-> | Hin]; [exact I|]).
    by apply elem_of_nil in Hin.
  - vm_compute. reflexivity.
Defined.

(** ** The invariants of the graph *)

(** Along every sequence of calls of the API in which [moveEdge] is sound,
    adjacency is mirrored, no node is its own neighbour, and every entry
    names a live node, whose identifier has been handed out. *)
Theorem sound_api_invariants (TS : LayoutTypeSystem) :
  reachableBy soundMove TS →
  mirrored TS ∧ noSelfEdges TS ∧
  ∀ a e, live a TS → e ∈ succs a TS ∨ e ∈ preds a TS →
         live e.1 TS ∧ e.1 ≠ a ∧ e.1 < NID TS ∧ a < NID TS.
Proof.
  intros Hreach.
  assert (Hm : mirrored TS).
  { apply reachable_mirrored. eapply reachableBy_impl; [|done]. by intros o TS0 [? ?]. }
  assert (Hs : noSelfEdges TS).
  { apply reachable_noSelfEdges. eapply reachableBy_impl; [|done]. by intros o TS0 [? ?]. }
  destruct (reachable_classesFit TS (reachableBy_reachable _ _ Hreach))
    as (_ & _ & Hlt & _).
  split_and!; try done. intros a [b T] Ha Hin. cbn [fst].
  assert (Hb : live b TS).
  { destruct (Hm a b T Ha) as [H1 H2]. destruct Hin as [Hin | Hin];
      [by destruct (H1 Hin) | by destruct (H2 Hin)]. }
  split_and!; [done | | by apply Hlt | by apply Hlt].
  intros ->. destruct (Hs a T Ha) as [H1 H2]. by destruct Hin.
Qed.

Lemma sound_api_invariants_witness :
  let TS := stateAfter inheritanceChain in
  mirrored TS ∧ noSelfEdges TS ∧
  ∀ a e, live a TS → e ∈ succs a TS ∨ e ∈ preds a TS →
         live e.1 TS ∧ e.1 ≠ a ∧ e.1 < NID TS ∧ a < NID TS.
Proof.
  intros TS. apply (sound_api_invariants TS).
  apply reachableBy_stateAfter. intros o TS0 Hin. unfold inheritanceChain in Hin.
  repeat (apply elem_of_cons in Hin as [-> | Hin]; [by split|]).
  by apply elem_of_nil in Hin.
Defined.

(** Along every sequence of calls of the API in which no equality edge is
    moved to another source, equality edges come in pairs: a node has an
    equality edge to another exactly when that one has an equality edge to
    it, and the equality successors of a node are its equality
    predecessors. *)
Theorem equality_edges_are_paired (TS : LayoutTypeSystem) (a b : nat) :
  reachableBy noEqualityMove TS →
  ((b, equalityTag) ∈ succs a TS ↔ (a, equalityTag) ∈ succs b TS) ∧
  ((b, equalityTag) ∈ succs a TS ↔ (b, equalityTag) ∈ preds a TS).
Proof.
  intros Hreach. destruct (reachable_equalityPaired TS Hreach) as [Hm Hs].
  rewrite !succs_hasSucc, !preds_hasPred. split; split; intros H.
  - by apply Hs.
  - by apply Hs.
  - apply Hm. by apply Hs.
  - apply Hs. by apply Hm.
Qed.

Lemma equality_edges_are_paired_witness :
  let TS := stateAfter [OpCreate; OpCreate; OpAddEqualityLink (Some 0) (Some 1)] in
  ((1, equalityTag) ∈ succs 0 TS ↔ (0, equalityTag) ∈ succs 1 TS) ∧
  ((1, equalityTag) ∈ succs 0 TS ↔ (1, equalityTag) ∈ preds 0 TS).
Proof.
  intros TS. apply (equality_edges_are_paired TS 0 1).
  apply reachableBy_stateAfter. intros o TS0 Hin.
  repeat (apply elem_of_cons in Hin as [-> | Hin]; [exact I|]).
  by apply elem_of_nil in Hin.
Defined.

(** ** [removeNode] returns *)

Lemma removeNode_returns_witness :
  ∃ TS', removeNode (Some 1) (stateAfter inheritanceChain) = Done TS'.
Proof.
  apply (removeNode_returns (stateAfter inheritanceChain) 1).
  - apply reachableBy_stateAfter. intros o TS0 Hin. unfold inheritanceChain in Hin.
    repeat (apply elem_of_cons in Hin as [-> | Hin]; [exact I|]).
    by apply elem_of_nil in Hin.
  - vm_compute. reflexivity.
  - vm_compute. eexists. reflexivity.
Defined.
